(** * Pigeonhole Sieve: binary codec, interpreter jumps and loops, store
    action and match types, embedded from the C sources.

    Part I holds the embedding (one section per source file), Part II the
    properties.  Integers of the C code are [Z]; a value of an unsigned
    w-bit type is kept reduced modulo [2^w] where the C code can wrap. *)

From Stdlib Require Import ZArith Lia Bool String Ascii.
From stdpp Require Import prelude.

Open Scope Z_scope.

(* ================================================================= *)
(** * Part I: the embedding *)
(* ================================================================= *)

(** ** Outcomes of a C call

    [Done a]     the call returns [a];
    [Undefined]  the call reads or writes outside an object, or through a
                 NULL pointer (undefined behaviour in C);
    [Panic]      an [i_assert] fails and the process aborts;
    [NoFuel]     the loop budget of the model ran out (shown unreachable
                 where it matters). *)
Inductive outcome (A : Type) : Type :=
| Done (a : A)
| Undefined
| Panic
| NoFuel.

Arguments Done {A} a.
Arguments Undefined {A}.
Arguments Panic {A}.
Arguments NoFuel {A}.

#[global] Instance outcome_ret : MRet outcome := fun A a => Done a.

#[global] Instance outcome_bind : MBind outcome := fun A B k m =>
  match m with
  | Done a => k a
  | Undefined => Undefined
  | Panic => Panic
  | NoFuel => NoFuel
  end.

(** [i_assert(b)] *)
Definition i_assert (b : bool) : outcome unit :=
  if b then Done tt else Panic.

(** C truth values of [bool]-returning functions. *)
Definition TRUE : bool := true.
Definition FALSE : bool := false.

(** Bytes are integers; a cell read through [(unsigned char)] is reduced
    modulo 256. *)
Definition unsigned_char (c : Z) : Z := c mod 256.

(** A C string is kept as the [string] of its characters before the
    terminating NUL; [is_c_string] says that it holds no NUL itself. *)
Definition char_code (c : ascii) : Z := Z.of_N (N_of_ascii c).

Fixpoint is_c_string (s : string) : Prop :=
  match s with
  | EmptyString => True
  | String c s' => char_code c ≠ 0 ∧ is_c_string s'
  end.

(** The characters held by a run of memory cells. *)
Definition char_of_byte (c : Z) : ascii := ascii_of_N (Z.to_N (unsigned_char c)).

Fixpoint string_of_bytes (bytes : list Z) : string :=
  match bytes with
  | [] => EmptyString
  | c :: bytes' => String (char_of_byte c) (string_of_bytes bytes')
  end.

(** [str_append_n] of the Dovecot library, on an empty string: the
    characters at [cstr] up to the first NUL, [max_len] at most. *)
Fixpoint str_append_n (cstr : string) (max_len : Z) : string :=
  match cstr with
  | EmptyString => EmptyString
  | String c cstr' =>
      if (max_len >? 0) && negb (char_code c =? 0)
      then String c (str_append_n cstr' (max_len - 1))
      else EmptyString
  end.

(** Index into an array by a C integer: outside the array the access is
    undefined. *)
Definition array_at {A : Type} (a : list A) (i : Z) : outcome A :=
  if (0 <=? i) && (i <? Z.of_nat (length a)) then
    match a !! Z.to_nat i with
    | Some x => Done x
    | None => Undefined
    end
  else Undefined.

Definition array_set {A : Type} (a : list A) (i : Z) (x : A) : outcome (list A) :=
  if (0 <=? i) && (i <? Z.of_nat (length a)) then Done (<[Z.to_nat i := x]> a)
  else Undefined.

(* ----------------------------------------------------------------- *)
(** ** sieve-binary.c *)
(* ----------------------------------------------------------------- *)

Definition SIEVE_BINARY_MAGIC : Z := 0xdeadbeaf.
Definition SIEVE_BINARY_MAGIC_OTHER_ENDIAN : Z := 0xefbeadde.

Definition SIEVE_BINARY_VERSION_MAJOR : Z := 0.
Definition SIEVE_BINARY_VERSION_MINOR : Z := 0.

(** [SIEVE_BINARY_ALIGN(offset)]: [((offset) + 3) & ~3] *)
Definition SIEVE_BINARY_ALIGN (offset : Z) : Z := Z.land (offset + 3) (Z.lnot 3).

(** Arguments of a printf-style call, kept beside the format string. *)
Inductive fmt_arg : Type :=
| ArgZ (z : Z)
| ArgS (s : string).

(** What the library writes to the error log ([i_error]) and to standard
    output ([printf]). *)
Inductive message : Type :=
| I_error (fmt : string) (args : list fmt_arg)
| Printf (fmt : string) (args : list fmt_arg).

(** [struct sieve_binary_extension_reg]; the extension object, the binary
    extension and the context are pointers into the extension registry and
    are kept as the global extension id they belong to. *)
Record sieve_binary_extension_reg : Type := {
  reg_index : Z;
  reg_ext_id : Z;
  reg_block_id : Z
}.

(** [struct sieve_binary_block]; [blk_buffer] is a [buffer_t *]: the index
    of a buffer in the binary's store, or [None] for NULL. *)
Record sieve_binary_block : Type := {
  blk_buffer : option nat;
  blk_ext_index : Z;
  blk_ext_id : Z;
  blk_offset : Z
}.

(** [struct sieve_binary].  Buffers are objects shared through pointers:
    [buffers] is the store, and [data], [code] and the blocks refer to a
    buffer by its index.  [code] is the address of the bytes of a buffer
    and [code_size] the number of bytes it held when the block was made
    active; both go stale when the buffer is appended to. *)
Record sieve_binary : Type := {
  path : string;
  memory : list Z;
  memory_size : Z;
  extensions : list (option sieve_binary_extension_reg);
  extension_index : list (option sieve_binary_extension_reg);
  linked_extensions : list sieve_binary_extension_reg;
  blocks : list (option sieve_binary_block);
  active_block : Z;
  buffers : list (list Z);
  data : option nat;
  code : option nat;
  code_size : Z
}.

Definition set_blocks (sbin : sieve_binary) (b : list (option sieve_binary_block)) : sieve_binary :=
  {| path := path sbin; memory := memory sbin; memory_size := memory_size sbin;
     extensions := extensions sbin; extension_index := extension_index sbin;
     linked_extensions := linked_extensions sbin;
     blocks := b; active_block := active_block sbin;
     buffers := buffers sbin; data := data sbin; code := code sbin;
     code_size := code_size sbin |}.

Definition set_buffers (sbin : sieve_binary) (b : list (list Z)) : sieve_binary :=
  {| path := path sbin; memory := memory sbin; memory_size := memory_size sbin;
     extensions := extensions sbin; extension_index := extension_index sbin;
     linked_extensions := linked_extensions sbin;
     blocks := blocks sbin; active_block := active_block sbin;
     buffers := b; data := data sbin; code := code sbin;
     code_size := code_size sbin |}.

Definition set_active_view (sbin : sieve_binary) (id : Z) (buf : option nat) (size : Z) : sieve_binary :=
  {| path := path sbin; memory := memory sbin; memory_size := memory_size sbin;
     extensions := extensions sbin; extension_index := extension_index sbin;
     linked_extensions := linked_extensions sbin;
     blocks := blocks sbin; active_block := id;
     buffers := buffers sbin; data := buf; code := buf;
     code_size := size |}.

Definition set_extensions (sbin : sieve_binary)
    (exts idx : list (option sieve_binary_extension_reg))
    (linked : list sieve_binary_extension_reg) : sieve_binary :=
  {| path := path sbin; memory := memory sbin; memory_size := memory_size sbin;
     extensions := exts; extension_index := idx;
     linked_extensions := linked;
     blocks := blocks sbin; active_block := active_block sbin;
     buffers := buffers sbin; data := data sbin; code := code sbin;
     code_size := code_size sbin |}.

(** The buffer a [buffer_t *] points to; NULL and dangling pointers are
    undefined. *)
Definition buffer_deref (sbin : sieve_binary) (p : option nat) : outcome (list Z) :=
  match p with
  | Some b => match buffers sbin !! b with
              | Some bytes => Done bytes
              | None => Undefined
              end
  | None => Undefined
  end.

(** [buffer_get_used_size] *)
Definition buffer_get_used_size (sbin : sieve_binary) (p : option nat) : outcome Z :=
  bytes ← buffer_deref sbin p; Done (Z.of_nat (length bytes)).

(** [buffer_append] *)
Definition buffer_append (sbin : sieve_binary) (p : option nat) (bytes : list Z)
  : outcome sieve_binary :=
  old ← buffer_deref sbin p;
  match p with
  | Some b => Done (set_buffers sbin (<[b := old ++ bytes]> (buffers sbin)))
  | None => Undefined
  end.

(** [array_idx_set]: the array grows to hold index [i]; new cells are
    zeroed (NULL). *)
Definition array_idx_set {A : Type} (a : list (option A)) (i : nat) (x : A)
  : list (option A) :=
  <[i := Some x]> (a ++ replicate (S i - length a) None).

(** *** Block management *)

Definition sieve_binary_get_code_size (sbin : sieve_binary) : outcome Z :=
  buffer_get_used_size sbin (data sbin).

Definition sieve_binary_block_get (sbin : sieve_binary) (id : Z)
  : option sieve_binary_block :=
  if Z.of_nat (length (blocks sbin)) <=? id then None
  else if id <? 0 then None
  else match blocks sbin !! Z.to_nat id with
       | Some b => b
       | None => None
       end.

Definition sieve_binary_block_count (sbin : sieve_binary) : Z :=
  Z.of_nat (length (blocks sbin)).

(** [sieve_binary_block_set_active]: returns the previous active id. *)
Definition sieve_binary_block_set_active (sbin : sieve_binary) (id : Z)
  : outcome (Z * sieve_binary) :=
  let old_id := active_block sbin in
  match sieve_binary_block_get sbin id with
  | Some block =>
      size ← buffer_get_used_size sbin (blk_buffer block);
      Done (old_id, set_active_view sbin id (blk_buffer block) size)
  | None => Done (old_id, sbin)
  end.

(** [buffer_create_dynamic]: a fresh empty buffer. *)
Definition buffer_create (sbin : sieve_binary) (bytes : list Z) : nat * sieve_binary :=
  (length (buffers sbin), set_buffers sbin (buffers sbin ++ [bytes])).

Definition sieve_binary_block_create (sbin : sieve_binary) : Z * sieve_binary :=
  let '(buf, sbin1) := buffer_create sbin [] in
  let block := {| blk_buffer := Some buf; blk_ext_index := 0; blk_ext_id := 0;
                  blk_offset := 0 |} in
  let id := Z.of_nat (length (blocks sbin1)) in
  (id, set_blocks sbin1 (blocks sbin1 ++ [Some block])).

Definition sieve_binary_block_create_id (sbin : sieve_binary) (id : Z)
  : sieve_binary_block * sieve_binary :=
  let block := {| blk_buffer := None; blk_ext_index := 0; blk_ext_id := 0;
                  blk_offset := 0 |} in
  (block, set_blocks sbin (array_idx_set (blocks sbin) (Z.to_nat id) block)).

Section BinaryCodec.

(** [sizeof(sieve_size_t)] in bytes.  [sieve_size_t] is declared in
    sieve-common.h (as [size_t]); its width is that of the platform. *)
Variable sizeof_sieve_size_t : Z.

Definition sieve_size_bits : Z := sizeof_sieve_size_t * 8.

(** A result of [sieve_size_t] arithmetic. *)
Definition to_sieve_size_t (x : Z) : Z := x mod 2 ^ sieve_size_bits.

(** *** Emission functions *)

Definition sieve_binary_emit_data (binary : sieve_binary) (bytes : list Z)
  : outcome (Z * sieve_binary) :=
  address ← buffer_get_used_size binary (data binary);
  binary1 ← buffer_append binary (data binary) bytes;
  Done (address, binary1).

Definition sieve_binary_emit_byte (binary : sieve_binary) (byte : Z)
  : outcome (Z * sieve_binary) :=
  sieve_binary_emit_data binary [unsigned_char byte].

(** The [while ( integer > 0 )] loop of [sieve_binary_emit_integer], on the
    local [buffer], [bufpos] and [integer]. *)
Fixpoint emit_integer_while (fuel : nat) (buffer : list Z) (bufpos integer : Z)
  : outcome (list Z * Z) :=
  if integer >? 0 then
    match fuel with
    | O => NoFuel
    | S fuel' =>
        buffer1 ← array_set buffer bufpos (Z.land integer 0x7F);
        emit_integer_while fuel' buffer1 (bufpos - 1) (Z.shiftr integer 7)
    end
  else Done (buffer, bufpos).

(** The [for ( i = bufpos; i < sizeof(buffer) - 1; i++ ) buffer[i] |= 0x80]
    loop; [n] counts the iterations left. *)
Fixpoint emit_integer_for (n : nat) (buffer : list Z) (i : Z) : outcome (list Z) :=
  match n with
  | O => Done buffer
  | S n' =>
      c ← array_at buffer i;
      buffer1 ← array_set buffer i (unsigned_char (Z.lor c 0x80));
      emit_integer_for n' buffer1 (i + 1)
  end.

(** [buffer + bufpos], [size] bytes *)
Definition array_slice (buffer : list Z) (bufpos size : Z) : outcome (list Z) :=
  if (0 <=? bufpos) && (0 <=? size) && (bufpos + size <=? Z.of_nat (length buffer))
  then Done (take (Z.to_nat size) (drop (Z.to_nat bufpos) buffer))
  else Undefined.

(** [sieve_binary_emit_integer].  The local [char buffer[sizeof(sieve_size_t)
    + 1]] is not initialised; every cell the function reads it has written
    before, so the model starts it as zeroes. *)
Definition sieve_binary_emit_integer (binary : sieve_binary) (integer : Z)
  : outcome (Z * sieve_binary) :=
  let sizeof_buffer := sizeof_sieve_size_t + 1 in
  let buffer := replicate (Z.to_nat sizeof_buffer) 0 in
  let bufpos := sizeof_buffer - 1 in
  let integer := to_sieve_size_t integer in
  buffer ← array_set buffer bufpos (Z.land integer 0x7F);
  let bufpos := bufpos - 1 in
  let integer := Z.shiftr integer 7 in
  '(buffer, bufpos) ← emit_integer_while (Z.to_nat sieve_size_bits) buffer bufpos integer;
  let bufpos := bufpos + 1 in
  buffer ← (if to_sieve_size_t (sizeof_buffer - bufpos) >? 1
            then emit_integer_for (Z.to_nat (sizeof_buffer - 1 - bufpos)) buffer bufpos
            else Done buffer);
  bytes ← array_slice buffer bufpos (to_sieve_size_t (sizeof_buffer - bufpos));
  sieve_binary_emit_data binary bytes.

(** *** Code retrieval *)

(** [ADDR_CODE_AT]: the cell of [binary->code] at the address *)
Definition ADDR_CODE_AT (binary : sieve_binary) (address : Z) : outcome Z :=
  bytes ← buffer_deref binary (code binary);
  array_at bytes address.

Definition ADDR_DATA_AT (binary : sieve_binary) (address : Z) : outcome Z :=
  c ← ADDR_CODE_AT binary address; Done (unsigned_char c).

(** [ADDR_BYTES_LEFT]: code_size minus the address, in [size_t]
    arithmetic *)
Definition ADDR_BYTES_LEFT (binary : sieve_binary) (address : Z) : Z :=
  to_sieve_size_t (code_size binary - address).

(** The [for ( i = 0; i < 4; i++ )] loop of [sieve_binary_read_offset]; [offs]
    is a [uint32_t]. *)
Fixpoint read_offset_for (n : nat) (binary : sieve_binary) (address offs : Z)
  : outcome (Z * Z) :=
  match n with
  | O => Done (address, offs)
  | S n' =>
      c ← ADDR_DATA_AT binary address;
      read_offset_for n' binary (to_sieve_size_t (address + 1))
        ((Z.shiftl offs 8 + c) mod 2 ^ 32)
  end.

(** [(int) offs] for a [uint32_t] *)
Definition int_of_uint32 (offs : Z) : Z :=
  if offs <? 2 ^ 31 then offs else offs - 2 ^ 32.

(** [sieve_binary_read_offset]: the result, the address and the offset
    (unchanged, here 0, when the result is FALSE). *)
Definition sieve_binary_read_offset (binary : sieve_binary) (address : Z)
  : outcome (bool * Z * Z) :=
  if ADDR_BYTES_LEFT binary address >=? 4 then
    '(address1, offs) ← read_offset_for 4 binary address 0;
    Done (TRUE, address1, int_of_uint32 offs)
  else Done (FALSE, address, 0).

(** The [while] loop of [sieve_binary_read_integer].  Every iteration that
    goes on lowers [bits] by 7 and needs [bits > 0], so [fuel] iterations
    are enough when [fuel] is the bit width. *)
Fixpoint read_integer_while (fuel : nat) (binary : sieve_binary)
    (address integer bits : Z) : outcome (bool * Z * Z) :=
  d ← ADDR_DATA_AT binary address;
  if Z.land d 0x80 >? 0 then
    if (ADDR_BYTES_LEFT binary address >? 0) && (bits >? 0) then
      match fuel with
      | O => NoFuel
      | S fuel' =>
          let integer := Z.lor integer (Z.land d 0x7F) in
          let address := to_sieve_size_t (address + 1) in
          let integer := to_sieve_size_t (Z.shiftl integer 7) in
          let bits := bits - 7 in
          read_integer_while fuel' binary address integer bits
      end
    else Done (FALSE, address, integer)
  else
    let integer := Z.lor integer (Z.land d 0x7F) in
    Done (TRUE, to_sieve_size_t (address + 1), integer).

(** [sieve_binary_read_integer]: the result, the address and the integer. *)
Definition sieve_binary_read_integer (binary : sieve_binary) (address : Z)
  : outcome (bool * Z * Z) :=
  let bits := sieve_size_bits in
  let integer := 0 in
  if ADDR_BYTES_LEFT binary address =? 0 then Done (FALSE, address, integer)
  else read_integer_while (Z.to_nat sieve_size_bits) binary address integer bits.

(** [sieve_binary_read_string]; [t_str_const] copies the string with
    [str_append_n]. *)
Definition sieve_binary_read_string (binary : sieve_binary) (address : Z)
  : outcome (bool * Z * string) :=
  '(ok, address, strlen) ← sieve_binary_read_integer binary address;
  if negb ok then Done (FALSE, address, EmptyString)
  else if strlen >? ADDR_BYTES_LEFT binary address then Done (FALSE, address, EmptyString)
  else
    bytes ← buffer_deref binary (code binary);
    str ← (if (0 <=? address) && (address <=? Z.of_nat (length bytes))
           then Done (str_append_n (string_of_bytes (drop (Z.to_nat address) bytes)) strlen)
           else Undefined);
    let address := to_sieve_size_t (address + strlen) in
    c ← ADDR_CODE_AT binary address;
    if negb (c =? 0) then Done (FALSE, address, str)
    else Done (TRUE, to_sieve_size_t (address + 1), str).

End BinaryCodec.

(** *** Loading a binary from memory *)

Section BinaryLoad.

Variable sizeof_sieve_size_t : Z.

(** Byte order of the host: the headers are C structs read in place. *)
Variable big_endian : bool.

(** The extension registry (sieve-extensions.c): the id of the extension
    of a given name, negative when there is none, and whether an id names
    an extension. *)
Variable sieve_extension_get_by_name : string -> Z.
Variable sieve_extension_get_by_id : Z -> bool.

(** Modelled from the spec: [SBIN_SYSBLOCK_EXTENSIONS] and
    [SBIN_SYSBLOCK_MAIN_PROGRAM] are declared in sieve-binary.h; block 0 is
    reserved for the extension-link table and block 1 is the main
    program. *)
Definition SBIN_SYSBLOCK_EXTENSIONS : Z := 0.
Definition SBIN_SYSBLOCK_MAIN_PROGRAM : Z := 1.

(** An unsigned integer of [n] bytes stored at [ptr] in host byte order. *)
Fixpoint uint_of_bytes_be (bytes : list Z) (acc : Z) : Z :=
  match bytes with
  | [] => acc
  | c :: bytes' => uint_of_bytes_be bytes' (acc * 256 + unsigned_char c)
  end.

Definition load_uint (mem : list Z) (ptr : Z) (n : nat) : outcome Z :=
  if (0 <=? ptr) && (ptr + Z.of_nat n <=? Z.of_nat (length mem)) then
    let bytes := take n (drop (Z.to_nat ptr) mem) in
    Done (uint_of_bytes_be (if big_endian then bytes else reverse bytes) 0)
  else Undefined.

(** [struct sieve_binary_header], [struct sieve_binary_block_index] and
    [struct sieve_binary_block_header] *)
Record sieve_binary_header : Type := {
  hdr_magic : Z;
  hdr_version_major : Z;
  hdr_version_minor : Z;
  hdr_blocks : Z
}.

Record sieve_binary_block_index : Type := {
  idx_id : Z;
  idx_size : Z;
  idx_offset : Z;
  idx_ext_id : Z
}.

Record sieve_binary_block_header : Type := {
  bh_id : Z;
  bh_size : Z
}.

Definition sizeof_sieve_binary_header : Z := 12.
Definition sizeof_sieve_binary_block_index : Z := 16.
Definition sizeof_sieve_binary_block_header : Z := 8.

Definition read_sieve_binary_header (mem : list Z) (ptr : Z)
  : outcome sieve_binary_header :=
  magic ← load_uint mem ptr 4;
  major ← load_uint mem (ptr + 4) 2;
  minor ← load_uint mem (ptr + 6) 2;
  blks ← load_uint mem (ptr + 8) 4;
  Done {| hdr_magic := magic; hdr_version_major := major;
          hdr_version_minor := minor; hdr_blocks := blks |}.

Definition read_sieve_binary_block_index (mem : list Z) (ptr : Z)
  : outcome sieve_binary_block_index :=
  id ← load_uint mem ptr 4;
  size ← load_uint mem (ptr + 4) 4;
  offset ← load_uint mem (ptr + 8) 4;
  ext_id ← load_uint mem (ptr + 12) 4;
  Done {| idx_id := id; idx_size := size; idx_offset := offset;
          idx_ext_id := ext_id |}.

Definition read_sieve_binary_block_header (mem : list Z) (ptr : Z)
  : outcome sieve_binary_block_header :=
  id ← load_uint mem ptr 4;
  size ← load_uint mem (ptr + 4) 4;
  Done {| bh_id := id; bh_size := size |}.

(** [load_aligned_data]: the pointer (an offset into [sbin->memory]) or
    NULL, and the offset afterwards. *)
Definition load_aligned_data (sbin : sieve_binary) (offset size : Z)
  : option Z * Z :=
  let offset := SIEVE_BINARY_ALIGN offset in
  if offset + size <=? memory_size sbin then (Some offset, offset + size)
  else (None, offset).

(** [load_aligned_buffer]: [buffer_create_const_data] makes a buffer of the
    [size] bytes at the pointer. *)
Definition load_aligned_buffer (sbin : sieve_binary) (offset size : Z)
  : outcome (option nat * Z * sieve_binary) :=
  let offset := SIEVE_BINARY_ALIGN offset in
  if offset + size <=? memory_size sbin then
    bytes ← array_slice (memory sbin) offset size;
    let '(buf, sbin1) := buffer_create sbin bytes in
    Done (Some buf, offset + size, sbin1)
  else Done (None, offset, sbin).

Definition set_block (sbin : sieve_binary) (id : Z) (block : sieve_binary_block)
  : sieve_binary :=
  set_blocks sbin (<[Z.to_nat id := Some block]> (blocks sbin)).

(** [_load_block]: the block or NULL, the offset, the binary, the log. *)
Definition _load_block (sbin : sieve_binary) (log : list message) (offset id : Z)
  : outcome (option sieve_binary_block * Z * sieve_binary * list message) :=
  let '(header, offset) := load_aligned_data sbin offset sizeof_sieve_binary_block_header in
  match header with
  | None =>
      Done (None, offset, sbin,
            log ++ [I_error "sieve: block %d of loaded binary %s is truncated"
                      [ArgZ id; ArgS (path sbin)]])
  | Some ptr =>
      header ← read_sieve_binary_block_header (memory sbin) ptr;
      if negb (bh_id header =? id) then
        Done (None, offset, sbin,
              log ++ [I_error "sieve: block %d of loaded binary %s has unexpected id"
                        [ArgZ id; ArgS (path sbin)]])
      else
        match sieve_binary_block_get sbin id with
        | None =>
            Done (None, offset, sbin,
                  log ++ [I_error "sieve: !!BUG!!: block %d missing in index (impossible) of binary %s"
                            [ArgZ id; ArgS (path sbin)]])
        | Some block =>
            '(buf, offset, sbin1) ← load_aligned_buffer sbin offset (bh_size header);
            let block1 := {| blk_buffer := buf; blk_ext_index := blk_ext_index block;
                             blk_ext_id := blk_ext_id block;
                             blk_offset := blk_offset block |} in
            let sbin2 := set_block sbin1 id block1 in
            match buf with
            | None =>
                Done (None, offset, sbin2,
                      log ++ [I_error "sieve: block %d of loaded binary %s has invalid size %d"
                                [ArgZ id; ArgS (path sbin); ArgZ (bh_size header)]])
            | Some _ => Done (Some block1, offset, sbin2, log)
            end
        end
  end.

(** [_load_block_index_record] *)
Definition _load_block_index_record (sbin : sieve_binary) (log : list message)
    (offset id : Z) : outcome (bool * Z * sieve_binary * list message) :=
  let '(record, offset) := load_aligned_data sbin offset sizeof_sieve_binary_block_index in
  match record with
  | None =>
      Done (FALSE, offset, sbin,
            log ++ [I_error "sieve: failed to read index record for block %d in binary %s"
                      [ArgZ id; ArgS (path sbin)]])
  | Some ptr =>
      record ← read_sieve_binary_block_index (memory sbin) ptr;
      if negb (idx_id record =? id) then
        Done (FALSE, offset, sbin,
              log ++ [I_error "sieve: block index record %d of loaded binary %s has unexpected id %d"
                        [ArgZ id; ArgS (path sbin); ArgZ (idx_id record)]])
      else
        let '(block, sbin1) := sieve_binary_block_create_id sbin id in
        let block1 := {| blk_buffer := blk_buffer block;
                         blk_ext_index := idx_ext_id record;
                         blk_ext_id := blk_ext_id block;
                         blk_offset := idx_offset record |} in
        Done (TRUE, offset, set_block sbin1 id block1, log)
  end.

(** *** Extension handling *)

Definition sieve_binary_extension_get_reg (sbin : sieve_binary) (ext_id : Z)
  : option sieve_binary_extension_reg :=
  if (0 <=? ext_id) && (ext_id <? Z.of_nat (length (extension_index sbin))) then
    match extension_index sbin !! Z.to_nat ext_id with
    | Some ereg => ereg
    | None => None
    end
  else None.

Definition sieve_binary_extension_create_reg (sbin : sieve_binary) (ext_id : Z)
  : sieve_binary_extension_reg * sieve_binary :=
  let index := Z.of_nat (length (extensions sbin)) in
  let ereg := {| reg_index := index; reg_ext_id := ext_id; reg_block_id := 0 |} in
  (ereg,
   set_extensions sbin
     (array_idx_set (extensions sbin) (Z.to_nat index) ereg)
     (array_idx_set (extension_index sbin) (Z.to_nat ext_id) ereg)
     (linked_extensions sbin)).

Definition sieve_binary_extension_get_index (sbin : sieve_binary) (ext_id : Z) : Z :=
  match sieve_binary_extension_get_reg sbin ext_id with
  | Some ereg => reg_index ereg
  | None => -1
  end.

Definition sieve_binary_extension_link (sbin : sieve_binary) (ext_id : Z)
  : Z * sieve_binary :=
  if sieve_extension_get_by_id ext_id
     && (sieve_binary_extension_get_index sbin ext_id =? -1) then
    let '(ereg, sbin1) := sieve_binary_extension_create_reg sbin ext_id in
    (reg_index ereg,
     set_extensions sbin1 (extensions sbin1) (extension_index sbin1)
       (linked_extensions sbin1 ++ [ereg]))
  else (-1, sbin).

(** The [for] loop of [_sieve_binary_load_extensions]; [i] is an [unsigned
    int].  A round that goes on has read a string, which moves [offset]
    forward, so [fuel] rounds are enough when [fuel] exceeds the size of
    the block. *)
Fixpoint load_extensions_for (fuel : nat) (sbin : sieve_binary) (log : list message)
    (offset count i : Z) (result : bool)
  : outcome (bool * sieve_binary * list message) :=
  if result && (i <? count) then
    match fuel with
    | O => NoFuel
    | S fuel' =>
        '(ok, offset, extension) ← sieve_binary_read_string sizeof_sieve_size_t sbin offset;
        if (ok : bool) then
          let log := log ++ [Printf "EXTENSION: %s\n" [ArgS extension]] in
          let ext_id := sieve_extension_get_by_name extension in
          if ext_id <? 0 then
            load_extensions_for fuel' sbin
              (log ++ [I_error "sieve: loaded binary %s requires unknown extension '%s'"
                         [ArgS (path sbin); ArgS extension]])
              offset count ((i + 1) mod 2 ^ 32) FALSE
          else
            let '(_, sbin1) := sieve_binary_extension_link sbin ext_id in
            load_extensions_for fuel' sbin1 log offset count ((i + 1) mod 2 ^ 32) result
        else
          load_extensions_for fuel' sbin log offset count ((i + 1) mod 2 ^ 32) FALSE
    end
  else Done (result, sbin, log).

(** [_sieve_binary_load_extensions] *)
Definition _sieve_binary_load_extensions (sbin : sieve_binary) (log : list message)
  : outcome (bool * sieve_binary * list message) :=
  '(_, sbin) ← sieve_binary_block_set_active sbin SBIN_SYSBLOCK_EXTENSIONS;
  '(ok, offset, count) ← sieve_binary_read_integer sizeof_sieve_size_t sbin 0;
  if negb ok then Done (FALSE, sbin, log)
  else
    load_extensions_for (S (Z.to_nat (code_size sbin))) sbin log offset count 0 TRUE.

(** The loop over the block index of [_sieve_binary_load]; [n] rounds are
    left. *)
Fixpoint load_index_for (n : nat) (sbin : sieve_binary) (log : list message)
    (offset i : Z) : outcome (bool * Z * sieve_binary * list message) :=
  match n with
  | O => Done (TRUE, offset, sbin, log)
  | S n' =>
      '(ok, offset, sbin, log) ← _load_block_index_record sbin log offset i;
      if negb ok then
        Done (FALSE, offset, sbin,
              log ++ [I_error "sieve: block index record %d of loaded binary %s is corrupt"
                        [ArgZ i; ArgS (path sbin)]])
      else load_index_for n' sbin log offset (i + 1)
  end.

(** The loop over the blocks after block 0. *)
Fixpoint load_blocks_for (n : nat) (sbin : sieve_binary) (log : list message)
    (offset i : Z) : outcome (bool * sieve_binary * list message) :=
  match n with
  | O => Done (TRUE, sbin, log)
  | S n' =>
      '(block, offset, sbin, log) ← _load_block sbin log offset i;
      match block with
      | None =>
          Done (FALSE, sbin,
                log ++ [I_error "sieve: block %d of loaded binary %s is corrupt"
                          [ArgZ i; ArgS (path sbin)]])
      | Some _ => load_blocks_for n' sbin log offset (i + 1)
      end
  end.

(** [_sieve_binary_load]: the result, the binary and the log afterwards. *)
Definition _sieve_binary_load (sbin : sieve_binary) (log : list message)
  : outcome (bool * sieve_binary * list message) :=
  let offset := 0 in
  let '(header, offset) := load_aligned_data sbin offset sizeof_sieve_binary_header in
  match header with
  | None =>
      Done (FALSE, sbin,
            log ++ [I_error "sieve: loaded binary %s is not even large enough to contain a header."
                      [ArgS (path sbin)]])
  | Some ptr =>
      header ← read_sieve_binary_header (memory sbin) ptr;
      if negb (hdr_magic header =? SIEVE_BINARY_MAGIC) then
        if negb (hdr_magic header =? SIEVE_BINARY_MAGIC_OTHER_ENDIAN) then
          Done (FALSE, sbin,
                log ++ [I_error "sieve: loaded binary %s has corrupted header %08x"
                          [ArgS (path sbin); ArgZ (hdr_magic header)]])
        else Done (FALSE, sbin, log)
      else if negb (hdr_version_major header =? SIEVE_BINARY_VERSION_MAJOR)
              || negb (hdr_version_minor header =? SIEVE_BINARY_VERSION_MINOR) then
        Done (FALSE, sbin, log)
      else if hdr_blocks header =? 0 then
        Done (FALSE, sbin,
              log ++ [I_error "sieve: loaded binary %s contains no blocks"
                        [ArgS (path sbin)]])
      else
        let log := log ++ [Printf "BLOCKS: %d\n" [ArgZ (hdr_blocks header)]] in
        '(ok, offset, sbin, log) ←
          load_index_for (Z.to_nat (hdr_blocks header)) sbin log offset 0;
        if negb ok then Done (FALSE, sbin, log)
        else
          '(exts, offset, sbin, log) ← _load_block sbin log offset 0;
          match exts with
          | None => Done (FALSE, sbin, log)
          | Some _ =>
              '(ok, sbin, log) ← _sieve_binary_load_extensions sbin log;
              if negb ok then
                Done (FALSE, sbin,
                      log ++ [I_error "sieve: extension block of loaded binary %s is corrupt"
                                [ArgS (path sbin)]])
              else
                load_blocks_for (Z.to_nat (hdr_blocks header - 1)) sbin log offset 1
          end
  end.

End BinaryLoad.

(* ----------------------------------------------------------------- *)
(** ** sieve-interpreter.c: loops and jumps *)
(* ----------------------------------------------------------------- *)

(** [struct sieve_interpreter_loop]; [lp_ext_def] and [lp_pool] are
    pointers, kept as the identity of the object they point to. *)
Record sieve_interpreter_loop : Type := {
  lp_level : Z;
  lp_begin : Z;
  lp_end : Z;
  lp_ext_def : Z;
  lp_pool : nat
}.

(** [struct sieve_interpreter], the fields the loop and jump code uses.
    [pc] is [runenv.pc]; [sblock] is [runenv.sblock], the block being run,
    seen through the code view of the binary; [loop_stack] is [None] while
    the array is not created; [pools] are the loop pools alive and
    [next_pool] the next pool [pool_alloconly_create] hands out.  The
    calls to the runtime trace are left out: they write to the trace
    stream only. *)
Record sieve_interpreter : Type := {
  pc : Z;
  interrupted : bool;
  test_result : bool;
  loop_stack : option (list sieve_interpreter_loop);
  loop_limit : Z;
  parent_loop_level : Z;
  sblock : sieve_binary;
  pools : list nat;
  next_pool : nat
}.

Definition set_pc (interp : sieve_interpreter) (v : Z) : sieve_interpreter :=
  {| pc := v; interrupted := interrupted interp; test_result := test_result interp;
     loop_stack := loop_stack interp; loop_limit := loop_limit interp;
     parent_loop_level := parent_loop_level interp; sblock := sblock interp;
     pools := pools interp; next_pool := next_pool interp |}.

Definition set_loops (interp : sieve_interpreter)
    (stack : option (list sieve_interpreter_loop)) (limit : Z)
    (live : list nat) (next : nat) : sieve_interpreter :=
  {| pc := pc interp; interrupted := interrupted interp;
     test_result := test_result interp;
     loop_stack := stack; loop_limit := limit;
     parent_loop_level := parent_loop_level interp; sblock := sblock interp;
     pools := live; next_pool := next |}.

Section Interpreter.

Variable sizeof_sieve_size_t : Z.

(** [enum sieve_execution_exitcode] (sieve-types.h) as the integers the
    functions return. *)
Variable SIEVE_EXEC_OK : Z.
Variable SIEVE_EXEC_FAILURE : Z.
Variable SIEVE_EXEC_BIN_CORRUPT : Z.

(** [SIEVE_MAX_LOOP_DEPTH] (sieve-limits.h) *)
Variable SIEVE_MAX_LOOP_DEPTH : Z.

(** Modelled from the spec: [sieve_binary_block_get_size] is declared in
    sieve-binary.h; it is the size of the block, the bound the reading
    functions check an address against. *)
Definition sieve_binary_block_get_size (sblock : sieve_binary) : Z :=
  code_size sblock.

(** [array_count(&interp->loop_stack)] and the array itself; an array that
    is not created has no element. *)
Definition loops_of (interp : sieve_interpreter) : list sieve_interpreter_loop :=
  match loop_stack interp with
  | Some loops => loops
  | None => []
  end.

Definition array_is_created (interp : sieve_interpreter) : bool :=
  match loop_stack interp with
  | Some _ => true
  | None => false
  end.

(** [pool_unref] of a loop pool: the pool has one reference and is freed. *)
Definition pool_unref (live : list nat) (p : nat) : list nat :=
  filter (fun q => q ≠ p) live.

(** [sieve_interpreter_loop_start]: the exit code, the new loop (its index
    in the stack) and the interpreter. *)
Definition sieve_interpreter_loop_start (interp : sieve_interpreter)
    (loop_end ext_def : Z) : outcome (Z * option nat * sieve_interpreter) :=
  _ ← i_assert (loop_end >? pc interp);
  if loop_end >? sieve_binary_block_get_size (sblock interp) then
    Done (SIEVE_EXEC_BIN_CORRUPT, None, interp)
  else
    let loops := loops_of interp in
    let interp := set_loops interp (Some loops) (loop_limit interp)
                    (pools interp) (next_pool interp) in
    if (parent_loop_level interp + Z.of_nat (length loops)) mod 2 ^ 32
       >=? SIEVE_MAX_LOOP_DEPTH then
      Done (SIEVE_EXEC_FAILURE, None, interp)
    else
      let loop := {| lp_level := Z.of_nat (length loops);
                     lp_begin := pc interp;
                     lp_end := loop_end;
                     lp_ext_def := ext_def;
                     lp_pool := next_pool interp |} in
      Done (SIEVE_EXEC_OK, Some (length loops),
            set_loops interp (Some (loops ++ [loop])) loop_end
              (pools interp ++ [next_pool interp]) (S (next_pool interp))).

(** [sieve_interpreter_loop_next]; [loop] points into the loop stack and
    is given as the index it points to. *)
Definition sieve_interpreter_loop_next (interp : sieve_interpreter)
    (loop : nat) (loop_begin : Z) : outcome (Z * sieve_interpreter) :=
  l ← array_at (loops_of interp) (Z.of_nat loop);
  if negb (lp_begin l =? loop_begin) then Done (SIEVE_EXEC_BIN_CORRUPT, interp)
  else
    _ ← i_assert (array_is_created interp);
    _ ← i_assert (bool_decide (length (loops_of interp) = S loop));
    Done (SIEVE_EXEC_OK, set_pc interp loop_begin).

(** The [do ... while ( i > 0 && &loops[i] != loop )] loop of
    [sieve_interpreter_loop_break]; the argument counts down with [i] and
    the result is the final [i] with the pools still alive. *)
Fixpoint loop_break_do (i : nat) (loops : list sieve_interpreter_loop)
    (loop : nat) (live : list nat) : outcome (nat * list nat) :=
  match i with
  | O => Undefined
  | S i' =>
      l ← array_at loops (Z.of_nat i');
      let live := pool_unref live (lp_pool l) in
      if bool_decide (0 < i')%nat && bool_decide (i' ≠ loop)
      then loop_break_do i' loops loop live
      else Done (i', live)
  end.

(** [sieve_interpreter_loop_break] *)
Definition sieve_interpreter_loop_break (interp : sieve_interpreter) (loop : nat)
  : outcome (Z * sieve_interpreter) :=
  l ← array_at (loops_of interp) (Z.of_nat loop);
  let loop_end := lp_end l in
  _ ← i_assert (array_is_created interp);
  let loops := loops_of interp in
  let count := length loops in
  _ ← i_assert (bool_decide (0 < count)%nat);
  '(i, live) ← loop_break_do count loops loop (pools interp);
  _ ← i_assert (bool_decide (i = loop));
  limit ← (if bool_decide (0 < i)%nat
           then li ← array_at loops (Z.of_nat i); Done (lp_end li)
           else Done 0);
  let interp := set_loops interp (Some (take i loops)) limit live (next_pool interp) in
  Done (SIEVE_EXEC_OK, set_pc interp loop_end).

(** The [for ( i = count; i > 0; i-- )] loop of
    [sieve_interpreter_loop_break_out]: the [i] at which it stops. *)
Fixpoint loop_break_out_for (i : nat) (loops : list sieve_interpreter_loop)
    (target : Z) : outcome nat :=
  match i with
  | O => Done O
  | S i' =>
      l ← array_at loops (Z.of_nat i');
      if lp_end l >? target then Done i
      else loop_break_out_for i' loops target
  end.

(** [sieve_interpreter_loop_break_out] *)
Definition sieve_interpreter_loop_break_out (interp : sieve_interpreter) (target : Z)
  : outcome (Z * sieve_interpreter) :=
  if negb (array_is_created interp) then Done (SIEVE_EXEC_OK, interp)
  else
    let loops := loops_of interp in
    let count := length loops in
    i ← loop_break_out_for count loops target;
    if bool_decide (i = count) then Done (SIEVE_EXEC_OK, interp)
    else sieve_interpreter_loop_break interp i.

(** [sieve_interpreter_program_jump].  The type [sieve_offset_t] of
    [jmp_offset] is declared in sieve-common.h; the offset is the [int]
    that [sieve_binary_read_offset] gives, four bytes, big-endian, two's
    complement, and the sum [jmp_start + jmp_offset] is taken in
    [sieve_size_t]. *)
Definition sieve_interpreter_program_jump (interp : sieve_interpreter)
    (jump break_loops : bool) : outcome (Z * sieve_interpreter) :=
  let jmp_start := pc interp in
  let loop_limit := if break_loops then 0 else loop_limit interp in
  '(ok, address, jmp_offset) ←
    sieve_binary_read_offset sizeof_sieve_size_t (sblock interp) (pc interp);
  let interp := set_pc interp address in
  if negb ok then Done (SIEVE_EXEC_BIN_CORRUPT, interp)
  else
    let jmp_target := to_sieve_size_t sizeof_sieve_size_t (jmp_start + jmp_offset) in
    if (jmp_target <=? sieve_binary_block_get_size (sblock interp))
       && ((loop_limit =? 0) || (jmp_target <? loop_limit))
       && (to_sieve_size_t sizeof_sieve_size_t (jmp_start + jmp_offset) >? 0)
    then
      if jump then
        if break_loops then
          '(ret, interp1) ← sieve_interpreter_loop_break_out interp jmp_target;
          if ret <=? 0 then Done (ret, interp1)
          else Done (SIEVE_EXEC_OK, set_pc interp1 jmp_target)
        else Done (SIEVE_EXEC_OK, set_pc interp jmp_target)
      else Done (SIEVE_EXEC_OK, interp)
    else Done (SIEVE_EXEC_BIN_CORRUPT, interp).

End Interpreter.

(* ----------------------------------------------------------------- *)
(** ** sieve-actions.c: the store action and duplicate tracking *)
(* ----------------------------------------------------------------- *)

(** [strcmp]: the difference of the first two characters that differ, the
    end of a string counting as NUL. *)
Fixpoint strcmp (s1 s2 : string) : Z :=
  match s1, s2 with
  | EmptyString, EmptyString => 0
  | EmptyString, String c2 _ => 0 - char_code c2
  | String c1 _, EmptyString => char_code c1 - 0
  | String c1 s1', String c2 s2' =>
      if char_code c1 =? char_code c2 then strcmp s1' s2'
      else char_code c1 - char_code c2
  end.

(** [tolower] in the C locale *)
Definition tolower (c : Z) : Z :=
  if (65 <=? c) && (c <=? 90) then c + 32 else c.

(** [strcasecmp] *)
Fixpoint strcasecmp (s1 s2 : string) : Z :=
  match s1, s2 with
  | EmptyString, EmptyString => 0
  | EmptyString, String c2 _ => 0 - tolower (char_code c2)
  | String c1 _, EmptyString => tolower (char_code c1) - 0
  | String c1 s1', String c2 s2' =>
      if tolower (char_code c1) =? tolower (char_code c2) then strcasecmp s1' s2'
      else tolower (char_code c1) - tolower (char_code c2)
  end.

(** [enum mailbox_flags] of the mail storage library, the flags the store
    action uses; a flag word is the list of the flags set. *)
Inductive mailbox_flag : Type :=
| MAILBOX_FLAG_KEEP_RECENT
| MAILBOX_FLAG_SAVEONLY
| MAILBOX_FLAG_POST_SESSION
| MAILBOX_FLAG_IGNORE_ACLS.

(** Calls that leave the Sieve library: the mail storage API, the result
    log and the callbacks of the script environment.  Objects of the mail
    storage library are handles, 0 being NULL. *)
Inductive call : Type :=
| mail_namespace_find (namespaces : Z) (folder : string)
| mailbox_alloc (ns : Z) (folder : string) (flags : list mailbox_flag)
| mailbox_open (box : Z)
| mailbox_get_storage (box : Z)
| mail_storage_get_last_error (storage : Z)
| mailbox_close (box : Z)
| mailbox_create (box : Z)
| mailbox_list_set_subscribed (ns : Z) (folder : string)
| mailbox_sync (box : Z)
| mailbox_backends_equal (box1 box2 : Z)
| mailbox_keywords_create (box : Z) (keywords : list string)
| mail_update_keywords (mail : Z) (keywords : Z)
| mailbox_keywords_unref (box : Z) (keywords : Z)
| mail_update_flags (mail : Z) (flags : Z)
| mailbox_transaction_begin (box : Z)
| mail_alloc (trans : Z)
| mailbox_save_alloc (trans : Z)
| mailbox_save_set_dest_mail (save_ctx : Z) (mail : Z)
| mailbox_save_set_flags (save_ctx : Z) (flags : Z) (keywords : Z)
| mailbox_copy (save_ctx : Z) (mail : Z)
| mail_free (mail : Z)
| mailbox_transaction_commit (trans : Z)
| mailbox_transaction_rollback (trans : Z)
| sieve_result_log (fmt : string) (arg : string)
| sieve_result_error (fmt : string) (args : list string)
| duplicate_check (id : list Z) (id_size : Z) (user : string)
| duplicate_mark (id : list Z) (id_size : Z) (user : string) (time : Z).

(** What a call gives back: the integer or the handle it returns, and for
    the calls that have them the object, the string and the error code
    they leave in an out-parameter. *)
Record reply : Type := {
  r_val : Z;
  r_obj : Z;
  r_str : string;
  r_err : Z
}.

(** [struct sieve_exec_status] *)
Record sieve_exec_status : Type := {
  last_storage : Z;
  tried_default_save : bool;
  keep_original : bool;
  message_saved : bool
}.

(** The state outside the action: the calls made so far, in order, and the
    execution status the action environment points to. *)
Record world : Type := {
  calls : list call;
  exec_status : sieve_exec_status
}.

(** [struct sieve_script_env], the fields the actions read.  [namespaces]
    is a handle (0 for NULL), [default_mailbox] may be NULL, and the two
    callbacks are present or NULL. *)
Record sieve_script_env : Type := {
  namespaces : Z;
  default_mailbox : option string;
  username : string;
  mailbox_autocreate : bool;
  mailbox_autosubscribe : bool;
  has_duplicate_check : bool;
  has_duplicate_mark : bool
}.

(** [struct sieve_message_data]: the mail and the mailbox it is in. *)
Record sieve_message_data : Type := {
  msg_mail : Z;
  msg_mail_box : Z
}.

(** [struct sieve_action_exec_env] *)
Record sieve_action_exec_env : Type := {
  scriptenv : sieve_script_env;
  msgdata : sieve_message_data
}.

(** [struct act_store_context] *)
Record act_store_context : Type := {
  mailbox : string
}.

(** [struct sieve_action]: the context of a store action, or NULL. *)
Record sieve_action : Type := {
  context : option act_store_context
}.

(** [struct act_store_transaction]; [tr_keywords] is [None] while the array
    is not created and holds strings or NULL, [tr_folder] is [None] while indeterminate. *)
Record act_store_transaction : Type := {
  tr_ctx : act_store_context;
  tr_namespace : Z;
  tr_folder : option string;
  tr_box : Z;
  tr_flags : Z;
  tr_flags_altered : bool;
  tr_keywords : option (list (option string));
  tr_disabled : bool;
  tr_redundant : bool;
  tr_error : option string;
  tr_error_code : Z;
  tr_mail_trans : Z;
  tr_dest_mail : Z
}.

Section Actions.

(** The mail storage behind the calls: what a call returns after the calls
    made before it. *)
Variable respond : list call -> call -> reply.

(** [str_sanitize] of the Dovecot library *)
Variable str_sanitize : string -> Z -> string.

(** [MAIL_ERROR_NOTFOUND] of [enum mail_error], and the storage and the
    mailbox list a namespace points to. *)
Variable MAIL_ERROR_NOTFOUND : Z.
Variable ns_storage : Z -> Z.
Variable ns_list : Z -> Z.

(** Make a call: it is recorded, and answered by the storage. *)
Definition do_call (w : world) (c : call) : reply * world :=
  (respond (calls w) c, {| calls := calls w ++ [c]; exec_status := exec_status w |}).

Definition set_exec_status (w : world) (st : sieve_exec_status) : world :=
  {| calls := calls w; exec_status := st |}.

Definition set_last_storage (w : world) (storage : Z) : world :=
  set_exec_status w
    {| last_storage := storage;
       tried_default_save := tried_default_save (exec_status w);
       keep_original := keep_original (exec_status w);
       message_saved := message_saved (exec_status w) |}.

(** Modelled from the spec: the macro [SIEVE_SCRIPT_DEFAULT_MAILBOX] is
    defined in sieve-types.h; the default mailbox of the script
    environment is a string that defaults to INBOX. *)
Definition SIEVE_SCRIPT_DEFAULT_MAILBOX (senv : sieve_script_env) : string :=
  match default_mailbox senv with
  | Some m => m
  | None => "INBOX"%string
  end.

(** *** Equality *)

Definition act_store_equals (senv : sieve_script_env)
    (act1 act2 : option sieve_action) : bool :=
  let st_ctx1 := match act1 with None => None | Some a => context a end in
  let st_ctx2 := match act2 with None => None | Some a => context a end in
  match st_ctx1, st_ctx2 with
  | None, None => TRUE
  | _, _ =>
      let mailbox1 := match st_ctx1 with
                      | None => SIEVE_SCRIPT_DEFAULT_MAILBOX senv
                      | Some c => mailbox c
                      end in
      let mailbox2 := match st_ctx2 with
                      | None => SIEVE_SCRIPT_DEFAULT_MAILBOX senv
                      | Some c => mailbox c
                      end in
      if strcmp mailbox1 mailbox2 =? 0 then TRUE
      else (strcasecmp mailbox1 "INBOX" =? 0) && (strcasecmp mailbox2 "INBOX" =? 0)
  end.

(** *** Result verification *)

Definition act_store_check_duplicate (senv : sieve_script_env)
    (act act_other : option sieve_action) : Z :=
  if act_store_equals senv act act_other then 1 else 0.

(** *** Action implementation *)

(** [act_store_mailbox_open]: the mailbox or NULL, with the mailbox name,
    the namespace and the folder it leaves in its out-parameters. *)
Definition act_store_mailbox_open (aenv : sieve_action_exec_env) (w : world)
    (mailbox : string) : Z * string * Z * string * world :=
  let flags := [MAILBOX_FLAG_KEEP_RECENT; MAILBOX_FLAG_SAVEONLY;
                MAILBOX_FLAG_POST_SESSION] in
  let flags := if strcasecmp mailbox "INBOX" =? 0
               then flags ++ [MAILBOX_FLAG_IGNORE_ACLS] else flags in
  let folder := mailbox in
  let '(r, w) := do_call w (mail_namespace_find (namespaces (scriptenv aenv)) folder) in
  let ns := r_val r in
  let folder := r_str r in
  if ns =? 0 then (0, mailbox, ns, folder, set_last_storage w 0)
  else
    let inbox := "INBOX"%string in
    let '(stop, mailbox, ns, folder, flags, w) :=
      match folder with
      | EmptyString =>
          let flags := flags ++ [MAILBOX_FLAG_IGNORE_ACLS] in
          let '(r, w) := do_call w (mail_namespace_find (namespaces (scriptenv aenv)) inbox) in
          if r_val r =? 0 then (true, inbox, r_val r, r_str r, flags, set_last_storage w 0)
          else (false, inbox, r_val r, r_str r, flags,
                set_last_storage w (ns_storage (r_val r)))
      | _ => (false, mailbox, ns, folder, flags, w)
      end in
    if stop then (0, mailbox, ns, folder, w)
    else
      let '(r, w) := do_call w (mailbox_alloc (ns_list ns) folder flags) in
      let box := r_val r in
      let '(r, w) := do_call w (mailbox_open box) in
      if r_val r =? 0 then (box, mailbox, ns, folder, w)
      else
        let '(r, w) := do_call w (mailbox_get_storage box) in
        let storage := r_val r in
        let w := set_last_storage w storage in
        let '(r, w) := do_call w (mail_storage_get_last_error storage) in
        let error := r_err r in
        if negb (mailbox_autocreate (scriptenv aenv))
           || negb (error =? MAIL_ERROR_NOTFOUND) then
          let '(_, w) := do_call w (mailbox_close box) in
          (0, mailbox, ns, folder, w)
        else
          let '(r, w) := do_call w (mailbox_create box) in
          if r_val r <? 0 then
            let '(_, w) := do_call w (mail_storage_get_last_error storage) in
            let '(_, w) := do_call w (mailbox_close box) in
            (0, mailbox, ns, folder, w)
          else
            let w := if mailbox_autosubscribe (scriptenv aenv)
                     then snd (do_call w (mailbox_list_set_subscribed (ns_list ns) folder))
                     else w in
            let '(r, w) := do_call w (mailbox_open box) in
            let '(failed, w) :=
              if r_val r <? 0 then (true, w)
              else let '(r, w) := do_call w (mailbox_sync box) in (r_val r <? 0, w) in
            if failed then
              let '(_, w) := do_call w (mailbox_close box) in
              (0, mailbox, ns, folder, w)
            else (box, mailbox, ns, folder, w).

(** [sieve_act_store_get_storage_error] *)
Definition sieve_act_store_get_storage_error (w : world)
    (trans : act_store_transaction) : act_store_transaction * world :=
  let '(r, w) := do_call w (mail_storage_get_last_error (ns_storage (tr_namespace trans))) in
  ({| tr_ctx := tr_ctx trans; tr_namespace := tr_namespace trans;
      tr_folder := tr_folder trans; tr_box := tr_box trans;
      tr_flags := tr_flags trans; tr_flags_altered := tr_flags_altered trans;
      tr_keywords := tr_keywords trans; tr_disabled := tr_disabled trans;
      tr_redundant := tr_redundant trans;
      tr_error := Some (r_str r); tr_error_code := r_err r;
      tr_mail_trans := tr_mail_trans trans; tr_dest_mail := tr_dest_mail trans |},
   w).

(** [act_store_start]: the result and the transaction context it leaves in
    its out-parameter. *)
Definition act_store_start (action : sieve_action) (aenv : sieve_action_exec_env)
    (w : world) : bool * act_store_transaction * world :=
  let senv := scriptenv aenv in
  let ctx := match context action with
             | Some ctx => ctx
             | None => {| mailbox := SIEVE_SCRIPT_DEFAULT_MAILBOX senv |}
             end in
  let '(ctx, ns, box, folder, disabled, redundant, w) :=
    if negb (namespaces senv =? 0) then
      let '(box, mbox, ns, folder, w) := act_store_mailbox_open aenv w (mailbox ctx) in
      let ctx := {| mailbox := mbox |} in
      if negb (box =? 0) then
        let '(r, w) := do_call w (mailbox_backends_equal box (msg_mail_box (msgdata aenv))) in
        if negb (r_val r =? 0) then
          let '(_, w) := do_call w (mailbox_close box) in
          (ctx, 0, 0, Some folder, false, true, w)
        else (ctx, ns, box, Some folder, false, false, w)
      else (ctx, ns, box, Some folder, false, false, w)
    else (ctx, 0, 0, None, true, false, w) in
  let trans := {| tr_ctx := ctx; tr_namespace := ns; tr_folder := folder;
                  tr_box := box; tr_flags := 0; tr_flags_altered := false;
                  tr_keywords := None; tr_disabled := disabled;
                  tr_redundant := redundant; tr_error := None;
                  tr_error_code := 0; tr_mail_trans := 0; tr_dest_mail := 0 |} in
  let '(trans, w) :=
    if negb (ns =? 0) && (box =? 0)
    then sieve_act_store_get_storage_error w trans
    else (trans, w) in
  (negb (box =? 0) || (tr_error_code trans =? MAIL_ERROR_NOTFOUND)
   || disabled || redundant,
   trans, w).

(** The strings of a NULL-terminated array. *)
Fixpoint strings_until_null (a : list (option string)) : list string :=
  match a with
  | Some k :: a' => k :: strings_until_null a'
  | _ => []
  end.

(** [act_store_keywords_create]: the keywords object or NULL, and the
    array, to which a NULL is appended. *)
Definition act_store_keywords_create (w : world)
    (keywords : option (list (option string))) (box : Z)
  : Z * option (list (option string)) * world :=
  match keywords with
  | Some (k :: ks) =>
      let kwds := (k :: ks) ++ [None] in
      let '(r, w) := do_call w (mailbox_keywords_create box (strings_until_null kwds)) in
      if r_val r <? 0 then
        let '(_, w) := do_call w (sieve_result_error "invalid keywords set for stored message" []) in
        (0, Some kwds, w)
      else (r_obj r, Some kwds, w)
  | _ => (0, keywords, w)
  end.

Definition set_trans_keywords (trans : act_store_transaction)
    (keywords : option (list (option string))) : act_store_transaction :=
  {| tr_ctx := tr_ctx trans; tr_namespace := tr_namespace trans;
     tr_folder := tr_folder trans; tr_box := tr_box trans;
     tr_flags := tr_flags trans; tr_flags_altered := tr_flags_altered trans;
     tr_keywords := keywords; tr_disabled := tr_disabled trans;
     tr_redundant := tr_redundant trans;
     tr_error := tr_error trans; tr_error_code := tr_error_code trans;
     tr_mail_trans := tr_mail_trans trans; tr_dest_mail := tr_dest_mail trans |}.

Definition set_trans_box (trans : act_store_transaction) (box : Z)
  : act_store_transaction :=
  {| tr_ctx := tr_ctx trans; tr_namespace := tr_namespace trans;
     tr_folder := tr_folder trans; tr_box := box;
     tr_flags := tr_flags trans; tr_flags_altered := tr_flags_altered trans;
     tr_keywords := tr_keywords trans; tr_disabled := tr_disabled trans;
     tr_redundant := tr_redundant trans;
     tr_error := tr_error trans; tr_error_code := tr_error_code trans;
     tr_mail_trans := tr_mail_trans trans; tr_dest_mail := tr_dest_mail trans |}.

Definition set_tried_default_save (w : world) : world :=
  set_exec_status w
    {| last_storage := last_storage (exec_status w);
       tried_default_save := true;
       keep_original := keep_original (exec_status w);
       message_saved := message_saved (exec_status w) |}.

Definition set_trans_mail (trans : act_store_transaction) (mail_trans dest_mail : Z)
  : act_store_transaction :=
  {| tr_ctx := tr_ctx trans; tr_namespace := tr_namespace trans;
     tr_folder := tr_folder trans; tr_box := tr_box trans;
     tr_flags := tr_flags trans; tr_flags_altered := tr_flags_altered trans;
     tr_keywords := tr_keywords trans; tr_disabled := tr_disabled trans;
     tr_redundant := tr_redundant trans;
     tr_error := tr_error trans; tr_error_code := tr_error_code trans;
     tr_mail_trans := mail_trans; tr_dest_mail := dest_mail |}.

(** [act_store_execute]; [tr_context] is the transaction context, or NULL. *)
Definition act_store_execute (aenv : sieve_action_exec_env) (w : world)
    (tr_context : option act_store_transaction)
  : bool * option act_store_transaction * world :=
  match tr_context with
  | None => (FALSE, None, w)
  | Some trans =>
      if tr_disabled trans then (TRUE, Some trans, w)
      else if tr_redundant trans then
        if tr_flags_altered trans then
          let '(keywords, kwds, w) :=
            act_store_keywords_create w (tr_keywords trans) (msg_mail_box (msgdata aenv)) in
          let trans := set_trans_keywords trans kwds in
          let w :=
            if negb (keywords =? 0) then
              let '(_, w) := do_call w (mail_update_keywords (msg_mail (msgdata aenv)) keywords) in
              snd (do_call w (mailbox_keywords_unref (tr_box trans) keywords))
            else w in
          let '(_, w) := do_call w (mail_update_flags (msg_mail (msgdata aenv)) (tr_flags trans)) in
          (TRUE, Some trans, w)
        else (TRUE, Some trans, w)
      else if tr_namespace trans =? 0 then (FALSE, Some trans, w)
      else if tr_box trans =? 0 then (FALSE, Some trans, w)
      else
        let w := if strcmp (mailbox (tr_ctx trans))
                           (SIEVE_SCRIPT_DEFAULT_MAILBOX (scriptenv aenv)) =? 0
                 then set_tried_default_save w else w in
        let '(r, w) := do_call w (mailbox_get_storage (tr_box trans)) in
        let w := set_last_storage w (r_val r) in
        let '(r, w) := do_call w (mailbox_transaction_begin (tr_box trans)) in
        let mail_trans := r_val r in
        let '(r, w) := do_call w (mail_alloc mail_trans) in
        let dest_mail := r_val r in
        let trans := set_trans_mail trans mail_trans dest_mail in
        let '(r, w) := do_call w (mailbox_save_alloc mail_trans) in
        let save_ctx := r_val r in
        let '(_, w) := do_call w (mailbox_save_set_dest_mail save_ctx dest_mail) in
        let '(keywords, trans, w) :=
          if tr_flags_altered trans then
            let '(keywords, kwds, w) :=
              act_store_keywords_create w (tr_keywords trans) (tr_box trans) in
            let '(_, w) := do_call w (mailbox_save_set_flags save_ctx (tr_flags trans) keywords) in
            (keywords, set_trans_keywords trans kwds, w)
          else (0, trans, w) in
        let '(r, w) := do_call w (mailbox_copy save_ctx (msg_mail (msgdata aenv))) in
        let '(result, trans, w) :=
          if r_val r <? 0 then
            let '(trans, w) := sieve_act_store_get_storage_error w trans in
            (FALSE, trans, w)
          else (TRUE, trans, w) in
        let w := if negb (keywords =? 0)
                 then snd (do_call w (mailbox_keywords_unref (tr_box trans) keywords))
                 else w in
        (result, Some trans, w)
  end.

(** [act_store_log_status] *)
Definition act_store_log_status (trans : act_store_transaction) (w : world)
    (rolled_back status : bool) : world :=
  let mailbox_name := str_sanitize (mailbox (tr_ctx trans)) 128 in
  if tr_disabled trans then
    snd (do_call w (sieve_result_log "store into mailbox '%s' skipped" mailbox_name))
  else if tr_redundant trans then
    snd (do_call w (sieve_result_log "left message in mailbox '%s'" mailbox_name))
  else if tr_namespace trans =? 0 then
    snd (do_call w (sieve_result_error "failed to find namespace for mailbox '%s'"
                      [mailbox_name]))
  else if negb status then
    let '(errstr, w) :=
      match tr_error trans with
      | Some e => (e, w)
      | None =>
          let '(r, w) := do_call w (mail_storage_get_last_error
                                      (ns_storage (tr_namespace trans))) in
          (r_str r, w)
      end in
    snd (do_call w (sieve_result_error "failed to store into mailbox '%s': %s"
                      [mailbox_name; errstr]))
  else if rolled_back then
    snd (do_call w (sieve_result_log "store into mailbox '%s' aborted" mailbox_name))
  else
    snd (do_call w (sieve_result_log "stored mail into mailbox '%s'" mailbox_name)).

Definition set_kept_original (w : world) : world :=
  set_exec_status w
    {| last_storage := last_storage (exec_status w);
       tried_default_save := tried_default_save (exec_status w);
       keep_original := true;
       message_saved := true |}.

Definition set_message_saved (w : world) : world :=
  set_exec_status w
    {| last_storage := last_storage (exec_status w);
       tried_default_save := tried_default_save (exec_status w);
       keep_original := keep_original (exec_status w);
       message_saved := true |}.

(** [act_store_commit]: the result, the value left in [*keep] ([keep] is
    what it held before) and the transaction context. *)
Definition act_store_commit (aenv : sieve_action_exec_env) (w : world)
    (tr_context : option act_store_transaction) (keep : bool)
  : bool * bool * option act_store_transaction * world :=
  let status := TRUE in
  match tr_context with
  | None => (FALSE, keep, None, w)
  | Some trans =>
      if tr_disabled trans then
        let w := act_store_log_status trans w FALSE status in
        (TRUE, FALSE, Some trans, w)
      else if tr_redundant trans then
        let w := act_store_log_status trans w FALSE status in
        (TRUE, keep, Some trans, set_kept_original w)
      else if tr_namespace trans =? 0 then (FALSE, keep, Some trans, w)
      else if tr_box trans =? 0 then (FALSE, keep, Some trans, w)
      else
        let w := set_last_storage w (ns_storage (tr_namespace trans)) in
        let '(trans, w) :=
          if negb (tr_dest_mail trans =? 0) then
            let '(_, w) := do_call w (mail_free (tr_dest_mail trans)) in
            (set_trans_mail trans (tr_mail_trans trans) 0, w)
          else (trans, w) in
        let '(r, w) := do_call w (mailbox_transaction_commit (tr_mail_trans trans)) in
        let trans := set_trans_mail trans 0 (tr_dest_mail trans) in
        let status := r_val r =? 0 in
        let w := if status then set_message_saved w else w in
        let w := act_store_log_status trans w FALSE status in
        let '(trans, w) :=
          if negb (tr_box trans =? 0) then
            let '(_, w) := do_call w (mailbox_close (tr_box trans)) in
            (set_trans_box trans 0, w)
          else (trans, w) in
        (status, negb status, Some trans, w)
  end.

(** *** Action utility functions *)

Definition sieve_action_duplicate_check_available (senv : sieve_script_env) : bool :=
  has_duplicate_check senv && has_duplicate_mark senv.

Definition sieve_action_duplicate_check (senv : sieve_script_env) (w : world)
    (id : list Z) (id_size : Z) : Z * world :=
  if negb (has_duplicate_check senv) || negb (has_duplicate_mark senv) then (0, w)
  else
    let '(r, w) := do_call w (duplicate_check id id_size (username senv)) in
    (r_val r, w).

Definition sieve_action_duplicate_mark (senv : sieve_script_env) (w : world)
    (id : list Z) (id_size time : Z) : world :=
  if negb (has_duplicate_check senv) || negb (has_duplicate_mark senv) then w
  else snd (do_call w (duplicate_mark id id_size (username senv) time)).

End Actions.

(* ----------------------------------------------------------------- *)
(** ** sieve-match-types.c: the core match types *)
(* ----------------------------------------------------------------- *)

(** The comparators a match type is used with. *)
Inductive sieve_comparator : Type :=
| i_octet_comparator
| i_ascii_casemap_comparator
| other_comparator (identifier : string).

(** [mtch_matches_match]: the match function of the [:matches] type. *)
Definition mtch_matches_match (comparator : sieve_comparator)
    (val : string) (val_size : Z) (key : string) (key_size : Z) (key_index : Z)
  : bool :=
  FALSE.

(** [struct sieve_match_type], with the match hook (NULL for a match type
    that is not implemented). *)
Record sieve_match_type : Type := {
  mt_identifier : string;
  mt_code : Z;
  mt_match : option (sieve_comparator -> string -> Z -> string -> Z -> Z -> bool)
}.

(** The code of [:matches]: its place in [sieve_core_match_types]. *)
Definition SIEVE_MATCH_TYPE_MATCHES : Z := 2.

Definition matches_match_type : sieve_match_type :=
  {| mt_identifier := "matches";
     mt_code := SIEVE_MATCH_TYPE_MATCHES;
     mt_match := Some mtch_matches_match |}.

(** *** The [:matches] semantics of the specification

    [*] matches any character sequence, [?] any single character, [\*]
    and [\?] stand for the characters themselves; characters are
    compared as the comparator folds them, and the expansion of each [*]
    and [?] is a match value. *)
Inductive glob_token : Type :=
| GlobStar
| GlobAny
| GlobChar (c : ascii).

Fixpoint glob_tokens (key : string) : list glob_token :=
  match key with
  | EmptyString => []
  | String "\" (String "*" key') => GlobChar "*" :: glob_tokens key'
  | String "\" (String "?" key') => GlobChar "?" :: glob_tokens key'
  | String "*" key' => GlobStar :: glob_tokens key'
  | String "?" key' => GlobAny :: glob_tokens key'
  | String c key' => GlobChar c :: glob_tokens key'
  end.

(** Case folding of a comparator. *)
Definition comparator_fold (cmp : sieve_comparator) (c : ascii) : Z :=
  match cmp with
  | i_ascii_casemap_comparator => tolower (char_code c)
  | _ => char_code c
  end.

(** The match values of the first way the tokens match the whole value,
    each [*] taking as little as it can; [None] when there is no way. *)
Fixpoint glob_match (cmp : sieve_comparator) (tokens : list glob_token)
    (val : string) : option (list string) :=
  match tokens with
  | [] => match val with EmptyString => Some [] | _ => None end
  | GlobChar c :: tokens' =>
      match val with
      | String v val' =>
          if comparator_fold cmp v =? comparator_fold cmp c
          then glob_match cmp tokens' val' else None
      | EmptyString => None
      end
  | GlobAny :: tokens' =>
      match val with
      | String v val' =>
          match glob_match cmp tokens' val' with
          | Some values => Some (String v EmptyString :: values)
          | None => None
          end
      | EmptyString => None
      end
  | GlobStar :: tokens' =>
      (fix star (taken rest : string) {struct rest} : option (list string) :=
         match glob_match cmp tokens' rest with
         | Some values => Some (taken :: values)
         | None =>
             match rest with
             | EmptyString => None
             | String v rest' => star (taken ++ String v EmptyString)%string rest'
             end
         end) EmptyString val
  end.

Definition matches_spec (cmp : sieve_comparator) (val key : string)
  : option (list string) :=
  glob_match cmp (glob_tokens key) val.

(* ----------------------------------------------------------------- *)
(** ** mcht-regex.c: the [:regex] match type *)
(* ----------------------------------------------------------------- *)

(** [regmatch_t] and the compile flags of <regex.h> *)
Record regmatch_t : Type := {
  rm_so : Z;
  rm_eo : Z
}.

Inductive regex_cflag : Type :=
| REG_EXTENDED
| REG_ICASE
| REG_NOSUB.

(** The match values of the interpreter: whether they are enabled, and
    the committed set (NULL before the first commit). *)
Record sieve_match_values_state : Type := {
  match_values_enabled : bool;
  match_values : option (list string)
}.

(** Modelled from the spec: the match-value functions
    [sieve_match_values_are_enabled], [_start], [_add], [_skip] and
    [_commit] live in sieve-match-types.c of the release the regex match
    type belongs to.  A match type opens a match-value set on the
    interpreter, appends captures in order, a skipped capture advancing
    the index (it reads as the empty string), and the commit replaces the
    interpreter's set by the new one in one step. *)
Definition sieve_match_values_are_enabled (interp : sieve_match_values_state) : bool :=
  match_values_enabled interp.

Definition sieve_match_values_start (interp : sieve_match_values_state)
  : option (list string) :=
  if match_values_enabled interp then Some [] else None.

Definition sieve_match_values_add (mvalues : list string) (value : string)
  : list string :=
  mvalues ++ [value].

Definition sieve_match_values_skip (mvalues : list string) (num : Z) : list string :=
  mvalues ++ replicate (Z.to_nat num) EmptyString.

Definition sieve_match_values_commit (interp : sieve_match_values_state)
    (mvalues : list string) : sieve_match_values_state :=
  {| match_values_enabled := match_values_enabled interp;
     match_values := Some mvalues |}.

Section Regex.

(** A compiled expression, with [regcomp] (the expression, or [None] when
    it does not compile) and [regexec] (the offsets of the groups when
    the value matches, [None] when it does not) of the C library. *)
Variable regex_t : Type.
Variable regcomp : string -> list regex_cflag -> option regex_t.
Variable regexec : regex_t -> string -> Z -> option (list regmatch_t).

(** [MCHT_REGEX_MAX_SUBSTITUTIONS], that is [SIEVE_MAX_MATCH_VALUES]
    (sieve-limits.h) *)
Variable MCHT_REGEX_MAX_SUBSTITUTIONS : Z.

(** [struct mcht_regex_context]; a cell of [reg_expressions] is [None]
    while it holds no compiled expression, [pmatch] is [None] for NULL. *)
Record mcht_regex_context : Type := {
  reg_expressions : list (option regex_t);
  value_index : Z;
  pmatch : option (list regmatch_t);
  nmatch : Z
}.

(** [struct sieve_match_context], the fields the regex match type uses. *)
Record sieve_match_context : Type := {
  mctx_interp : sieve_match_values_state;
  mctx_comparator : sieve_comparator;
  mctx_data : mcht_regex_context
}.

Definition no_match : regmatch_t := {| rm_so := -1; rm_eo := -1 |}.

(** [mcht_regex_match_init] *)
Definition mcht_regex_match_init (interp : sieve_match_values_state)
    (comparator : sieve_comparator) : sieve_match_context :=
  let ctx :=
    if sieve_match_values_are_enabled interp then
      {| reg_expressions := []; value_index := -1;
         pmatch := Some (replicate (Z.to_nat MCHT_REGEX_MAX_SUBSTITUTIONS)
                           {| rm_so := 0; rm_eo := 0 |});
         nmatch := MCHT_REGEX_MAX_SUBSTITUTIONS |}
    else
      {| reg_expressions := []; value_index := -1; pmatch := None; nmatch := 0 |} in
  {| mctx_interp := interp; mctx_comparator := comparator; mctx_data := ctx |}.

Definition set_reg_expressions (ctx : mcht_regex_context)
    (regs : list (option regex_t)) : mcht_regex_context :=
  {| reg_expressions := regs; value_index := value_index ctx;
     pmatch := pmatch ctx; nmatch := nmatch ctx |}.

(** [mcht_regex_get]: the compiled expression or NULL, and the context. *)
Definition mcht_regex_get (ctx : mcht_regex_context) (cmp : sieve_comparator)
    (key : string) (key_index : Z)
  : outcome (option regex_t * mcht_regex_context) :=
  if value_index ctx <=? 0 then
    let regs := reg_expressions ctx ++
                replicate (S (Z.to_nat key_index) - length (reg_expressions ctx)) None in
    let ctx := set_reg_expressions ctx (<[Z.to_nat key_index := None]> regs) in
    match cmp with
    | other_comparator _ => Done (None, ctx)
    | _ =>
        let cflags := match cmp with
                      | i_octet_comparator => [REG_EXTENDED]
                      | _ => [REG_EXTENDED; REG_ICASE]
                      end in
        let cflags := if nmatch ctx =? 0 then cflags ++ [REG_NOSUB] else cflags in
        match regcomp key cflags with
        | None => Done (None, ctx)
        | Some regexp =>
            Done (Some regexp,
                  set_reg_expressions ctx
                    (<[Z.to_nat key_index := Some regexp]> (reg_expressions ctx)))
        end
    end
  else
    cell ← array_at (reg_expressions ctx) key_index;
    match cell with
    | Some regexp => Done (Some regexp, ctx)
    | None => Undefined
    end.

(** [val + rm_so]: the string from an offset on. *)
Fixpoint string_from (val : string) (n : nat) : outcome string :=
  match n, val with
  | O, _ => Done val
  | S n', String _ val' => string_from val' n'
  | S _, EmptyString => Undefined
  end.

(** The [for ( i = 0; i < ctx->nmatch; i++ )] loop of [mcht_regex_match];
    [n] rounds are left. *)
Fixpoint regex_values_for (n : nat) (val : string) (pm : list regmatch_t)
    (i skipped : Z) (mvalues : list string) : outcome (list string) :=
  match n with
  | O => Done mvalues
  | S n' =>
      m ← array_at pm i;
      if negb (rm_so m =? -1) then
        let mvalues := if skipped >? 0
                       then sieve_match_values_skip mvalues skipped else mvalues in
        from ← (if 0 <=? rm_so m then string_from val (Z.to_nat (rm_so m))
                else Undefined);
        let subst := str_append_n from (rm_eo m - rm_so m) in
        regex_values_for n' val pm (i + 1) 0 (sieve_match_values_add mvalues subst)
      else regex_values_for n' val pm (i + 1) (skipped + 1) mvalues
  end.

(** What [regexec] leaves in the [pmatch] array: the offsets of the groups,
    then -1 in the cells that are left. *)
Definition fill_pmatch (old offsets : list regmatch_t) : list regmatch_t :=
  take (length old) (offsets ++ replicate (length old) no_match).

(** [mcht_regex_match]; [val] may be NULL. *)
Definition mcht_regex_match (mctx : sieve_match_context) (val : option string)
    (key : string) (key_index : Z) : outcome (bool * sieve_match_context) :=
  let ctx := mctx_data mctx in
  let val := match val with Some v => v | None => EmptyString end in
  if key_index <? 0 then Done (FALSE, mctx)
  else
    let ctx := if key_index =? 0
               then {| reg_expressions := reg_expressions ctx;
                       value_index := value_index ctx + 1;
                       pmatch := pmatch ctx; nmatch := nmatch ctx |}
               else ctx in
    '(regexp, ctx) ← mcht_regex_get ctx (mctx_comparator mctx) key key_index;
    let mctx := {| mctx_interp := mctx_interp mctx;
                   mctx_comparator := mctx_comparator mctx; mctx_data := ctx |} in
    match regexp with
    | None => Done (FALSE, mctx)
    | Some regexp =>
        match regexec regexp val (nmatch ctx) with
        | Some offsets =>
            if nmatch ctx >? 0 then
              pm ← (match pmatch ctx with
                    | Some old => Done (fill_pmatch old offsets)
                    | None => Undefined
                    end);
              let ctx := {| reg_expressions := reg_expressions ctx;
                            value_index := value_index ctx;
                            pmatch := Some pm; nmatch := nmatch ctx |} in
              match sieve_match_values_start (mctx_interp mctx) with
              | None => Panic
              | Some mvalues =>
                  mvalues ← regex_values_for (Z.to_nat (nmatch ctx)) val pm 0 0 mvalues;
                  Done (TRUE,
                        {| mctx_interp := sieve_match_values_commit (mctx_interp mctx) mvalues;
                           mctx_comparator := mctx_comparator mctx;
                           mctx_data := ctx |})
              end
            else Done (TRUE, mctx)
        | None => Done (FALSE, mctx)
        end
    end.

End Regex.

Arguments reg_expressions {regex_t} _.
Arguments value_index {regex_t} _.
Arguments pmatch {regex_t} _.
Arguments nmatch {regex_t} _.
Arguments mctx_interp {regex_t} _.
Arguments mctx_comparator {regex_t} _.
Arguments mctx_data {regex_t} _.
Arguments mcht_regex_match_init {regex_t} _ _ _.
Arguments mcht_regex_get {regex_t} _ _ _ _ _.
Arguments mcht_regex_match {regex_t} _ _ _ _ _ _.

(* ----------------------------------------------------------------- *)
(** ** sieve-binary.c: offsets, strings and single bytes *)
(* ----------------------------------------------------------------- *)

(** [buffer_write] of the Dovecot library: the bytes are written at [pos];
    a buffer that ends before [pos + size] grows, its new cells zeroed. *)
Definition buffer_write (sbin : sieve_binary) (p : option nat) (pos : Z)
    (bytes : list Z) : outcome sieve_binary :=
  old ← buffer_deref sbin p;
  match p with
  | Some b =>
      if pos <? 0 then Undefined
      else
        let grown := old ++ replicate (Z.to_nat pos + length bytes - length old) 0 in
        Done (set_buffers sbin
                (<[b := take (Z.to_nat pos) grown ++ bytes
                        ++ drop (Z.to_nat pos + length bytes) grown]> (buffers sbin)))
  | None => Undefined
  end.

(** [strlen]: the number of characters before the first NUL. *)
Fixpoint strlen (s : string) : Z :=
  match s with
  | EmptyString => 0
  | String c s' => if char_code c =? 0 then 0 else 1 + strlen s'
  end.

(** The memory cells of the characters of a string. *)
Fixpoint bytes_of_string (s : string) : list Z :=
  match s with
  | EmptyString => []
  | String c s' => char_code c :: bytes_of_string s'
  end.

Section BinaryEmit.

Variable sizeof_sieve_size_t : Z.

Definition sieve_binary_update_data (binary : sieve_binary) (address : Z)
    (bytes : list Z) : outcome sieve_binary :=
  buffer_write binary (data binary) address bytes.

(** *** Offset emission functions *)

(** The [for ( i = 3; i >= 0; i-- )] loop of [sieve_binary_emit_offset]:
    [n] is [i + 1]. *)
Fixpoint emit_offset_for (n : nat) (binary : sieve_binary) (offset : Z)
  : outcome sieve_binary :=
  match n with
  | O => Done binary
  | S i =>
      let c := unsigned_char (Z.shiftr offset (Z.of_nat i * 8)) in
      '(_, binary1) ← sieve_binary_emit_data binary [c];
      emit_offset_for i binary1 offset
  end.

(** [sieve_binary_emit_offset]; [offset] is an [int]. *)
Definition sieve_binary_emit_offset (binary : sieve_binary) (offset : Z)
  : outcome (Z * sieve_binary) :=
  address ← sieve_binary_get_code_size binary;
  binary1 ← emit_offset_for 4 binary offset;
  Done (address, binary1).

(** The loop of [sieve_binary_resolve_offset]. *)
Fixpoint resolve_offset_for (n : nat) (binary : sieve_binary) (address offset : Z)
  : outcome sieve_binary :=
  match n with
  | O => Done binary
  | S i =>
      let c := unsigned_char (Z.shiftr offset (Z.of_nat i * 8)) in
      binary1 ← sieve_binary_update_data binary
                  (to_sieve_size_t sizeof_sieve_size_t (address + 3 - Z.of_nat i)) [c];
      resolve_offset_for i binary1 address offset
  end.

(** [sieve_binary_resolve_offset]: the [int offset] takes the low 32 bits
    of the [sieve_size_t] difference. *)
Definition sieve_binary_resolve_offset (binary : sieve_binary) (address : Z)
  : outcome sieve_binary :=
  size ← sieve_binary_get_code_size binary;
  let offset :=
    int_of_uint32 (to_sieve_size_t sizeof_sieve_size_t (size - address) mod 2 ^ 32) in
  resolve_offset_for 4 binary address offset.

(** *** Literal emission *)

(** [sieve_binary_emit_dynamic_data]; [size] is the number of cells of
    [data]. *)
Definition sieve_binary_emit_dynamic_data (binary : sieve_binary) (bytes : list Z)
  : outcome (Z * sieve_binary) :=
  '(address, binary1) ←
    sieve_binary_emit_integer sizeof_sieve_size_t binary (Z.of_nat (length bytes));
  '(_, binary2) ← sieve_binary_emit_data binary1 bytes;
  Done (address, binary2).

Definition sieve_binary_emit_cstring (binary : sieve_binary) (str : string)
  : outcome (Z * sieve_binary) :=
  '(address, binary1) ←
    sieve_binary_emit_dynamic_data binary
      (take (Z.to_nat (strlen str)) (bytes_of_string str));
  '(_, binary2) ← sieve_binary_emit_byte binary1 0;
  Done (address, binary2).

(** [sieve_binary_emit_string]; a [string_t] is a buffer of bytes, which
    may hold NUL. *)
Definition sieve_binary_emit_string (binary : sieve_binary) (str : list Z)
  : outcome (Z * sieve_binary) :=
  '(address, binary1) ← sieve_binary_emit_dynamic_data binary str;
  '(_, binary2) ← sieve_binary_emit_byte binary1 0;
  Done (address, binary2).

(** *** Literals *)


End BinaryEmit.

(* ----------------------------------------------------------------- *)
(** ** sieve-binary.c: the extensions of a binary *)
(* ----------------------------------------------------------------- *)

(** [array_idx] of the Dovecot library: an index outside the array fails
    its assertion. *)
Definition array_idx {A : Type} (a : list A) (i : Z) : outcome A :=
  if (0 <=? i) && (i <? Z.of_nat (length a)) then
    match a !! Z.to_nat i with
    | Some x => Done x
    | None => Panic
    end
  else Panic.

(** [sieve_binary_extension_get_by_index]: the extension, known by its
    global id, or NULL, and the id left in [*ext_id].  The index is an
    [int] compared with the count only from above. *)
Definition sieve_binary_extension_get_by_index (sbin : sieve_binary) (index : Z)
  : outcome (option Z * Z) :=
  if index <? Z.of_nat (length (extensions sbin)) then
    ext ← array_idx (extensions sbin) index;
    match ext with
    | Some ereg => Done (Some (reg_ext_id ereg), reg_ext_id ereg)
    | None => Undefined
    end
  else Done (None, -1).

Definition sieve_binary_extensions_count (sbin : sieve_binary) : Z :=
  Z.of_nat (length (extensions sbin)).

(* ----------------------------------------------------------------- *)
(** ** sieve-interpreter.c: finding a loop *)
(* ----------------------------------------------------------------- *)

(** The [for ( i = count; i > 0; i-- )] loop of
    [sieve_interpreter_loop_get]: the frame found, as its index. *)
Fixpoint loop_get_for (i : nat) (loops : list sieve_interpreter_loop)
    (loop_end ext_def : Z) : outcome (option nat) :=
  match i with
  | O => Done None
  | S i' =>
      l ← array_at loops (Z.of_nat i');
      if (lp_end l =? loop_end) && (lp_ext_def l =? ext_def) then Done (Some i')
      else loop_get_for i' loops loop_end ext_def
  end.

(** [sieve_interpreter_loop_get] *)
Definition sieve_interpreter_loop_get (interp : sieve_interpreter)
    (loop_end ext_def : Z) : outcome (option nat) :=
  if negb (array_is_created interp) then Done None
  else loop_get_for (length (loops_of interp)) (loops_of interp) loop_end ext_def.

(** The loop of [sieve_interpreter_loop_get_local]; an [ext_def] of 0 is
    NULL, and then the frame is not looked at. *)
Fixpoint loop_get_local_for (i : nat) (loops : list sieve_interpreter_loop)
    (ext_def : Z) : outcome (option nat) :=
  match i with
  | O => Done None
  | S i' =>
      if ext_def =? 0 then Done (Some i')
      else
        l ← array_at loops (Z.of_nat i');
        if lp_ext_def l =? ext_def then Done (Some i')
        else loop_get_local_for i' loops ext_def
  end.

(** [sieve_interpreter_loop_get_local]; [loop] is NULL or points into the
    loop stack. *)
Definition sieve_interpreter_loop_get_local (interp : sieve_interpreter)
    (loop : option nat) (ext_def : Z) : outcome (option nat) :=
  if negb (array_is_created interp) then Done None
  else
    let loops := loops_of interp in
    let count := Z.of_nat (length loops) in
    start ← match loop with
            | None => Done count
            | Some k =>
                l ← array_at loops (Z.of_nat k);
                _ ← i_assert (lp_level l <? count);
                Done (lp_level l)
            end;
    loop_get_local_for (Z.to_nat start) loops ext_def.

(* ----------------------------------------------------------------- *)
(** ** sieve-actions.c: rolling a store back *)
(* ----------------------------------------------------------------- *)

Section ActionsRollback.

Variable respond : list call -> call -> reply.
Variable str_sanitize : string -> Z -> string.
Variable ns_storage : Z -> Z.

(** [act_store_rollback]; the transaction context is used without a
    check for NULL. *)
Definition act_store_rollback (aenv : sieve_action_exec_env) (w : world)
    (tr_context : option act_store_transaction) (success : bool)
  : outcome (act_store_transaction * world) :=
  match tr_context with
  | None => Undefined
  | Some trans =>
      let w := act_store_log_status respond str_sanitize ns_storage trans w TRUE success in
      let '(trans, w) :=
        if negb (tr_dest_mail trans =? 0) then
          let '(_, w) := do_call respond w (mail_free (tr_dest_mail trans)) in
          (set_trans_mail trans (tr_mail_trans trans) 0, w)
        else (trans, w) in
      let '(trans, w) :=
        if negb (tr_mail_trans trans =? 0) then
          let '(_, w) := do_call respond w (mailbox_transaction_rollback (tr_mail_trans trans)) in
          (set_trans_mail trans 0 (tr_dest_mail trans), w)
        else (trans, w) in
      let '(trans, w) :=
        if negb (tr_box trans =? 0) then
          let '(_, w) := do_call respond w (mailbox_close (tr_box trans)) in
          (set_trans_box trans 0, w)
        else (trans, w) in
      Done (trans, w)
  end.

End ActionsRollback.

(* ----------------------------------------------------------------- *)
(** ** sieve.c: the names of a Sieve instance *)
(* ----------------------------------------------------------------- *)

(** [*s == '\0'] *)
Definition at_nul (s : string) : bool :=
  match s with
  | EmptyString => true
  | String c _ => char_code c =? 0
  end.

(** [s + 1]; the pointer stays at a terminating NUL. *)
Definition str_next (s : string) : string :=
  match s with
  | EmptyString => EmptyString
  | String _ s' => s'
  end.

(** [strchr] of the C library: the string from the first [c] on, or NULL;
    the terminating NUL is compared as well. *)
Fixpoint strchr (s : string) (c : ascii) : option string :=
  match s with
  | EmptyString => if char_code c =? 0 then Some s else None
  | String c0 s' =>
      if Ascii.eqb c0 c then Some s
      else if char_code c0 =? 0 then None
      else strchr s' c
  end.

(** The copy a [strdup] makes: the characters before the first NUL. *)
Fixpoint strdup (s : string) : string :=
  match s with
  | EmptyString => EmptyString
  | String c s' => if char_code c =? 0 then EmptyString else String c (strdup s')
  end.

(** [p_strdup] and [p_strdup_empty] of the Dovecot library: NULL stays
    NULL, and for the second the empty string becomes NULL. *)
Definition p_strdup (str : option string) : option string :=
  match str with
  | Some s => Some (strdup s)
  | None => None
  end.

Definition p_strdup_empty (str : option string) : option string :=
  match str with
  | Some s => if at_nul s then None else Some (strdup s)
  | None => None
  end.

(** The names in [struct sieve_environment] and [struct sieve_instance]. *)
Record sieve_environment : Type := {
  env_hostname : option string;
  env_domainname : option string;
  env_username : option string
}.

Record sieve_instance : Type := {
  svinst_username : option string;
  svinst_hostname : option string;
  svinst_domainname : option string
}.

(** [sieve_init], as far as it fills in the names of the instance;
    [sieve_extensions_init] is the result of that call, and without it
    there is no instance. *)
Definition sieve_init (env : sieve_environment) (sieve_extensions_init : bool)
  : option sieve_instance :=
  let username := p_strdup_empty (env_username env) in
  let domain :=
    if match env_domainname env with
       | Some d => negb (at_nul d)
       | None => false
       end
    then env_domainname env
    else
      (* Fall back to parsing username localpart@domain *)
      let domain := match username with
                    | None => None
                    | Some u => strchr u "@"
                    end in
      if match domain with
         | None => true
         | Some d => at_nul (str_next d)
         end
      then
        (* Fall back to parsing hostname host.domain *)
        let domain := match env_hostname env with
                      | Some h => strchr h "."
                      | None => None
                      end in
        if match domain with
           | None => true
           | Some d =>
               at_nul (str_next d)
               || match strchr (str_next d) "." with
                  | None => true
                  | Some _ => false
                  end
           end
        then env_hostname env (* Fall back to bare hostname *)
        else option_map str_next domain
      else option_map str_next domain in
  let svinst := {| svinst_username := username;
                   svinst_hostname := p_strdup_empty (env_hostname env);
                   svinst_domainname := p_strdup domain |} in
  if negb sieve_extensions_init then None
  else Some svinst.

(** A binary whose single block holds [bytes] and is active. *)
Definition binary_of_code (bytes : list Z) : sieve_binary :=
  {| path := ""; memory := []; memory_size := 0;
     extensions := []; extension_index := []; linked_extensions := [];
     blocks := [Some {| blk_buffer := Some 0%nat; blk_ext_index := 0;
                        blk_ext_id := 0; blk_offset := 0 |}];
     active_block := 0;
     buffers := [bytes]; data := Some 0%nat; code := Some 0%nat;
     code_size := Z.of_nat (length bytes) |}.

(** An interpreter at [at_pc] with the given loop stack and limit, running
    the block [bytes]. *)
Definition interpreter_at (bytes : list Z) (at_pc : Z)
    (loops : option (list sieve_interpreter_loop)) (limit : Z) : sieve_interpreter :=
  {| pc := at_pc; interrupted := false; test_result := false;
     loop_stack := loops; loop_limit := limit; parent_loop_level := 0;
     sblock := binary_of_code bytes;
     pools := match loops with Some l => map lp_pool l | None => [] end;
     next_pool := match loops with Some l => length l | None => O end |}.

(** The mailbox a store action delivers to. *)
Definition store_mailbox (senv : sieve_script_env) (act : option sieve_action) : string :=
  match act with
  | Some {| context := Some ctx |} => mailbox ctx
  | _ => SIEVE_SCRIPT_DEFAULT_MAILBOX senv
  end.

(** The characters of a name with the letters A to Z lowered: two names
    are equal under case-insensitive comparison when these agree. *)
Fixpoint lower_codes (s : string) : list Z :=
  match s with
  | EmptyString => []
  | String c s' => tolower (char_code c) :: lower_codes s'
  end.

Definition is_inbox (name : string) : Prop :=
  lower_codes name = lower_codes "INBOX".

(** The end of the innermost live loop frame, 0 when there is none. *)
Definition innermost_end (interp : sieve_interpreter) : Z :=
  match last (loops_of interp) with
  | Some l => lp_end l
  | None => 0
  end.

(** A mail storage that answers every call with 0 and the empty string. *)
Definition quiet_storage (history : list call) (c : call) : reply :=
  {| r_val := 0; r_obj := 0; r_str := EmptyString; r_err := 0 |}.

(** The signed offset codec of the specification: four bytes, big-endian,
    two's complement, at [address] in [bytes]. *)
Definition decode_offset (bytes : list Z) (address : Z) : Z :=
  let byte i := unsigned_char (nth (Z.to_nat (address + i)) bytes 0) in
  let u := byte 0 * 2 ^ 24 + byte 1 * 2 ^ 16 + byte 2 * 2 ^ 8 + byte 3 in
  if u <? 2 ^ 31 then u else u - 2 ^ 32.

(** The bytes of a 32-bit value as a host of the given byte order stores
    them. *)
Definition store_uint32 (big_endian : bool) (v : Z) : list Z :=
  let bytes := [Z.shiftr v 24 mod 256; Z.shiftr v 16 mod 256;
                Z.shiftr v 8 mod 256; v mod 256] in
  if big_endian then bytes else reverse bytes.

(** The match values a matching expression yields for the groups [pm] of
    the value [val]: the substring of a group that took part in the match,
    the empty string for a group that did not and is followed by one that
    did; the groups after the last one that took part yield nothing.
    [with_skipped n values] puts [n] skipped groups before [values]. *)
Definition with_skipped (skipped : Z) (values : list string) : list string :=
  match values with
  | [] => []
  | _ => replicate (Z.to_nat skipped) EmptyString ++ values
  end.

Definition group_string (val : string) (m : regmatch_t) : string :=
  substring (Z.to_nat (rm_so m)) (Z.to_nat (rm_eo m - rm_so m)) val.

Fixpoint capture_values (val : string) (pm : list regmatch_t) : list string :=
  match pm with
  | [] => []
  | m :: pm' =>
      if rm_so m =? -1 then with_skipped 1 (capture_values val pm')
      else group_string val m :: capture_values val pm'
  end.

(** The offsets [regexec] reports lie inside the value. *)
Definition group_in (val : string) (m : regmatch_t) : Prop :=
  rm_so m = -1 ∨ 0 ≤ rm_so m ≤ Z.of_nat (String.length val).

(** A regex engine that knows one subject, that of the regex scenario of
    the specification: on "[sieve] hi" it reports the whole match and the
    bracketed group, on any other value no match. *)
Definition sample_regcomp (key : string) (cflags : list regex_cflag) : option unit :=
  Some tt.

Definition sample_regexec (regexp : unit) (val : string) (nmatch : Z)
  : option (list regmatch_t) :=
  if String.eqb val "[sieve] hi"
  then Some [ {| rm_so := 0; rm_eo := 8 |}; {| rm_so := 1; rm_eo := 6 |} ]
  else None.

(** The varint of the specification: the 7-bit groups of a value, most
    significant first, and the bytes that carry them, every byte but the
    last with the continuation bit.  [fuel] bounds the number of groups
    above the lowest one. *)
Fixpoint varint_high_groups (fuel : nat) (x : Z) : list Z :=
  match fuel with
  | O => []
  | S fuel' =>
      if x >? 0 then varint_high_groups fuel' (Z.shiftr x 7) ++ [Z.land x 0x7F]
      else []
  end.

Definition varint_bytes (fuel : nat) (x : Z) : list Z :=
  map (fun g => g + 0x80) (varint_high_groups fuel (Z.shiftr x 7)) ++ [Z.land x 0x7F].

(** The value of groups read most significant first onto [acc], as the
    read loop gathers them: each group is added and the sum moved up by
    seven bits. *)
Definition read_groups (acc : Z) (groups : list Z) : Z :=
  fold_left (fun a g => (a + g) * 128) groups acc.

(** The code view of [binary] is [bytes]: [code] points to them,
    [code_size] of them are inside the block, and the size fits
    [sieve_size_t]. *)
Definition code_view (sizeof_sieve_size_t : Z) (binary : sieve_binary)
    (bytes : list Z) : Prop :=
  buffer_deref binary (code binary) = Done bytes
  ∧ 0 ≤ code_size binary ≤ Z.of_nat (length bytes)
  ∧ code_size binary < 2 ^ sieve_size_bits sizeof_sieve_size_t.

(** The four bytes of an offset, most significant first. *)
Definition offset_bytes (offset : Z) : list Z :=
  [unsigned_char (Z.shiftr offset 24); unsigned_char (Z.shiftr offset 16);
   unsigned_char (Z.shiftr offset 8); unsigned_char offset].

(** The emitter writes to buffer [b], the buffer of block [id], which
    holds [old]. *)
Definition emitting_to (sbin : sieve_binary) (id : Z) (b : nat) (old : list Z) : Prop :=
  (∃ block, sieve_binary_block_get sbin id = Some block ∧ blk_buffer block = Some b)
  ∧ data sbin = Some b
  ∧ buffers sbin !! b = Some old.

(** The bytes of a string before its first NUL. *)
Fixpoint until_nul (bytes : list Z) : list Z :=
  match bytes with
  | [] => []
  | c :: bytes' => if unsigned_char c =? 0 then [] else c :: until_nul bytes'
  end.

(** Linking the extensions [ids] one after the other. *)
Definition link_extensions (sieve_extension_get_by_id : Z -> bool)
    (sbin : sieve_binary) (ids : list Z) : sieve_binary :=
  fold_left (fun s ext_id => snd (sieve_binary_extension_link sieve_extension_get_by_id s ext_id))
    ids sbin.

(** The registrations of a binary are consistent: the cell [i] of
    [extensions] holds a registration of index [i], which
    [extension_index] holds at its extension id, and the other way
    round. *)
Definition registry_ok (sbin : sieve_binary) : Prop :=
  (∀ i c, extensions sbin !! i = Some c →
     ∃ r, c = Some r ∧ reg_index r = Z.of_nat i ∧ 0 ≤ reg_ext_id r
          ∧ extension_index sbin !! Z.to_nat (reg_ext_id r) = Some (Some r))
  ∧ (∀ e r, extension_index sbin !! e = Some (Some r) →
       reg_ext_id r = Z.of_nat e
       ∧ extensions sbin !! Z.to_nat (reg_index r) = Some (Some r)
       ∧ 0 ≤ reg_index r).

(** A frame is the loop that [loop_end] and [ext_def] name. *)
Definition loop_is (loop_end ext_def : Z) (l : sieve_interpreter_loop) : Prop :=
  lp_end l = loop_end ∧ lp_ext_def l = ext_def.

(** Every frame of a loop stack records its own depth. *)
Definition levels_ok (loops : list sieve_interpreter_loop) : Prop :=
  ∀ i l, loops !! i = Some l → lp_level l = Z.of_nat i.

(** The calls made between two states of the world. *)
Definition calls_since (w w' : world) (new : list call) : Prop :=
  calls w' = calls w ++ new.

(** A call that creates a mailbox. *)
Definition creates_mailbox (c : call) : Prop :=
  match c with
  | mailbox_create _ => True
  | _ => False
  end.

(** A call that allocates a mailbox without the flag to ignore ACLs. *)
Definition allocates_under_acls (c : call) : Prop :=
  match c with
  | mailbox_alloc _ _ flags => ¬ In MAILBOX_FLAG_IGNORE_ACLS flags
  | _ => False
  end.

(** A call that copies or commits mail. *)
Definition saves_mail (c : call) : Prop :=
  match c with
  | mailbox_transaction_begin _ | mailbox_copy _ _ | mailbox_transaction_commit _ => True
  | _ => False
  end.

(** Whether a character occurs in a string. *)
Fixpoint occurs (c : ascii) (s : string) : bool :=
  match s with
  | EmptyString => false
  | String c0 s' => Ascii.eqb c0 c || occurs c s'
  end.

(* ================================================================= *)
(** * Part II: properties *)
(* ================================================================= *)

(** ** The [:matches] match type *)

Lemma mtch_matches_match_false cmp val val_size key key_size key_index :
  mtch_matches_match cmp val val_size key key_size key_index = false.
Proof. reflexivity. Qed.

(** C1.  The first test of the repository's own script for [:matches]:
    the value "Test of general stupidity" matches the key "Test of *" with
    match value 1 "general stupidity", but [mtch_matches_match], the match
    hook of [matches_match_type], answers FALSE. *)
Theorem matches_match_type_rejects_matching_value :
  matches_spec i_octet_comparator "Test of general stupidity" "Test of *"
    = Some ["general stupidity"%string]
  ∧ mt_match matches_match_type = Some mtch_matches_match
  ∧ mtch_matches_match i_octet_comparator "Test of general stupidity" 25
      "Test of *" 9 0 = false.
Proof. repeat split; reflexivity. Qed.

(** ** The varint codec *)

(** C3.  With a 64-bit [sieve_size_t] the local buffer of
    [sieve_binary_emit_integer] has 9 cells, enough for 63 bits: emitting
    2^63 writes a tenth group below the start of the buffer, so nothing
    readable is emitted, while 2^63 - 1, the largest value that fits, is
    emitted and read back. *)
Theorem emit_integer_overruns_buffer :
  sieve_binary_emit_integer 8 (binary_of_code []) (2 ^ 63) = Undefined
  ∧ ('(address, sbin) ← sieve_binary_emit_integer 8 (binary_of_code []) (2 ^ 63 - 1);
     '(_, sbin) ← sieve_binary_block_set_active sbin 0;
     sieve_binary_read_integer 8 sbin address)
    = Done (true, 9, 2 ^ 63 - 1).
Proof. split; vm_compute; reflexivity. Qed.

(** The emitter appends to [data] while the reader is bounded by
    [code_size], which is set when a block is made active: a read before
    the block is made active again does not see the new bytes. *)
Example read_before_activation_fails :
  ('(address, sbin) ← sieve_binary_emit_integer 4 (binary_of_code []) 300;
   sieve_binary_read_integer 4 sbin address)
  = Done (false, 0, 0).
Proof. vm_compute. reflexivity. Qed.

(** C4.  A varint of six groups (42 bits) is read into a 32-bit
    [sieve_size_t] with result TRUE: the groups encode 2^35 and the
    integer read is 0.  The same happens with eleven groups and 64 bits.
    And after a continuation byte that ends the block the next byte is
    read outside the block instead of the read failing. *)
Theorem read_integer_accepts_overlong_varint :
  sieve_binary_read_integer 4
    (binary_of_code [0x81; 0x80; 0x80; 0x80; 0x80; 0x00]) 0 = Done (true, 6, 0)
  ∧ sieve_binary_read_integer 8
      (binary_of_code [0x81; 0x80; 0x80; 0x80; 0x80; 0x80; 0x80; 0x80; 0x80; 0x80; 0x00]) 0
    = Done (true, 11, 0)
  ∧ sieve_binary_read_integer 4 (binary_of_code [0x80]) 0 = Undefined.
Proof. repeat split; vm_compute; reflexivity. Qed.

(** ** Loops of the interpreter *)

(** C5.  Two nested loops, the outer one ending at 100 and the inner one
    at 50: breaking the inner loop frees its pool, leaves the outer frame
    and sets [pc] to 50, but [loop_limit] is set to 50, the end of the
    frame just removed, and not to 100, the end of the frame that is now
    innermost. *)
Theorem loop_break_keeps_limit_of_broken_frame :
  let outer := {| lp_level := 0; lp_begin := 4; lp_end := 100;
                  lp_ext_def := 1; lp_pool := 0%nat |} in
  let inner := {| lp_level := 1; lp_begin := 10; lp_end := 50;
                  lp_ext_def := 1; lp_pool := 1%nat |} in
  let interp := interpreter_at (replicate 120 0) 20 (Some [outer; inner]) 50 in
  ∃ interp',
    sieve_interpreter_loop_break 1 interp 1 = Done (1, interp')
    ∧ loop_stack interp' = Some [outer]
    ∧ pools interp' = [0%nat]
    ∧ pc interp' = 50
    ∧ loop_limit interp' = 50
    ∧ innermost_end interp' = 100.
Proof. eexists. repeat split. Qed.

(** ** The store action *)

Section ActionFacts.

Variable respond : list call -> call -> reply.
Variable str_sanitize : string -> Z -> string.
Variable MAIL_ERROR_NOTFOUND : Z.
Variable ns_storage : Z -> Z.
Variable ns_list : Z -> Z.

Lemma char_code_inj c1 c2 : char_code c1 = char_code c2 → c1 = c2.
Proof.
  unfold char_code. intros H. apply N2Z.inj in H.
  rewrite <- (ascii_N_embedding c1), <- (ascii_N_embedding c2). by rewrite H.
Qed.

Lemma char_code_range c : 0 ≤ char_code c < 256.
Proof.
  unfold char_code. pose proof (N_ascii_bounded c) as H. lia.
Qed.

Lemma tolower_zero c : 0 ≤ c → (tolower c = 0 ↔ c = 0).
Proof.
  intros Hc. unfold tolower.
  destruct ((65 <=? c) && (c <=? 90)) eqn:E; [|done].
  apply andb_true_iff in E as [E1 E2]. lia.
Qed.

Lemma strcmp_zero s1 : ∀ s2,
  is_c_string s1 → is_c_string s2 → (strcmp s1 s2 = 0 ↔ s1 = s2).
Proof.
  induction s1 as [|c1 s1 IH]; intros [|c2 s2] H1 H2; simpl in *.
  - done.
  - destruct H2 as [Hc _]. split; [lia | done].
  - destruct H1 as [Hc _]. split; [lia | done].
  - destruct H1 as [Hc1 H1], H2 as [Hc2 H2].
    destruct (char_code c1 =? char_code c2) eqn:E.
    + apply Z.eqb_eq, char_code_inj in E. subst c2.
      rewrite (IH s2 H1 H2). split; [by intros -> | by intros [= ->]].
    + apply Z.eqb_neq in E. split; [lia | intros [= -> _]; done].
Qed.

Lemma strcasecmp_zero s1 : ∀ s2,
  is_c_string s1 → is_c_string s2 →
  (strcasecmp s1 s2 = 0 ↔ lower_codes s1 = lower_codes s2).
Proof.
  induction s1 as [|c1 s1 IH]; intros [|c2 s2] H1 H2; simpl in *.
  - done.
  - destruct H2 as [Hc _]. pose proof (char_code_range c2).
    pose proof (tolower_zero (char_code c2)). split; [lia | done].
  - destruct H1 as [Hc _]. pose proof (char_code_range c1).
    pose proof (tolower_zero (char_code c1)). split; [lia | done].
  - destruct H1 as [Hc1 H1], H2 as [Hc2 H2].
    destruct (tolower (char_code c1) =? tolower (char_code c2)) eqn:E.
    + apply Z.eqb_eq in E. rewrite (IH s2 H1 H2), E.
      split; [by intros -> | by intros [= ->]].
    + apply Z.eqb_neq in E. split; [lia | intros [= ? _]; done].
Qed.

Lemma is_c_string_INBOX : is_c_string "INBOX".
Proof. simpl. repeat split; done. Qed.

(** C7.  Two store actions are equal exactly when their mailbox names
    (the default mailbox of the script environment standing in for a NULL
    context or a NULL action) are the same string, or are both INBOX up to
    the case of the letters; [act_store_check_duplicate] answers 1 in that
    case, 0 otherwise, and so never a negative conflict code. *)
Theorem act_store_equals_same_mailbox (senv : sieve_script_env)
    (act1 act2 : option sieve_action) :
  is_c_string (store_mailbox senv act1) →
  is_c_string (store_mailbox senv act2) →
  (act_store_equals senv act1 act2 = true ↔
     store_mailbox senv act1 = store_mailbox senv act2
     ∨ (is_inbox (store_mailbox senv act1) ∧ is_inbox (store_mailbox senv act2)))
  ∧ (act_store_check_duplicate senv act1 act2 = 1 ↔
       act_store_equals senv act1 act2 = true)
  ∧ (act_store_check_duplicate senv act1 act2 = 0 ↔
       act_store_equals senv act1 act2 = false)
  ∧ 0 ≤ act_store_check_duplicate senv act1 act2.
Proof.
  intros H1 H2.
  assert (Heq : act_store_equals senv act1 act2 =
                if strcmp (store_mailbox senv act1) (store_mailbox senv act2) =? 0
                then true
                else (strcasecmp (store_mailbox senv act1) "INBOX" =? 0)
                     && (strcasecmp (store_mailbox senv act2) "INBOX" =? 0)).
  { unfold act_store_equals, store_mailbox in *.
    destruct act1 as [[[c1|]]|], act2 as [[[c2|]]|]; simpl in *; try reflexivity;
      by rewrite (proj2 (strcmp_zero _ _ H1 H1) eq_refl). }
  split; [|unfold act_store_check_duplicate;
           destruct (act_store_equals senv act1 act2); repeat split; done].
  rewrite Heq. unfold is_inbox.
  rewrite <- (strcmp_zero _ _ H1 H2).
  rewrite <- (strcasecmp_zero _ _ H1 is_c_string_INBOX).
  rewrite <- (strcasecmp_zero _ _ H2 is_c_string_INBOX).
  destruct (strcmp _ _ =? 0) eqn:E.
  - apply Z.eqb_eq in E. split; [by left | done].
  - apply Z.eqb_neq in E. rewrite andb_true_iff, !Z.eqb_eq.
    split; [by right | intros [?|?]; done].
Qed.

Lemma act_store_equals_same_mailbox_witness :
  let senv := {| namespaces := 0; default_mailbox := None; username := "u";
                 mailbox_autocreate := false; mailbox_autosubscribe := false;
                 has_duplicate_check := false; has_duplicate_mark := false |} in
  let act := Some {| context := Some {| mailbox := "inbox" |} |} in
  act_store_equals senv act None = true ↔
    store_mailbox senv act = store_mailbox senv None
    ∨ (is_inbox (store_mailbox senv act) ∧ is_inbox (store_mailbox senv None)).
Proof.
  intros senv act.
  refine (proj1 (act_store_equals_same_mailbox senv act None _ _));
    simpl; repeat split; done.
Defined.

(** C8.  Without mail namespaces the store action starts as disabled and
    succeeds without a call to the mail storage; executing it makes no
    call either and succeeds; the commit logs the store as skipped, makes
    no other call, leaves the execution status alone and succeeds. *)
Theorem act_store_disabled_without_namespaces (action : sieve_action)
    (aenv : sieve_action_exec_env) (w : world) (keep : bool) :
  namespaces (scriptenv aenv) = 0 →
  ∃ trans,
    act_store_start respond MAIL_ERROR_NOTFOUND ns_storage ns_list action aenv w
      = (true, trans, w)
    ∧ tr_disabled trans = true
    ∧ act_store_execute respond ns_storage aenv w (Some trans)
      = (true, Some trans, w)
    ∧ ∃ w', act_store_commit respond str_sanitize ns_storage aenv w (Some trans) keep
            = (true, false, Some trans, w')
      ∧ calls w' = calls w ++
          [sieve_result_log "store into mailbox '%s' skipped"
             (str_sanitize (mailbox (tr_ctx trans)) 128)]
      ∧ exec_status w' = exec_status w.
Proof.
  intros Hns. unfold act_store_start. rewrite Hns. simpl.
  rewrite orb_false_r, orb_true_r.
  eexists. split; [reflexivity|]. split; [reflexivity|].
  split; [reflexivity|]. eexists. split; [reflexivity|]. split; reflexivity.
Qed.

(** C10.  When either callback is missing, the duplicate check answers 0
    and the mark does nothing, neither making a call; a call to a
    callback is made only when both are present, which is what
    [sieve_action_duplicate_check_available] reports. *)
Theorem duplicate_callbacks_used_as_pair (senv : sieve_script_env) (w : world)
    (id : list Z) (id_size time : Z) :
  (has_duplicate_check senv = false ∨ has_duplicate_mark senv = false →
     sieve_action_duplicate_check respond senv w id id_size = (0, w)
     ∧ sieve_action_duplicate_mark respond senv w id id_size time = w
     ∧ sieve_action_duplicate_check_available senv = false)
  ∧ (sieve_action_duplicate_check_available senv = true →
       sieve_action_duplicate_check respond senv w id id_size
         = (r_val (respond (calls w) (duplicate_check id id_size (username senv))),
            {| calls := calls w ++ [duplicate_check id id_size (username senv)];
               exec_status := exec_status w |})
       ∧ sieve_action_duplicate_mark respond senv w id id_size time
         = {| calls := calls w ++ [duplicate_mark id id_size (username senv) time];
              exec_status := exec_status w |}).
Proof.
  unfold sieve_action_duplicate_check, sieve_action_duplicate_mark,
    sieve_action_duplicate_check_available.
  destruct (has_duplicate_check senv), (has_duplicate_mark senv); simpl;
    (split; [intros [?|?] | intros ?]); try discriminate;
    repeat split; reflexivity.
Qed.

End ActionFacts.

Lemma act_store_disabled_without_namespaces_witness :
  let senv := {| namespaces := 0; default_mailbox := Some "Work"%string;
                 username := "u";
                 mailbox_autocreate := true; mailbox_autosubscribe := false;
                 has_duplicate_check := false; has_duplicate_mark := false |} in
  let aenv := {| scriptenv := senv;
                 msgdata := {| msg_mail := 1; msg_mail_box := 2 |} |} in
  let w := {| calls := [];
              exec_status := {| last_storage := 0; tried_default_save := false;
                                keep_original := false; message_saved := false |} |} in
  ∃ trans,
    act_store_start quiet_storage 6 id id
      {| context := None |} aenv w = (true, trans, w)
    ∧ tr_disabled trans = true.
Proof.
  intros senv aenv w.
  destruct (act_store_disabled_without_namespaces quiet_storage (fun s _ => s) 6 id id
              {| context := None |} aenv w true)
    as (trans & Hs & Hd & _); [reflexivity|].
  exists trans. split; assumption.
Defined.

(** ** Reading from the code of a block *)

Lemma array_at_Done {A : Type} (a : list A) (i : Z) (d : A) :
  0 ≤ i < Z.of_nat (length a) → array_at a i = Done (nth (Z.to_nat i) a d).
Proof.
  intros Hi. unfold array_at.
  replace ((0 <=? i) && (i <? Z.of_nat (length a))) with true
    by (symmetry; apply andb_true_iff; split; [apply Z.leb_le|apply Z.ltb_lt]; lia).
  destruct (a !! Z.to_nat i) eqn:E.
  - by rewrite (nth_lookup_Some _ _ d _ E).
  - apply lookup_ge_None in E. lia.
Qed.


Section CodeFacts.

Variable sizeof_sieve_size_t : Z.

Local Abbreviation size_t := (to_sieve_size_t sizeof_sieve_size_t).
Local Abbreviation width := (sieve_size_bits sizeof_sieve_size_t).

Lemma to_sieve_size_t_small x : 0 ≤ x < 2 ^ width → size_t x = x.
Proof. intros H. unfold to_sieve_size_t. by apply Z.mod_small. Qed.

Lemma unsigned_char_range c : 0 ≤ unsigned_char c < 256.
Proof. unfold unsigned_char. apply Z.mod_pos_bound. lia. Qed.

Lemma ADDR_DATA_AT_inside binary bytes address :
  code_view sizeof_sieve_size_t binary bytes → 0 ≤ address < Z.of_nat (length bytes) →
  ADDR_DATA_AT binary address
    = Done (unsigned_char (nth (Z.to_nat address) bytes 0)).
Proof.
  intros (Hb & _) Ha. unfold ADDR_DATA_AT, ADDR_CODE_AT. rewrite Hb. simpl.
  by rewrite (array_at_Done _ _ 0 Ha).
Qed.

Lemma ADDR_BYTES_LEFT_inside binary bytes address :
  code_view sizeof_sieve_size_t binary bytes → 0 ≤ address ≤ code_size binary →
  ADDR_BYTES_LEFT sizeof_sieve_size_t binary address = code_size binary - address.
Proof.
  intros (_ & Hs & Hw) Ha. unfold ADDR_BYTES_LEFT.
  apply to_sieve_size_t_small. lia.
Qed.

(** When fewer than four bytes are left the offset is not read. *)
Lemma sieve_binary_read_offset_short binary bytes address :
  code_view sizeof_sieve_size_t binary bytes → 0 ≤ address ≤ code_size binary →
  code_size binary - address < 4 →
  sieve_binary_read_offset sizeof_sieve_size_t binary address
    = Done (false, address, 0).
Proof.
  intros Hv Ha Hl. unfold sieve_binary_read_offset.
  rewrite (ADDR_BYTES_LEFT_inside _ _ _ Hv Ha).
  destruct (code_size binary - address >=? 4) eqn:E; [|done].
  apply Z.geb_le in E. lia.
Qed.

(** With four bytes left the offset read is the big-endian two's
    complement value of the four bytes, and the address moves past them. *)
Lemma sieve_binary_read_offset_decodes binary bytes address :
  code_view sizeof_sieve_size_t binary bytes → 0 ≤ address →
  4 ≤ code_size binary - address →
  sieve_binary_read_offset sizeof_sieve_size_t binary address
    = Done (true, address + 4, decode_offset bytes address).
Proof.
  intros Hv Ha Hl. pose proof Hv as (Hb & Hs & Hw).
  unfold sieve_binary_read_offset.
  rewrite (ADDR_BYTES_LEFT_inside _ _ _ Hv) by lia.
  replace (code_size binary - address >=? 4) with true
    by (symmetry; apply Z.geb_le; lia).
  assert (Hstep : ∀ i, 0 ≤ i < 4 → size_t (address + i + 1) = address + i + 1)
    by (intros i Hi; apply to_sieve_size_t_small; lia).
  assert (Hrd : ∀ i, 0 ≤ i < 4 → ADDR_DATA_AT binary (address + i)
                 = Done (unsigned_char (nth (Z.to_nat (address + i)) bytes 0)))
    by (intros i Hi; apply (ADDR_DATA_AT_inside _ _ _ Hv); lia).
  pose proof (Hrd 0 ltac:(lia)) as R0. rewrite Z.add_0_r in R0.
  pose proof (Hstep 0 ltac:(lia)) as S0. rewrite Z.add_0_r in S0.
  cbn [read_offset_for]. rewrite R0. simpl mbind. cbn beta iota. rewrite S0.
  rewrite (Hrd 1 ltac:(lia)). simpl mbind. cbn beta iota. rewrite (Hstep 1 ltac:(lia)).
  replace (address + 1 + 1) with (address + 2) by lia.
  rewrite (Hrd 2 ltac:(lia)). simpl mbind. cbn beta iota. rewrite (Hstep 2 ltac:(lia)).
  replace (address + 2 + 1) with (address + 3) by lia.
  rewrite (Hrd 3 ltac:(lia)). simpl mbind. cbn beta iota. rewrite (Hstep 3 ltac:(lia)).
  replace (address + 3 + 1) with (address + 4) by lia.
  unfold decode_offset, int_of_uint32. rewrite Z.add_0_r.
  pose proof (unsigned_char_range (nth (Z.to_nat address) bytes 0)) as B0.
  pose proof (unsigned_char_range (nth (Z.to_nat (address + 1)) bytes 0)) as B1.
  pose proof (unsigned_char_range (nth (Z.to_nat (address + 2)) bytes 0)) as B2.
  pose proof (unsigned_char_range (nth (Z.to_nat (address + 3)) bytes 0)) as B3.
  set (b0 := unsigned_char (nth (Z.to_nat address) bytes 0)) in *.
  set (b1 := unsigned_char (nth (Z.to_nat (address + 1)) bytes 0)) in *.
  set (b2 := unsigned_char (nth (Z.to_nat (address + 2)) bytes 0)) in *.
  set (b3 := unsigned_char (nth (Z.to_nat (address + 3)) bytes 0)) in *.
  rewrite !Z.shiftl_mul_pow2 by lia.
  change (2 ^ 8) with 256. change (2 ^ 32) with 4294967296.
  change (2 ^ 24) with 16777216. change (2 ^ 16) with 65536.
  change (2 ^ 31) with 2147483648.
  rewrite (Z.mod_small (0 * 256 + b0)) by lia.
  rewrite (Z.mod_small ((0 * 256 + b0) * 256 + b1)) by lia.
  rewrite (Z.mod_small (((0 * 256 + b0) * 256 + b1) * 256 + b2)) by lia.
  rewrite (Z.mod_small ((((0 * 256 + b0) * 256 + b1) * 256 + b2) * 256 + b3)) by lia.
  replace ((((0 * 256 + b0) * 256 + b1) * 256 + b2) * 256 + b3)
    with (b0 * 16777216 + b1 * 65536 + b2 * 256 + b3) by lia.
  reflexivity.
Qed.

Lemma decode_offset_range bytes address :
  - 2 ^ 31 ≤ decode_offset bytes address < 2 ^ 31.
Proof.
  unfold decode_offset.
  pose proof (unsigned_char_range (nth (Z.to_nat (address + 0)) bytes 0)) as B0.
  pose proof (unsigned_char_range (nth (Z.to_nat (address + 1)) bytes 0)) as B1.
  pose proof (unsigned_char_range (nth (Z.to_nat (address + 2)) bytes 0)) as B2.
  pose proof (unsigned_char_range (nth (Z.to_nat (address + 3)) bytes 0)) as B3.
  change (2 ^ 32) with 4294967296.
  change (2 ^ 24) with 16777216. change (2 ^ 16) with 65536.
  change (2 ^ 31) with 2147483648. change (2 ^ 8) with 256.
  destruct (_ <? _) eqn:E; [apply Z.ltb_lt in E | apply Z.ltb_ge in E]; lia.
Qed.

End CodeFacts.

(** ** The varint codec: what is emitted is read back *)

Lemma byte_cases (P : Z → bool) :
  forallb P (map Z.of_nat (seq 0 256)) = true →
  ∀ d, 0 ≤ d < 256 → P d = true.
Proof.
  intros H d Hd. rewrite forallb_forall in H. apply H.
  apply in_map_iff. exists (Z.to_nat d). split; [lia|].
  apply in_seq. lia.
Qed.

Lemma group_byte_facts g :
  0 ≤ g < 128 →
  unsigned_char (Z.lor g 0x80) = g + 0x80
  ∧ (Z.land (g + 0x80) 0x80 >? 0) = true
  ∧ Z.land (g + 0x80) 0x7F = g
  ∧ (Z.land g 0x80 >? 0) = false
  ∧ Z.land g 0x7F = g.
Proof.
  intros Hg.
  pose proof (byte_cases
    (fun g => (128 <=? g)
              || ((unsigned_char (Z.lor g 0x80) =? g + 0x80)
                  && (Z.land (g + 0x80) 0x80 >? 0)
                  && (Z.land (g + 0x80) 0x7F =? g)
                  && negb (Z.land g 0x80 >? 0)
                  && (Z.land g 0x7F =? g)))
    ltac:(vm_compute; reflexivity) g ltac:(lia)) as H.
  cbv beta in H. apply orb_true_iff in H as [H|H]; [apply Z.leb_le in H; lia|].
  repeat (apply andb_true_iff in H as [H ?]).
  repeat split; try (by apply Z.eqb_eq); try done.
  by apply negb_true_iff.
Qed.

Lemma low_group_range x : 0 ≤ Z.land x 0x7F < 128.
Proof.
  change 0x7F with (Z.ones 7). rewrite Z.land_ones by lia.
  apply Z.mod_pos_bound. lia.
Qed.

Lemma split_low_group x : x = Z.shiftr x 7 * 128 + Z.land x 0x7F.
Proof.
  change 0x7F with (Z.ones 7). rewrite Z.land_ones, Z.shiftr_div_pow2 by lia.
  change (2 ^ 7) with 128. pose proof (Z.div_mod x 128). lia.
Qed.

Lemma shiftr_7_bounds x : 0 ≤ x → 0 ≤ Z.shiftr x 7 ∧ Z.shiftr x 7 * 128 ≤ x.
Proof.
  intros Hx. pose proof (split_low_group x). pose proof (low_group_range x).
  split; [apply Z.shiftr_nonneg; lia | lia].
Qed.

Lemma lor_low_group a g : 0 ≤ a → 0 ≤ g < 128 → Z.lor (a * 128) g = a * 128 + g.
Proof.
  intros Ha Hg.
  assert (Z.land (a * 128) g = 0) as Hl.
  { apply Z.bits_inj'. intros i Hi. rewrite Z.land_spec, Z.bits_0.
    destruct (Z_lt_dec i 7).
    - change 128 with (2 ^ 7). rewrite Z.mul_pow2_bits_low by lia. done.
    - destruct (Z.eq_dec g 0) as [->|]; [by rewrite Z.bits_0, andb_false_r|].
      rewrite (Z.bits_above_log2 g i), andb_false_r; [done|lia|].
      assert (Z.log2 g < 7) by (apply Z.log2_lt_pow2; lia). lia. }
  by rewrite <- Z.lxor_lor, <- Z.add_nocarry_lxor.
Qed.

Lemma varint_high_groups_range fuel : ∀ x,
  Forall (fun g => 0 ≤ g < 128) (varint_high_groups fuel x).
Proof.
  induction fuel as [|fuel IH]; intros x; simpl; [by apply Forall_nil|].
  destruct (x >? 0); [|by apply Forall_nil].
  apply Forall_app. split; [apply IH|].
  apply Forall_cons. split; [apply low_group_range | by apply Forall_nil].
Qed.

(** The groups above the lowest one stand for at least 2^(7(k-1)). *)
Lemma varint_high_groups_lower_bound fuel : ∀ x,
  varint_high_groups fuel x ≠ [] →
  2 ^ (7 * (Z.of_nat (length (varint_high_groups fuel x)) - 1)) ≤ x.
Proof.
  induction fuel as [|fuel IH]; intros x; simpl; [done|].
  destruct (x >? 0) eqn:E; [|done]. apply Z.gtb_lt in E. intros _.
  rewrite length_app. simpl length.
  destruct (varint_high_groups fuel (Z.shiftr x 7)) as [|g gs] eqn:G.
  - simpl. lia.
  - specialize (IH (Z.shiftr x 7)). rewrite G in IH. specialize (IH ltac:(done)).
    pose proof (shiftr_7_bounds x ltac:(lia)) as [_ Hs].
    replace (7 * (Z.of_nat (length (g :: gs) + 1) - 1))
      with (7 * (Z.of_nat (length (g :: gs)) - 1) + 7) by lia.
    rewrite Z.pow_add_r by (simpl length; lia). change (2 ^ 7) with 128. lia.
Qed.

Lemma read_groups_app acc gs g :
  read_groups acc (gs ++ [g]) = (read_groups acc gs + g) * 128.
Proof. unfold read_groups. by rewrite fold_left_app. Qed.

Lemma read_groups_high fuel : ∀ x,
  0 ≤ x < 2 ^ (7 * Z.of_nat fuel) →
  read_groups 0 (varint_high_groups fuel x) = x * 128.
Proof.
  induction fuel as [|fuel IH]; intros x Hx.
  - simpl in *. assert (x = 0) by lia. by subst.
  - simpl. destruct (x >? 0) eqn:E.
    + pose proof (shiftr_7_bounds x ltac:(lia)) as [H0 Hs].
      rewrite read_groups_app, IH, <- split_low_group; [done|].
      split; [done|].
      replace (7 * Z.of_nat (S fuel)) with (7 * Z.of_nat fuel + 7) in Hx by lia.
      rewrite Z.pow_add_r in Hx by lia. change (2 ^ 7) with 128 in Hx.
      assert (0 < 2 ^ (7 * Z.of_nat fuel)) by (apply Z.pow_pos_nonneg; lia).
      nia.
    + assert (x = 0) by (rewrite Z.gtb_ltb in E; apply Z.ltb_ge in E; lia).
      by subst.
Qed.

Lemma read_groups_mono gs : ∀ acc rest,
  0 ≤ acc → Forall (fun g => 0 ≤ g < 128) (gs ++ rest) →
  0 ≤ read_groups acc gs ≤ read_groups acc (gs ++ rest).
Proof.
  intros acc rest Hacc Hall. unfold read_groups. rewrite fold_left_app.
  apply Forall_app in Hall as [Hgs Hrest].
  assert (Hnn : ∀ l a, 0 ≤ a → Forall (fun g => 0 ≤ g < 128) l →
                 a ≤ fold_left (fun a g => (a + g) * 128) l a).
  { induction l as [|g l IHl]; intros a Ha Hl; simpl; [lia|].
    apply Forall_cons in Hl as [Hg Hl].
    specialize (IHl ((a + g) * 128) ltac:(lia) Hl). lia. }
  split.
  - specialize (Hnn gs acc Hacc Hgs). lia.
  - apply Hnn; [|done]. specialize (Hnn gs acc Hacc Hgs). lia.
Qed.

Lemma array_set_last_zero (p : Z) (suf : list Z) (g : Z) :
  0 ≤ p →
  array_set (replicate (Z.to_nat (p + 1)) 0 ++ suf) p g
    = Done (replicate (Z.to_nat p) 0 ++ g :: suf).
Proof.
  intros Hp. unfold array_set.
  replace ((0 <=? p) && (p <? Z.of_nat (length (replicate (Z.to_nat (p + 1)) 0 ++ suf))))
    with true
    by (symmetry; apply andb_true_iff; rewrite length_app, length_replicate;
        split; [apply Z.leb_le | apply Z.ltb_lt]; lia).
  f_equal. replace (Z.to_nat (p + 1)) with (S (Z.to_nat p)) by lia.
  rewrite replicate_S_end, <- app_assoc. simpl.
  rewrite insert_app_r_alt by (rewrite length_replicate; lia).
  rewrite length_replicate, Nat.sub_diag. done.
Qed.

(** The [while] loop of the emitter writes the groups above the lowest one
    in front of what the buffer holds. *)
Lemma emit_integer_while_groups fuel : ∀ x p suf,
  0 ≤ x < 2 ^ (7 * Z.of_nat fuel) → -1 ≤ p →
  Z.of_nat (length (varint_high_groups fuel x)) ≤ p + 1 →
  emit_integer_while fuel (replicate (Z.to_nat (p + 1)) 0 ++ suf) p x
    = Done (replicate (Z.to_nat (p + 1) - length (varint_high_groups fuel x)) 0
              ++ varint_high_groups fuel x ++ suf,
            p - Z.of_nat (length (varint_high_groups fuel x))).
Proof.
  induction fuel as [|fuel IH]; intros x p suf Hx Hp Hlen.
  - simpl in *. assert (x = 0) by lia. subst. simpl.
    by rewrite Nat.sub_0_r, Z.sub_0_r.
  - cbn [emit_integer_while varint_high_groups] in *.
    destruct (x >? 0) eqn:E; [|simpl; by rewrite Nat.sub_0_r, Z.sub_0_r].
    rewrite length_app in Hlen. simpl length in Hlen.
    pose proof (shiftr_7_bounds x ltac:(lia)) as [H0 Hs].
    rewrite array_set_last_zero by lia. simpl mbind. cbn beta.
    replace (Z.to_nat p) with (Z.to_nat (p - 1 + 1)) by lia.
    rewrite IH; [| |lia|lia].
    + rewrite length_app. simpl length. f_equal. f_equal.
      * rewrite <- !app_assoc. simpl. f_equal. f_equal. lia.
      * lia.
    + split; [done|].
      replace (7 * Z.of_nat (S fuel)) with (7 * Z.of_nat fuel + 7) in Hx by lia.
      rewrite Z.pow_add_r in Hx by lia. change (2 ^ 7) with 128 in Hx.
      assert (0 < 2 ^ (7 * Z.of_nat fuel)) by (apply Z.pow_pos_nonneg; lia).
      nia.
Qed.

(** The [for] loop of the emitter sets the continuation bit of the groups
    it runs over. *)
Lemma emit_integer_for_groups groups : ∀ pre suf,
  Forall (fun g => 0 ≤ g < 128) groups →
  emit_integer_for (length groups) (pre ++ groups ++ suf) (Z.of_nat (length pre))
    = Done (pre ++ map (fun g => g + 0x80) groups ++ suf).
Proof.
  induction groups as [|g groups IH]; intros pre suf Hall; [done|].
  apply Forall_cons in Hall as [Hg Hall]. cbn [length emit_integer_for].
  rewrite (array_at_Done _ _ 0) by (rewrite length_app; simpl; lia).
  rewrite Nat2Z.id. simpl app. rewrite nth_middle. simpl mbind. cbn beta.
  unfold array_set.
  replace ((0 <=? Z.of_nat (length pre))
           && (Z.of_nat (length pre) <? Z.of_nat (length (pre ++ g :: groups ++ suf))))
    with true
    by (symmetry; apply andb_true_iff; rewrite length_app; simpl;
        split; [apply Z.leb_le | apply Z.ltb_lt]; lia).
  simpl mbind. cbn beta. rewrite Nat2Z.id.
  rewrite insert_app_r_alt, Nat.sub_diag by lia. simpl.
  destruct (group_byte_facts g Hg) as (-> & _).
  replace (Z.of_nat (length pre) + 1) with (Z.of_nat (length (pre ++ [g + 128])))
    by (rewrite length_app; simpl; lia).
  replace (pre ++ g + 128 :: groups ++ suf) with ((pre ++ [g + 128]) ++ groups ++ suf)
    by (by rewrite <- app_assoc).
  rewrite IH by done. by rewrite <- app_assoc.
Qed.

Section VarintFacts.

Variable sizeof_sieve_size_t : Z.
Hypothesis sizeof_positive : 1 ≤ sizeof_sieve_size_t.

Local Abbreviation size_t := (to_sieve_size_t sizeof_sieve_size_t).
Local Abbreviation width := (sieve_size_bits sizeof_sieve_size_t).
Local Abbreviation fuel := (Z.to_nat (sieve_size_bits sizeof_sieve_size_t)).

Lemma width_eq : width = sizeof_sieve_size_t * 8.
Proof. reflexivity. Qed.

Lemma pow_width_large : sizeof_sieve_size_t + 1 < 2 ^ width.
Proof.
  unfold sieve_size_bits.
  assert (sizeof_sieve_size_t * 8 < 2 ^ (sizeof_sieve_size_t * 8))
    by (apply Z.pow_gt_lin_r; lia).
  lia.
Qed.

Lemma fuel_covers x : 0 ≤ x < 2 ^ width → 0 ≤ x < 2 ^ (7 * Z.of_nat fuel).
Proof.
  unfold sieve_size_bits. intros Hx. split; [lia|]. rewrite Z2Nat.id by lia.
  eapply Z.lt_le_trans; [apply Hx|]. apply Z.pow_le_mono_r; lia.
Qed.

(** The number of groups above the lowest one of a value below [2^m]. *)
Lemma high_groups_count x m :
  0 ≤ x < 2 ^ m → 7 ≤ m →
  7 * Z.of_nat (length (varint_high_groups fuel (Z.shiftr x 7))) < m.
Proof.
  intros Hx Hm.
  destruct (varint_high_groups fuel (Z.shiftr x 7)) as [|g gs] eqn:G; [simpl; lia|].
  pose proof (varint_high_groups_lower_bound fuel (Z.shiftr x 7)) as Hlow.
  rewrite G in Hlow. specialize (Hlow ltac:(done)).
  pose proof (shiftr_7_bounds x ltac:(lia)) as [H0 Hs].
  set (k := Z.of_nat (length (g :: gs))) in *.
  assert (1 ≤ k) by (subst k; simpl length; lia).
  destruct (Z_lt_dec (7 * k) m); [done|].
  assert (2 ^ m ≤ 2 ^ (7 * (k - 1)) * 128).
  { change 128 with (2 ^ 7). rewrite <- Z.pow_add_r by lia.
    apply Z.pow_le_mono_r; lia. }
  lia.
Qed.

(** What [sieve_binary_emit_integer] appends to the active buffer. *)
Lemma sieve_binary_emit_integer_bytes binary b old x :
  data binary = Some b → buffers binary !! b = Some old →
  0 ≤ x < 2 ^ width → x < 2 ^ (7 * (sizeof_sieve_size_t + 1)) →
  sieve_binary_emit_integer sizeof_sieve_size_t binary x
    = Done (Z.of_nat (length old),
            set_buffers binary (<[b := old ++ varint_bytes fuel x]> (buffers binary))).
Proof.
  intros Hd Hb Hx Hfit. unfold sieve_binary_emit_integer.
  rewrite to_sieve_size_t_small by done.
  replace (sizeof_sieve_size_t + 1 - 1) with sizeof_sieve_size_t by lia.
  replace (Z.to_nat (sizeof_sieve_size_t + 1))
    with (Z.to_nat (sizeof_sieve_size_t + 1)) by done.
  pose proof (array_set_last_zero sizeof_sieve_size_t [] (Z.land x 0x7F) ltac:(lia)) as Hset.
  rewrite app_nil_r in Hset. rewrite Hset. simpl mbind. cbn beta. clear Hset.
  pose proof (shiftr_7_bounds x ltac:(lia)) as [H0 Hs].
  set (groups := varint_high_groups fuel (Z.shiftr x 7)).
  assert (Hcount : 7 * Z.of_nat (length groups) < 7 * (sizeof_sieve_size_t + 1)).
  { destruct (Z_lt_dec x 128).
    - apply (high_groups_count x (7 * (sizeof_sieve_size_t + 1))); lia.
    - apply (high_groups_count x (7 * (sizeof_sieve_size_t + 1))); lia. }
  replace (Z.to_nat sizeof_sieve_size_t) with (Z.to_nat (sizeof_sieve_size_t - 1 + 1)) by lia.
  rewrite emit_integer_while_groups;
    [|apply fuel_covers; lia|lia|fold groups; lia].
  fold groups. simpl mbind. cbn beta iota.
  set (k := length groups) in *.
  replace (sizeof_sieve_size_t - 1 - Z.of_nat k + 1) with (sizeof_sieve_size_t - Z.of_nat k) by lia.
  replace (sizeof_sieve_size_t + 1 - (sizeof_sieve_size_t - Z.of_nat k)) with (Z.of_nat k + 1) by lia.
  replace (sizeof_sieve_size_t + 1 - 1 - (sizeof_sieve_size_t - Z.of_nat k)) with (Z.of_nat k) by lia.
  pose proof pow_width_large as Hlarge.
  rewrite to_sieve_size_t_small by lia.
  set (zeros := replicate (Z.to_nat (sizeof_sieve_size_t - 1 + 1) - k) 0).
  assert (Hz : Z.of_nat (length zeros) = sizeof_sieve_size_t - Z.of_nat k)
    by (subst zeros; rewrite length_replicate; lia).
  assert (Hfor : (if Z.of_nat k + 1 >? 1
                  then emit_integer_for (Z.to_nat (Z.of_nat k))
                         (zeros ++ groups ++ [Z.land x 127]) (sizeof_sieve_size_t - Z.of_nat k)
                  else Done (zeros ++ groups ++ [Z.land x 127]))
                 = Done (zeros ++ map (fun g => g + 0x80) groups ++ [Z.land x 127])).
  { destruct (Z.of_nat k + 1 >? 1) eqn:E.
    - rewrite Nat2Z.id, <- Hz. subst k.
      apply emit_integer_for_groups, varint_high_groups_range.
    - rewrite Z.gtb_ltb in E. apply Z.ltb_ge in E.
      assert (k = O) by lia. destruct groups; [done|simpl in *; lia]. }
  replace (sizeof_sieve_size_t - (sizeof_sieve_size_t - Z.of_nat k)) with (Z.of_nat k) by lia.
  rewrite Hfor. simpl mbind. cbn beta.
  unfold array_slice.
  replace ((0 <=? sizeof_sieve_size_t - Z.of_nat k) && (0 <=? Z.of_nat k + 1)
           && (sizeof_sieve_size_t - Z.of_nat k + (Z.of_nat k + 1)
               <=? Z.of_nat (length (zeros ++ map (fun g => g + 128) groups ++ [Z.land x 127]))))
    with true
    by (symmetry; rewrite !andb_true_iff, !Z.leb_le, !length_app, length_map;
        simpl length; fold k; lia).
  simpl mbind. cbn beta.
  replace (Z.to_nat (sizeof_sieve_size_t - Z.of_nat k)) with (length zeros) by lia.
  rewrite drop_app_length.
  rewrite take_ge by (rewrite length_app, length_map; simpl length; fold k; lia).
  unfold sieve_binary_emit_data, buffer_get_used_size, buffer_append, buffer_deref.
  rewrite Hd, Hb. simpl. done.
Qed.

(** The loop budgets of the model are never used up. *)
Lemma emit_integer_while_has_fuel fl : ∀ buffer p x,
  0 ≤ x < 2 ^ (7 * Z.of_nat fl) → emit_integer_while fl buffer p x ≠ NoFuel.
Proof.
  induction fl as [|fl IH]; intros buffer p x Hx; simpl.
  - simpl in Hx. by replace (x >? 0) with false by (symmetry; rewrite Z.gtb_ltb; apply Z.ltb_ge; lia).
  - destruct (x >? 0) eqn:E; [|done].
    destruct (array_set buffer p (Z.land x 127)) as [buffer1| | |] eqn:Hset;
      simpl; try done.
    + apply IH. pose proof (shiftr_7_bounds x ltac:(lia)) as [H0 Hs].
      split; [done|].
      replace (7 * Z.of_nat (S fl)) with (7 * Z.of_nat fl + 7) in Hx by lia.
      rewrite Z.pow_add_r in Hx by lia. change (2 ^ 7) with 128 in Hx.
      assert (0 < 2 ^ (7 * Z.of_nat fl)) by (apply Z.pow_pos_nonneg; lia).
      nia.
    + unfold array_set in Hset. by destruct (_ && _).
Qed.

Lemma read_integer_while_has_fuel fl : ∀ binary address integer bits,
  bits ≤ Z.of_nat fl →
  read_integer_while sizeof_sieve_size_t fl binary address integer bits ≠ NoFuel.
Proof.
  assert (Hdata : ∀ binary address, ADDR_DATA_AT binary address ≠ NoFuel).
  { intros binary address. unfold ADDR_DATA_AT, ADDR_CODE_AT, buffer_deref, array_at.
    destruct (code binary) as [c|]; [|done].
    destruct (buffers binary !! c) as [bytes|]; [|done]. simpl.
    destruct (_ && _); [|done]. by destruct (bytes !! _). }
  induction fl as [|fl IH]; intros binary address integer bits Hbits;
    cbn [read_integer_while];
    specialize (Hdata binary address);
    destruct (ADDR_DATA_AT binary address) as [d| | |]; simpl; try done.
  - destruct (Z.land d 128 >? 0); [|done].
    replace (bits >? 0) with false
      by (symmetry; rewrite Z.gtb_ltb; apply Z.ltb_ge; simpl in Hbits; lia).
    by rewrite andb_false_r.
  - destruct (Z.land d 128 >? 0); [|done].
    destruct (_ && _); [|done]. apply IH. lia.
Qed.

Lemma sieve_binary_read_integer_has_fuel binary address :
  sieve_binary_read_integer sizeof_sieve_size_t binary address ≠ NoFuel.
Proof.
  unfold sieve_binary_read_integer. destruct (_ =? 0); [done|].
  apply read_integer_while_has_fuel. unfold sieve_size_bits. lia.
Qed.

Lemma sieve_binary_emit_integer_has_fuel binary x :
  sieve_binary_emit_integer sizeof_sieve_size_t binary x ≠ NoFuel.
Proof.
  unfold sieve_binary_emit_integer.
  destruct (array_set _ _ _) as [buffer| | |] eqn:Hset; simpl; try done;
    [|unfold array_set in Hset; by destruct (_ && _)].
  assert (0 ≤ size_t x < 2 ^ width) as Hx
    by (unfold to_sieve_size_t; apply Z.mod_pos_bound, Z.pow_pos_nonneg;
        unfold sieve_size_bits; lia).
  pose proof (shiftr_7_bounds (size_t x) ltac:(lia)) as [H0 Hs].
  pose proof (emit_integer_while_has_fuel fuel buffer (sizeof_sieve_size_t + 1 - 1 - 1)
                (Z.shiftr (size_t x) 7) ltac:(apply fuel_covers; lia)) as Hw.
  destruct (emit_integer_while _ _ _ _) as [[buffer1 bufpos]| | |]; simpl; try done.
  assert (Hfor : ∀ n buf i, emit_integer_for n buf i ≠ NoFuel).
  { induction n as [|n IHn]; intros buf i; simpl; [done|].
    unfold array_at, array_set. destruct (_ && _); [|done].
    destruct (buf !! _); simpl; [|done]. apply IHn. }
  destruct (if _ >? 1 then _ else _) as [buffer2| | |] eqn:Hf; simpl; try done.
  - unfold array_slice. destruct (_ && _); simpl; [|done].
    unfold sieve_binary_emit_data, buffer_get_used_size, buffer_append, buffer_deref.
    destruct (data binary) as [b|]; [|done].
    by destruct (buffers binary !! b).
  - destruct (_ >? 1); [by apply Hfor in Hf | done].
Qed.

(** The [while] loop of the reader takes the groups with a continuation
    bit and the one that ends the varint. *)
Lemma read_integer_while_groups binary groups : ∀ pre g0 post a bits fl,
  code_view sizeof_sieve_size_t binary
    (pre ++ map (fun g => g + 0x80) groups ++ g0 :: post) →
  Z.of_nat (length pre + length groups) < code_size binary →
  Forall (fun g => 0 ≤ g < 128) groups → 0 ≤ g0 < 128 → 0 ≤ a →
  read_groups (a * 128) groups + g0 < 2 ^ width →
  7 * Z.of_nat (length groups) < bits → (length groups ≤ fl)%nat →
  read_integer_while sizeof_sieve_size_t fl binary (Z.of_nat (length pre)) (a * 128) bits
    = Done (true, Z.of_nat (length pre + length groups) + 1,
            read_groups (a * 128) groups + g0).
Proof.
  induction groups as [|g groups IH]; intros pre g0 post a bits fl Hv Hin Hall Hg0 Ha Hfit Hbits Hfl.
  - simpl in *. pose proof Hv as (_ & Hs & Hw).
    destruct (group_byte_facts g0 Hg0) as (_ & _ & _ & Hc & Hl).
    destruct fl; cbn [read_integer_while];
      rewrite (ADDR_DATA_AT_inside _ _ _ _ Hv) by (rewrite length_app; simpl; lia);
      rewrite Nat2Z.id, nth_middle; simpl mbind; cbn beta;
      unfold unsigned_char; rewrite (Z.mod_small g0) by lia; rewrite Hc, Hl;
      rewrite lor_low_group by lia; rewrite to_sieve_size_t_small by lia;
      by rewrite Nat.add_0_r.
  - apply Forall_cons in Hall as [Hg Hall].
    pose proof Hv as (_ & Hs & Hw).
    destruct (group_byte_facts g Hg) as (_ & Hc & Hl & _ & _).
    destruct fl as [|fl]; [simpl in Hfl; lia|]. cbn [read_integer_while].
    rewrite (ADDR_DATA_AT_inside _ _ _ _ Hv) by (rewrite length_app; simpl; lia).
    rewrite Nat2Z.id. cbn [map app]. rewrite nth_middle. simpl mbind. cbn beta.
    unfold unsigned_char at 1 2. rewrite (Z.mod_small (g + 128)) by lia.
    rewrite Hc, Hl.
    rewrite (ADDR_BYTES_LEFT_inside _ _ _ _ Hv) by (simpl length in *; lia).
    replace ((code_size binary - Z.of_nat (length pre) >? 0) && (bits >? 0)) with true
      by (symmetry; apply andb_true_iff; split; apply Z.gtb_lt; simpl length in *; lia).
    rewrite lor_low_group by lia.
    pose proof (read_groups_mono [g] (a * 128) groups ltac:(lia)
                  ltac:(apply Forall_cons; split; done)) as Hmono.
    cbn [app] in Hmono. unfold read_groups at 1 2 in Hmono. cbn [fold_left] in Hmono.
    rewrite Z.shiftl_mul_pow2 by lia. change (2 ^ 7) with 128.
    rewrite (to_sieve_size_t_small _ ((a * 128 + g) * 128)) by lia.
    rewrite (to_sieve_size_t_small _ (Z.of_nat (length pre) + 1))
      by (simpl length in *; lia).
    replace (Z.of_nat (length pre) + 1) with (Z.of_nat (length (pre ++ [g + 128])))
      by (rewrite length_app; simpl; lia).
    rewrite (IH (pre ++ [g + 128]) g0 post (a * 128 + g) (bits - 7) fl).
    + f_equal. f_equal. f_equal. rewrite length_app. simpl length. lia.
    + by rewrite <- app_assoc.
    + rewrite length_app. simpl length in *. lia.
    + done.
    + done.
    + lia.
    + done.
    + simpl length in *. lia.
    + simpl length in *. lia.
Qed.

(** X1.  The round trip where the emitter has room: every value below
    2^(7 (sizeof + 1)), which is every value of a 32-bit [sieve_size_t],
    is read back from the address the emitter returns,
    once the block is made active again so that [code] and [code_size]
    cover the new bytes; the address moves just past the varint. *)
Theorem emit_integer_read_back (sbin : sieve_binary) (id : Z)
    (block : sieve_binary_block) (b : nat) (old : list Z) (x : Z) :
  sieve_binary_block_get sbin id = Some block →
  blk_buffer block = Some b → data sbin = Some b → buffers sbin !! b = Some old →
  Z.of_nat (length old) + sizeof_sieve_size_t + 1 < 2 ^ width →
  0 ≤ x < 2 ^ width → x < 2 ^ (7 * (sizeof_sieve_size_t + 1)) →
  ∃ sbin1 sbin2,
    sieve_binary_emit_integer sizeof_sieve_size_t sbin x
      = Done (Z.of_nat (length old), sbin1)
    ∧ buffers sbin1 !! b = Some (old ++ varint_bytes fuel x)
    ∧ sieve_binary_block_set_active sbin1 id = Done (active_block sbin, sbin2)
    ∧ sieve_binary_read_integer sizeof_sieve_size_t sbin2 (Z.of_nat (length old))
      = Done (true, Z.of_nat (length old + length (varint_bytes fuel x)), x).
Proof.
  intros Hblk Hbuf Hd Hb Hroom Hx Hfit.
  rewrite (sieve_binary_emit_integer_bytes sbin b old x Hd Hb Hx Hfit).
  pose proof (lookup_lt_Some _ _ _ Hb) as Hlt.
  set (bytes := varint_bytes fuel x).
  set (sbin1 := set_buffers sbin (<[b:=old ++ bytes]> (buffers sbin))).
  assert (Hb1 : buffers sbin1 !! b = Some (old ++ bytes))
    by (subst sbin1; simpl; by rewrite list_lookup_insert_eq).
  assert (Hact : sieve_binary_block_set_active sbin1 id
                 = Done (active_block sbin,
                         set_active_view sbin1 id (Some b)
                           (Z.of_nat (length (old ++ bytes))))).
  { unfold sieve_binary_block_set_active.
    change (sieve_binary_block_get sbin1 id) with (sieve_binary_block_get sbin id).
    rewrite Hblk, Hbuf. unfold buffer_get_used_size, buffer_deref. by rewrite Hb1. }
  set (sbin2 := set_active_view sbin1 id (Some b) (Z.of_nat (length (old ++ bytes)))) in *.
  exists sbin1, sbin2. split; [done|]. split; [done|]. split; [done|].
  pose proof (shiftr_7_bounds x ltac:(lia)) as [H0 Hs].
  pose proof (low_group_range x) as Hlow.
  set (groups := varint_high_groups fuel (Z.shiftr x 7)).
  assert (Hbytes : bytes = map (fun g => g + 0x80) groups ++ [Z.land x 0x7F]) by done.
  assert (Hcount : 7 * Z.of_nat (length groups) < 7 * (sizeof_sieve_size_t + 1))
    by (apply (high_groups_count x (7 * (sizeof_sieve_size_t + 1))); lia).
  assert (Hcount' : 7 * Z.of_nat (length groups) < width)
    by (apply (high_groups_count x width); [done | unfold sieve_size_bits; lia]).
  assert (Hlen : length bytes = S (length groups))
    by (rewrite Hbytes, length_app, length_map; simpl; lia).
  assert (Hv : code_view sizeof_sieve_size_t sbin2
                 (old ++ map (fun g => g + 0x80) groups ++ Z.land x 0x7F :: [])).
  { rewrite <- Hbytes. repeat split.
    - unfold buffer_deref. simpl. by rewrite list_lookup_insert_eq.
    - simpl. lia.
    - simpl. lia.
    - simpl. rewrite length_app, Hlen. lia. }
  unfold sieve_binary_read_integer.
  rewrite (ADDR_BYTES_LEFT_inside _ _ _ _ Hv) by (simpl; rewrite length_app; lia).
  replace (code_size sbin2 - Z.of_nat (length old) =? 0) with false
    by (symmetry; apply Z.eqb_neq; simpl; rewrite length_app, Hlen; lia).
  pose proof (read_integer_while_groups sbin2 groups old (Z.land x 0x7F) [] 0 width fuel
                Hv) as Hread.
  change (0 * 128) with 0 in Hread.
  pose proof (read_groups_high fuel (Z.shiftr x 7) ltac:(apply fuel_covers; lia))
    as Hhigh.
  fold groups in Hhigh. rewrite Hhigh, <- split_low_group in Hread.
  rewrite Hread.
  - f_equal. f_equal. f_equal. rewrite Hlen. lia.
  - simpl. rewrite length_app, Hlen. lia.
  - apply varint_high_groups_range.
  - done.
  - lia.
  - lia.
  - done.
  - unfold sieve_size_bits in *. lia.
Qed.

End VarintFacts.

(** ** Jumps of the interpreter *)

Section InterpreterFacts.

Variable sizeof_sieve_size_t : Z.
Variable SIEVE_EXEC_OK : Z.
Variable SIEVE_EXEC_FAILURE : Z.
Variable SIEVE_EXEC_BIN_CORRUPT : Z.
Variable SIEVE_MAX_LOOP_DEPTH : Z.

(** The callers of the interpreter test its result with [ret > 0] for
    success, and the error codes differ from it. *)
Hypothesis exec_ok_positive : 0 < SIEVE_EXEC_OK.
Hypothesis exec_corrupt_not_ok : SIEVE_EXEC_BIN_CORRUPT ≠ SIEVE_EXEC_OK.

Local Abbreviation size_t := (to_sieve_size_t sizeof_sieve_size_t).
Local Abbreviation width := (sieve_size_bits sizeof_sieve_size_t).

Lemma loop_break_out_for_stops i : ∀ loops target,
  (i ≤ length loops)%nat →
  ∃ j, loop_break_out_for i loops target = Done j ∧ (j ≤ i)%nat.
Proof.
  induction i as [|i IH]; intros loops target Hi; simpl.
  - exists O. done.
  - rewrite (array_at_Done loops (Z.of_nat i)
               {| lp_level := 0; lp_begin := 0; lp_end := 0;
                  lp_ext_def := 0; lp_pool := O |}) by lia.
    simpl. destruct (_ >? target).
    + exists (S i). done.
    + destruct (IH loops target ltac:(lia)) as (j & Hj & Hle).
      exists j. split; [done | lia].
Qed.

(** The pools freed by a break, innermost frame first. *)
Lemma loop_break_do_finds i : ∀ loops loop live,
  (loop < i)%nat → (i ≤ length loops)%nat →
  loop_break_do i loops loop live
    = Done (loop,
            fold_left pool_unref
              (map lp_pool (reverse (take (i - loop) (drop loop loops)))) live).
Proof.
  induction i as [|i IH]; intros loops loop live Hl Hi; [lia|].
  cbn [loop_break_do].
  destruct (lookup_lt_is_Some_2 loops i ltac:(lia)) as [l Hli].
  rewrite (array_at_Done loops (Z.of_nat i) l) by lia.
  rewrite Nat2Z.id, (nth_lookup_Some _ _ _ _ Hli). simpl mbind. cbn beta.
  assert (Htake : take (S i - loop) (drop loop loops)
                  = take (i - loop) (drop loop loops) ++ [l]).
  { replace (S i - loop)%nat with (S (i - loop)) by lia.
    apply take_S_r. rewrite lookup_drop.
    by replace (loop + (i - loop))%nat with i by lia. }
  rewrite Htake, reverse_app. simpl.
  destruct (bool_decide (0 < i)%nat && bool_decide (i ≠ loop)) eqn:E.
  - apply andb_true_iff in E as [E1%bool_decide_eq_true E2%bool_decide_eq_true].
    apply IH; lia.
  - assert (i = loop) as ->.
    { apply andb_false_iff in E as [E%bool_decide_eq_false | E%bool_decide_eq_false].
      - lia.
      - destruct (decide (i = loop)); done. }
    by rewrite Nat.sub_diag.
Qed.

(** Breaking a loop of the stack succeeds: the frames from [loop] on are
    removed, their pools are freed, and [pc] is the end of the broken
    frame.  The loop limit becomes 0 when no frame is left, and otherwise
    the end of the broken frame itself. *)
Lemma sieve_interpreter_loop_break_ok interp loops loop l :
  loop_stack interp = Some loops → loops !! loop = Some l →
  ∃ interp',
    sieve_interpreter_loop_break SIEVE_EXEC_OK interp loop
      = Done (SIEVE_EXEC_OK, interp')
    ∧ loop_stack interp' = Some (take loop loops)
    ∧ pc interp' = lp_end l
    ∧ sblock interp' = sblock interp
    ∧ loop_limit interp' = (if bool_decide (0 < loop)%nat then lp_end l else 0)
    ∧ pools interp'
      = fold_left pool_unref (map lp_pool (reverse (drop loop loops))) (pools interp).
Proof.
  intros Hs Hl. pose proof (lookup_lt_Some _ _ _ Hl) as Hlt.
  unfold sieve_interpreter_loop_break, loops_of, array_is_created. rewrite Hs.
  rewrite (array_at_Done loops (Z.of_nat loop) l) by lia.
  rewrite Nat2Z.id, (nth_lookup_Some _ _ _ _ Hl). simpl.
  rewrite bool_decide_eq_true_2 by lia. simpl.
  rewrite (loop_break_do_finds (length loops) loops loop (pools interp) Hlt (le_n _)).
  simpl.
  rewrite (bool_decide_eq_true_2 (loop = loop)) by done. simpl.
  rewrite (take_ge (drop loop loops)) by (rewrite length_drop; lia).
  destruct (bool_decide (0 < loop)%nat).
  - rewrite (array_at_Done loops (Z.of_nat loop) l) by lia. simpl.
    rewrite Nat2Z.id, (nth_lookup_Some _ _ _ _ Hl).
    eexists. repeat split; reflexivity.
  - simpl. eexists. repeat split; reflexivity.
Qed.

(** Breaking the outermost loop leaves no frame and no limit. *)
Lemma loop_break_outermost_clears_limit interp loops l :
  loop_stack interp = Some loops → loops !! O = Some l →
  ∃ interp',
    sieve_interpreter_loop_break SIEVE_EXEC_OK interp O
      = Done (SIEVE_EXEC_OK, interp')
    ∧ loop_stack interp' = Some []
    ∧ loop_limit interp' = 0
    ∧ innermost_end interp' = 0
    ∧ pc interp' = lp_end l.
Proof.
  intros Hs Hl.
  destruct (sieve_interpreter_loop_break_ok interp loops O l Hs Hl)
    as (interp' & Hr & Hst & Hpc & _ & Hlim & _).
  exists interp'. repeat split; try done.
  unfold innermost_end, loops_of. by rewrite Hst.
Qed.

(** A loop that starts becomes the innermost frame, and the loop limit is
    its end. *)
Lemma loop_start_sets_limit interp loop_end ext_def :
  pc interp < loop_end ≤ sieve_binary_block_get_size (sblock interp) →
  (parent_loop_level interp + Z.of_nat (length (loops_of interp))) mod 2 ^ 32
    < SIEVE_MAX_LOOP_DEPTH →
  ∃ interp',
    sieve_interpreter_loop_start SIEVE_EXEC_OK SIEVE_EXEC_FAILURE
      SIEVE_EXEC_BIN_CORRUPT SIEVE_MAX_LOOP_DEPTH interp loop_end ext_def
    = Done (SIEVE_EXEC_OK, Some (length (loops_of interp)), interp')
    ∧ loop_limit interp' = loop_end
    ∧ innermost_end interp' = loop_end
    ∧ pc interp' = pc interp.
Proof.
  intros Hend Hdepth. unfold sieve_interpreter_loop_start.
  replace (loop_end >? pc interp) with true by (symmetry; apply Z.gtb_lt; lia).
  simpl mbind. cbn beta.
  replace (loop_end >? sieve_binary_block_get_size (sblock interp)) with false
    by (symmetry; rewrite Z.gtb_ltb; apply Z.ltb_ge; lia).
  simpl negb. cbn iota zeta. simpl parent_loop_level.
  replace (_ >=? SIEVE_MAX_LOOP_DEPTH) with false
    by (symmetry; rewrite Z.geb_leb; apply Z.leb_gt; lia).
  eexists. split; [reflexivity|]. repeat split.
  unfold innermost_end, loops_of. simpl. by rewrite last_snoc.
Qed.

(** Breaking out to a target succeeds whatever the loop stack is. *)
Lemma sieve_interpreter_loop_break_out_ok interp target :
  ∃ interp',
    sieve_interpreter_loop_break_out SIEVE_EXEC_OK interp target
      = Done (SIEVE_EXEC_OK, interp')
    ∧ sblock interp' = sblock interp.
Proof.
  unfold sieve_interpreter_loop_break_out, array_is_created, loops_of.
  destruct (loop_stack interp) as [loops|] eqn:Hs; simpl; [|by eexists].
  destruct (loop_break_out_for_stops (length loops) loops target (le_n _))
    as (i & -> & Hi). simpl.
  destruct (bool_decide (i = length loops)) eqn:E; [by eexists|].
  apply bool_decide_eq_false in E.
  destruct (lookup_lt_is_Some_2 loops i ltac:(lia)) as [l Hl].
  destruct (sieve_interpreter_loop_break_ok interp loops i l Hs Hl)
    as (interp' & -> & _ & _ & Hb & _ & _).
  by eexists.
Qed.

(** C2.  A jump at [jmp_start], in a block whose code is in view and with
    [pc] inside the block.  When fewer than four bytes are left the jump
    is BIN_CORRUPT and [pc] stays.  Otherwise, with [target] the sum of
    [jmp_start] and the decoded offset in [sieve_size_t]: the jump
    returns OK exactly when [0 < target <= block_size] and [break_loops]
    is set or no loop limit is active or [target < loop_limit]; it
    returns BIN_CORRUPT for any other target; on OK [pc] is [target] if
    the jump is taken and the address after the offset if not; and [pc]
    stays within [0, block_size] in every case.  When the block is not
    within 2^31 bytes of the largest [sieve_size_t], [target] in range
    is the same as the plain sum [jmp_start + offset] in range. *)
Theorem program_jump_ok_iff_target_in_range (interp : sieve_interpreter)
    (jump break_loops : bool) (bytes : list Z) :
  let block_size := sieve_binary_block_get_size (sblock interp) in
  let jmp_start := pc interp in
  let jmp_offset := decode_offset bytes jmp_start in
  let target := size_t (jmp_start + jmp_offset) in
  let result := sieve_interpreter_program_jump sizeof_sieve_size_t
                  SIEVE_EXEC_OK SIEVE_EXEC_BIN_CORRUPT interp jump break_loops in
  code_view sizeof_sieve_size_t (sblock interp) bytes →
  0 ≤ jmp_start ≤ block_size →
  (block_size - jmp_start < 4 → result = Done (SIEVE_EXEC_BIN_CORRUPT, interp))
  ∧ (4 ≤ block_size - jmp_start →
     ∃ ret interp',
       result = Done (ret, interp')
       ∧ (ret = SIEVE_EXEC_OK ↔
            0 < target ≤ block_size
            ∧ (break_loops = true ∨ loop_limit interp = 0
               ∨ target < loop_limit interp))
       ∧ (ret = SIEVE_EXEC_OK ∨ ret = SIEVE_EXEC_BIN_CORRUPT)
       ∧ (ret = SIEVE_EXEC_OK →
            pc interp' = if jump then target else jmp_start + 4)
       ∧ (ret = SIEVE_EXEC_BIN_CORRUPT → interp' = set_pc interp (jmp_start + 4))
       ∧ 0 ≤ pc interp' ≤ block_size
       ∧ (block_size + 2 ^ 31 < 2 ^ width →
            (0 < target ≤ block_size ↔ 0 < jmp_start + jmp_offset ≤ block_size)
            ∧ (0 < target ≤ block_size → target = jmp_start + jmp_offset))).
Proof.
  intros block_size jmp_start jmp_offset target result Hv Hpc.
  pose proof Hv as (Hb & Hs & Hw).
  subst result. unfold sieve_interpreter_program_jump. split.
  - intros Hshort.
    rewrite (sieve_binary_read_offset_short _ _ _ (pc interp) Hv Hpc Hshort). simpl.
    by destruct interp.
  - intros Hlong.
    rewrite (sieve_binary_read_offset_decodes _ _ _ (pc interp) Hv (proj1 Hpc) Hlong).
    simpl mbind. cbn beta iota zeta. simpl negb. cbn iota.
    change (pc interp) with jmp_start.
    change (decode_offset bytes jmp_start) with jmp_offset.
    change (to_sieve_size_t sizeof_sieve_size_t (jmp_start + jmp_offset)) with target.
    change (sieve_binary_block_get_size (sblock interp)) with block_size.
    change (code_size (sblock interp)) with block_size in Hs, Hw.
    assert (Hwrap : block_size + 2 ^ 31 < 2 ^ width →
              (0 < target ≤ block_size ↔ 0 < jmp_start + jmp_offset ≤ block_size)
              ∧ (0 < target ≤ block_size → target = jmp_start + jmp_offset)).
    { intros Hfar. pose proof (decode_offset_range bytes jmp_start) as Hr.
      fold jmp_offset in Hr. subst target. unfold to_sieve_size_t.
      destruct (Z_lt_dec (jmp_start + jmp_offset) 0) as [Hneg|Hpos].
      - replace ((jmp_start + jmp_offset) mod 2 ^ width)
          with (jmp_start + jmp_offset + 2 ^ width).
        + lia.
        + apply Z.mod_unique with (q := -1); lia.
      - rewrite Z.mod_small by lia. lia. }
    set (limit := if break_loops then 0 else loop_limit interp).
    assert (Hlimit : (limit =? 0) || (target <? limit) = true ↔
              break_loops = true ∨ loop_limit interp = 0 ∨ target < loop_limit interp).
    { subst limit. rewrite orb_true_iff, Z.eqb_eq, Z.ltb_lt.
      destruct break_loops; split; intros; try tauto;
        destruct H as [?|[?|?]]; try discriminate; tauto. }
    destruct ((target <=? block_size) && ((limit =? 0) || (target <? limit))
              && (target >? 0)) eqn:E.
    + apply andb_true_iff in E as [E E3]. apply andb_true_iff in E as [E1 E2].
      apply Z.leb_le in E1. apply Z.gtb_lt in E3. apply Hlimit in E2.
      destruct jump.
      * destruct break_loops.
        -- destruct (sieve_interpreter_loop_break_out_ok
                       (set_pc interp (jmp_start + 4)) target)
             as (interp1 & -> & Hsb).
           simpl mbind. cbn beta iota.
           replace (SIEVE_EXEC_OK <=? 0) with false
             by (symmetry; apply Z.leb_gt; lia).
           exists SIEVE_EXEC_OK, (set_pc interp1 target). simpl.
           repeat split; try tauto; try lia; try done.
        -- exists SIEVE_EXEC_OK, (set_pc (set_pc interp (jmp_start + 4)) target).
           simpl. repeat split; try tauto; try lia; try done.
      * exists SIEVE_EXEC_OK, (set_pc interp (jmp_start + 4)). simpl.
        repeat split; try tauto; try lia; try done.
    + exists SIEVE_EXEC_BIN_CORRUPT, (set_pc interp (jmp_start + 4)). simpl.
      assert (Hno : ¬ (0 < target ≤ block_size
                       ∧ (break_loops = true ∨ loop_limit interp = 0
                          ∨ target < loop_limit interp))).
      { intros [[H1 H2] H3]. apply Hlimit in H3.
        apply Z.leb_le in H2. apply Z.gtb_lt in H1.
        rewrite H1, H2, H3 in E. discriminate. }
      repeat split; try tauto; try lia; try done.
      all: try (intros ->; done).
Qed.

End InterpreterFacts.

Lemma program_jump_ok_iff_target_in_range_witness :
  ∃ interp',
    sieve_interpreter_program_jump 8 1 (-2)
      (interpreter_at [0; 0; 0; 8; 0; 0; 0; 0; 0; 0] 0 None 0) true false
    = Done (1, interp')
    ∧ pc interp' = 8.
Proof.
  destruct (program_jump_ok_iff_target_in_range 8 1 (-2) ltac:(lia) ltac:(lia)
              (interpreter_at [0; 0; 0; 8; 0; 0; 0; 0; 0; 0] 0 None 0) true false
              [0; 0; 0; 8; 0; 0; 0; 0; 0; 0]) as [_ H].
  - repeat split; vm_compute; congruence.
  - vm_compute. split; congruence.
  - destruct H as (ret & interp' & Hr & Hiff & _ & Hpc & _).
    + vm_compute. congruence.
    + assert (ret = 1) as ->.
      { apply Hiff. vm_compute. repeat split; try congruence. by right; left. }
      exists interp'. split; [exact Hr | exact (Hpc eq_refl)].
Defined.

(** ** Loading a binary *)

Section LoadFacts.

Variable sizeof_sieve_size_t : Z.
Variable big_endian : bool.
Variable sieve_extension_get_by_name : string -> Z.
Variable sieve_extension_get_by_id : Z -> bool.

Lemma load_uint_defined mem ptr n :
  0 ≤ ptr → ptr + Z.of_nat n ≤ Z.of_nat (length mem) →
  ∃ v, load_uint big_endian mem ptr n = Done v.
Proof.
  intros H1 H2. unfold load_uint.
  replace ((0 <=? ptr) && (ptr + Z.of_nat n <=? Z.of_nat (length mem))) with true
    by (symmetry; apply andb_true_iff; split; apply Z.leb_le; lia).
  by eexists.
Qed.

(** The magic of a header written by a host of the other byte order reads
    as 0xafbeadde, the bytes of [SIEVE_BINARY_MAGIC] reversed.  (This is
    not the value of [SIEVE_BINARY_MAGIC_OTHER_ENDIAN], 0xefbeadde.) *)
Lemma swapped_magic_reads_reversed mem :
  take 4 mem = store_uint32 (negb big_endian) SIEVE_BINARY_MAGIC →
  load_uint big_endian mem 0 4 = Done 0xafbeadde.
Proof.
  intros H. assert (4 ≤ length mem)%nat as Hlen.
  { apply (f_equal length) in H. rewrite length_take in H.
    assert (length (store_uint32 (negb big_endian) SIEVE_BINARY_MAGIC) = 4%nat) as Hl
      by (by destruct big_endian).
    rewrite Hl in H. lia. }
  unfold load_uint.
  replace ((0 <=? 0) && (0 + Z.of_nat 4 <=? Z.of_nat (length mem))) with true
    by (symmetry; apply andb_true_iff; split; apply Z.leb_le; lia).
  change (drop (Z.to_nat 0) mem) with mem. rewrite H.
  destruct big_endian; vm_compute; reflexivity.
Qed.

(** The header check of [_sieve_binary_load] for a magic that is not the
    native one. *)
Lemma load_stops_at_foreign_magic (sbin : sieve_binary) (log : list message)
    (magic : Z) :
  sizeof_sieve_binary_header ≤ memory_size sbin ≤ Z.of_nat (length (memory sbin)) →
  load_uint big_endian (memory sbin) 0 4 = Done magic →
  magic ≠ SIEVE_BINARY_MAGIC →
  _sieve_binary_load sizeof_sieve_size_t big_endian
    sieve_extension_get_by_name sieve_extension_get_by_id sbin log
  = Done (false, sbin,
          if magic =? SIEVE_BINARY_MAGIC_OTHER_ENDIAN then log
          else log ++ [I_error "sieve: loaded binary %s has corrupted header %08x"
                         [ArgS (path sbin); ArgZ magic]]).
Proof.
  intros Hsize Hmagic Hne. unfold sizeof_sieve_binary_header in Hsize.
  unfold _sieve_binary_load, load_aligned_data.
  change (SIEVE_BINARY_ALIGN 0) with 0. unfold sizeof_sieve_binary_header.
  replace (0 + 12 <=? memory_size sbin) with true by (symmetry; apply Z.leb_le; lia).
  unfold read_sieve_binary_header. rewrite Hmagic. simpl mbind.
  destruct (load_uint_defined (memory sbin) (0 + 4) 2) as [major ->]; [lia|simpl; lia|].
  destruct (load_uint_defined (memory sbin) (0 + 6) 2) as [minor ->]; [lia|simpl; lia|].
  destruct (load_uint_defined (memory sbin) (0 + 8) 4) as [blks ->]; [lia|simpl; lia|].
  simpl mbind. cbn beta iota. simpl hdr_magic.
  replace (magic =? SIEVE_BINARY_MAGIC) with false by (symmetry; by apply Z.eqb_neq).
  simpl negb. cbn iota.
  by destruct (magic =? SIEVE_BINARY_MAGIC_OTHER_ENDIAN).
Qed.

(** C6.  A file that holds a header whose magic, as the host reads it, is
    not [SIEVE_BINARY_MAGIC] is not loaded: [_sieve_binary_load] returns
    FALSE and leaves the binary as it was, no block index record and no
    block having been read.  The value [SIEVE_BINARY_MAGIC_OTHER_ENDIAN]
    is rejected without a message, any other one is logged as a corrupted
    header.  The magic of a header written by a host of the other byte
    order reads as 0xafbeadde; it differs from [SIEVE_BINARY_MAGIC], so
    such a file is rejected too. *)
Theorem binary_load_rejects_foreign_magic (sbin : sieve_binary)
    (log : list message) (magic : Z) :
  sizeof_sieve_binary_header ≤ memory_size sbin ≤ Z.of_nat (length (memory sbin)) →
  load_uint big_endian (memory sbin) 0 4 = Done magic →
  magic ≠ SIEVE_BINARY_MAGIC →
  ∃ log',
    _sieve_binary_load sizeof_sieve_size_t big_endian
      sieve_extension_get_by_name sieve_extension_get_by_id sbin log
    = Done (false, sbin, log')
    ∧ (magic = SIEVE_BINARY_MAGIC_OTHER_ENDIAN → log' = log)
    ∧ (magic ≠ SIEVE_BINARY_MAGIC_OTHER_ENDIAN →
         log' = log ++ [I_error "sieve: loaded binary %s has corrupted header %08x"
                          [ArgS (path sbin); ArgZ magic]])
    ∧ (take 4 (memory sbin) = store_uint32 (negb big_endian) SIEVE_BINARY_MAGIC →
         magic = 0xafbeadde).
Proof.
  intros Hsize Hmagic Hne.
  rewrite (load_stops_at_foreign_magic sbin log magic Hsize Hmagic Hne).
  eexists. split; [reflexivity|].
  split; [intros ->; reflexivity|]. split.
  - intros E. apply Z.eqb_neq in E. by rewrite E.
  - intros Hsw. pose proof (swapped_magic_reads_reversed _ Hsw) as Hsw'.
    rewrite Hmagic in Hsw'. by injection Hsw'.
Qed.

(** X9.  A file too short for a header is rejected: the load fails,
    the binary stays as it is and one error is logged. *)
Lemma load_rejects_short_file (sbin : sieve_binary) (log : list message) :
  memory_size sbin < sizeof_sieve_binary_header →
  _sieve_binary_load sizeof_sieve_size_t big_endian
    sieve_extension_get_by_name sieve_extension_get_by_id sbin log
  = Done (false, sbin,
          log ++ [I_error "sieve: loaded binary %s is not even large enough to contain a header."
                    [ArgS (path sbin)]]).
Proof.
  intros Hsize. unfold sizeof_sieve_binary_header in Hsize.
  unfold _sieve_binary_load, load_aligned_data.
  change (SIEVE_BINARY_ALIGN 0) with 0. unfold sizeof_sieve_binary_header.
  by replace (0 + 12 <=? memory_size sbin) with false
    by (symmetry; apply Z.leb_gt; lia).
Qed.

(** A binary saved on a host of the other byte order is rejected; its
    magic is reported as a corrupted header. *)
Corollary binary_load_rejects_swapped_file (sbin : sieve_binary) (log : list message) :
  sizeof_sieve_binary_header ≤ memory_size sbin ≤ Z.of_nat (length (memory sbin)) →
  take 4 (memory sbin) = store_uint32 (negb big_endian) SIEVE_BINARY_MAGIC →
  _sieve_binary_load sizeof_sieve_size_t big_endian
    sieve_extension_get_by_name sieve_extension_get_by_id sbin log
  = Done (false, sbin,
          log ++ [I_error "sieve: loaded binary %s has corrupted header %08x"
                    [ArgS (path sbin); ArgZ 0xafbeadde]]).
Proof.
  intros Hsize Hsw.
  by rewrite (load_stops_at_foreign_magic sbin log 0xafbeadde Hsize
                (swapped_magic_reads_reversed _ Hsw)).
Qed.

End LoadFacts.

(** A 12-byte file on a little-endian host whose magic reads as
    [SIEVE_BINARY_MAGIC_OTHER_ENDIAN]. *)
Lemma binary_load_rejects_foreign_magic_witness :
  let file := [0xde; 0xad; 0xbe; 0xef; 0; 0; 0; 0; 0; 0; 0; 1] in
  let sbin := {| path := "script.svbin"; memory := file; memory_size := 12;
                 extensions := []; extension_index := []; linked_extensions := [];
                 blocks := []; active_block := 0; buffers := [];
                 data := None; code := None; code_size := 0 |} in
  _sieve_binary_load 8 false (fun _ => -1) (fun _ => false) sbin []
    = Done (false, sbin, []).
Proof.
  intros file sbin.
  destruct (binary_load_rejects_foreign_magic 8 false (fun _ => -1) (fun _ => false)
              sbin [] SIEVE_BINARY_MAGIC_OTHER_ENDIAN) as (log' & Hr & Hlog & _).
  - vm_compute. split; congruence.
  - reflexivity.
  - vm_compute. congruence.
  - rewrite Hr, (Hlog eq_refl). reflexivity.
Defined.

(** ** The [:regex] match type *)

Section RegexFacts.

Variable regex_t : Type.
Variable regcomp : string -> list regex_cflag -> option regex_t.
Variable regexec : regex_t -> string -> Z -> option (list regmatch_t).

Lemma str_append_n_substring val : ∀ k,
  is_c_string val → str_append_n val k = substring 0 (Z.to_nat k) val.
Proof.
  induction val as [|c val IH]; intros k Hc; simpl.
  - by destruct (Z.to_nat k).
  - destruct Hc as [Hc Hv].
    destruct (k >? 0) eqn:E; simpl.
    + apply Z.gtb_lt in E.
      replace (char_code c =? 0) with false by (symmetry; by apply Z.eqb_neq).
      simpl. replace (Z.to_nat k) with (S (Z.to_nat (k - 1))) by lia.
      by rewrite IH.
    + assert (¬ 0 < k) by (intros ?%Z.gtb_lt; congruence).
      by replace (Z.to_nat k) with O by lia.
Qed.

Lemma string_from_substring val : ∀ n k,
  is_c_string val → (n ≤ String.length val)%nat →
  ∃ s, string_from val n = Done s
       ∧ str_append_n s k = substring n (Z.to_nat k) val.
Proof.
  induction val as [|c val IH]; intros n k Hc Hn.
  - simpl in Hn. assert (n = O) by lia. subst. exists EmptyString.
    split; [done|]. by destruct (Z.to_nat k).
  - destruct n as [|n].
    + eexists. split; [reflexivity|]. by apply str_append_n_substring.
    + destruct Hc as [_ Hv]. simpl in Hn.
      destruct (IH n k Hv ltac:(lia)) as (s & Hs & Hk).
      exists s. split; [exact Hs|]. exact Hk.
Qed.

(** The loop over the groups appends their match values. *)
Lemma regex_values_for_captures val (Hval : is_c_string val) :
  ∀ groups before skipped mvalues,
    Forall (group_in val) groups → 0 ≤ skipped →
    regex_values_for (length groups) val (before ++ groups)
      (Z.of_nat (length before)) skipped mvalues
    = Done (mvalues ++ with_skipped skipped (capture_values val groups)).
Proof.
  induction groups as [|m groups IH]; intros before skipped mvalues Hin Hsk.
  - simpl. by rewrite app_nil_r.
  - apply Forall_cons in Hin as [Hm Hin].
    cbn [length regex_values_for].
    rewrite (array_at_Done _ _ m) by (rewrite length_app; simpl; lia).
    rewrite Nat2Z.id, nth_middle. simpl mbind. cbn beta.
    replace (Z.of_nat (length before) + 1)
      with (Z.of_nat (length (before ++ [m]))) by (rewrite length_app; simpl; lia).
    replace (before ++ m :: groups) with ((before ++ [m]) ++ groups)
      by (by rewrite <- app_assoc).
    cbn [capture_values].
    destruct (rm_so m =? -1) eqn:E; simpl negb; cbn iota.
    + rewrite (IH _ _ _ Hin) by lia. f_equal. f_equal.
      unfold with_skipped. destruct (capture_values val groups) as [|v vs]; [done|].
      replace (Z.to_nat (skipped + 1)) with (Z.to_nat skipped + 1)%nat by lia.
      rewrite replicate_add. simpl. by rewrite <- app_assoc.
    + apply Z.eqb_neq in E. destruct Hm as [Hm|Hm]; [done|].
      replace (0 <=? rm_so m) with true by (symmetry; apply Z.leb_le; lia).
      destruct (string_from_substring val (Z.to_nat (rm_so m)) (rm_eo m - rm_so m)
                  Hval ltac:(lia)) as (s & -> & Hs).
      simpl mbind. cbn beta. rewrite Hs, (IH _ _ _ Hin) by lia.
      f_equal. unfold sieve_match_values_add, sieve_match_values_skip, with_skipped,
        group_string.
      destruct (skipped >? 0) eqn:E2.
      * destruct (capture_values val groups); simpl;
          rewrite <- !app_assoc; simpl; by rewrite ?app_nil_r.
      * assert (skipped = 0) by (rewrite Z.gtb_ltb in E2; apply Z.ltb_ge in E2; lia).
        subst.
        destruct (capture_values val groups); simpl;
          rewrite <- !app_assoc; simpl; by rewrite ?app_nil_r.
Qed.

Lemma length_fill_pmatch old offsets :
  length (fill_pmatch old offsets) = length old.
Proof.
  unfold fill_pmatch. rewrite length_take, length_app, length_replicate. lia.
Qed.

Lemma mcht_regex_get_keeps_pmatch ctx cmp key key_index regexp ctx' :
  mcht_regex_get regcomp ctx cmp key key_index = Done (regexp, ctx') →
  pmatch ctx' = pmatch ctx ∧ nmatch ctx' = nmatch ctx.
Proof.
  unfold mcht_regex_get. destruct (value_index ctx <=? 0).
  - destruct cmp; [destruct (regcomp _ _) | destruct (regcomp _ _) |];
      intros [= <- <-]; done.
  - destruct (array_at _ _) as [[r|]| | |]; simpl; intros [= <- <-] || intros [=]; done.
Qed.

(** C9.  With match values enabled and a C string as value: a call of
    [mcht_regex_match] that returns FALSE leaves the match values of the
    interpreter as they were.  For a context as [mcht_regex_match_init]
    makes it and a key whose expression is available: when [regexec]
    reports no match the call returns FALSE and the interpreter's match
    values stay; when it reports a match the call returns TRUE and the
    interpreter's set is replaced, in one step, by a new set that holds
    the substrings of the groups in order, with an empty value for each
    group without a match that comes before one with a match. *)
Theorem regex_match_values_only_on_match (mctx : sieve_match_context regex_t)
    (val : option string) (key : string) (key_index : Z) :
  let v := match val with Some v => v | None => EmptyString end in
  let ctx := mctx_data mctx in
  let ctx1 := if key_index =? 0
              then {| reg_expressions := reg_expressions ctx;
                      value_index := value_index ctx + 1;
                      pmatch := pmatch ctx; nmatch := nmatch ctx |}
              else ctx in
  let result := mcht_regex_match regcomp regexec mctx val key key_index in
  sieve_match_values_are_enabled (mctx_interp mctx) = true →
  is_c_string v →
  (∀ mctx', result = Done (false, mctx') → mctx_interp mctx' = mctx_interp mctx)
  ∧ (∀ regexp ctx2 old,
       0 ≤ key_index →
       mcht_regex_get regcomp ctx1 (mctx_comparator mctx) key key_index
         = Done (Some regexp, ctx2) →
       pmatch ctx = Some old → length old = Z.to_nat (nmatch ctx) → 0 < nmatch ctx →
       (regexec regexp v (nmatch ctx) = None →
          result = Done (false, {| mctx_interp := mctx_interp mctx;
                                   mctx_comparator := mctx_comparator mctx;
                                   mctx_data := ctx2 |}))
       ∧ (∀ offsets,
            regexec regexp v (nmatch ctx) = Some offsets →
            Forall (group_in v) (fill_pmatch old offsets) →
            ∃ mctx',
              result = Done (true, mctx')
              ∧ mctx_interp mctx'
                = sieve_match_values_commit (mctx_interp mctx)
                    (capture_values v (fill_pmatch old offsets)))).
Proof.
  intros v ctx ctx1 result Hen Hv. subst result. unfold mcht_regex_match.
  fold ctx. fold v. split.
  - destruct (key_index <? 0); [by intros mctx' [= <-]|].
    fold ctx1.
    destruct (mcht_regex_get regcomp ctx1 (mctx_comparator mctx) key key_index)
      as [[[regexp|] ctx2]| | |] eqn:Hget; simpl; try done;
      [|by intros mctx' [= <-]].
    destruct (regexec regexp v (nmatch ctx2)) as [offsets|]; [|by intros mctx' [= <-]].
    destruct (nmatch ctx2 >? 0); [|done].
    destruct (pmatch ctx2); simpl; [|done].
    unfold sieve_match_values_start.
    unfold sieve_match_values_are_enabled in Hen. rewrite Hen.
    by destruct (regex_values_for _ _ _ _ _ _).
  - intros regexp ctx2 old Hki Hget Hold Hlen Hn.
    replace (key_index <? 0) with false by (symmetry; apply Z.ltb_ge; lia).
    fold ctx1. rewrite Hget. simpl mbind. cbn beta iota.
    destruct (mcht_regex_get_keeps_pmatch _ _ _ _ _ _ Hget) as [Hp Hnm].
    assert (pmatch ctx1 = pmatch ctx ∧ nmatch ctx1 = nmatch ctx) as [Hp1 Hn1]
      by (subst ctx1; by destruct (key_index =? 0)).
    rewrite Hp1 in Hp. rewrite Hn1 in Hnm. rewrite Hnm, Hp, Hold. split.
    + by intros ->.
    + intros offsets -> Hin.
      replace (nmatch ctx >? 0) with true by (symmetry; apply Z.gtb_lt; lia).
      simpl mbind. cbn beta.
      unfold sieve_match_values_start.
      unfold sieve_match_values_are_enabled in Hen. rewrite Hen.
      pose proof (regex_values_for_captures v Hv (fill_pmatch old offsets) [] 0 []
                    Hin ltac:(lia)) as Hloop.
      rewrite length_fill_pmatch, Hlen in Hloop.
      change (Z.of_nat (length [])) with 0 in Hloop. rewrite app_nil_l in Hloop.
      rewrite Hloop. simpl mbind. cbn beta.
      eexists. split; [reflexivity|]. simpl. f_equal.
      unfold with_skipped. destruct (capture_values _ _); done.
Qed.

End RegexFacts.

(** The regex scenario of the specification: the first key on the first
    value, in a context fresh from [mcht_regex_match_init]. *)
Lemma regex_match_values_only_on_match_witness :
  let interp := {| match_values_enabled := true; match_values := Some ["old"%string] |} in
  let mctx := mcht_regex_match_init (regex_t := unit) 9 interp i_octet_comparator in
  ∃ mctx',
    mcht_regex_match sample_regcomp sample_regexec mctx (Some "[sieve] hi"%string)
      "pattern" 0 = Done (true, mctx')
    ∧ match_values (mctx_interp mctx') = Some ["[sieve] "%string; "sieve"%string].
Proof.
  intros interp mctx.
  destruct (regex_match_values_only_on_match unit sample_regcomp sample_regexec
              mctx (Some "[sieve] hi"%string) "pattern" 0) as [_ H].
  - reflexivity.
  - simpl. repeat split; discriminate.
  - destruct (H tt
               {| reg_expressions := [Some tt]; value_index := 0;
                  pmatch := Some (replicate 9 {| rm_so := 0; rm_eo := 0 |});
                  nmatch := 9 |}
               (replicate 9 {| rm_so := 0; rm_eo := 0 |}))
      as [_ Hmatch]; try reflexivity; try lia.
    destruct (Hmatch [ {| rm_so := 0; rm_eo := 8 |}; {| rm_so := 1; rm_eo := 6 |} ])
      as (mctx' & Hr & Hv).
    + reflexivity.
    + unfold fill_pmatch, group_in. simpl.
      repeat (apply Forall_cons; split;
              [first [left; reflexivity | right; split; discriminate]|]).
      by apply Forall_nil.
    + exists mctx'. split; [exact Hr|]. rewrite Hv. reflexivity.
Defined.

(** ** Emitting into a block and reading it back *)

Lemma emit_data_appends sbin id b old bytes :
  emitting_to sbin id b old →
  ∃ sbin1,
    sieve_binary_emit_data sbin bytes = Done (Z.of_nat (length old), sbin1)
    ∧ emitting_to sbin1 id b (old ++ bytes)
    ∧ active_block sbin1 = active_block sbin.
Proof.
  intros (Hblk & Hd & Hb).
  exists (set_buffers sbin (<[b := old ++ bytes]> (buffers sbin))).
  split; [|split; [|done]].
  - unfold sieve_binary_emit_data, buffer_get_used_size, buffer_append, buffer_deref.
    by rewrite Hd, Hb.
  - split; [exact Hblk|]. split; [exact Hd|].
    simpl. rewrite list_lookup_insert_eq; [done|]. by eapply lookup_lt_Some.
Qed.

Lemma emit_byte_appends sbin id b old byte :
  emitting_to sbin id b old →
  ∃ sbin1,
    sieve_binary_emit_byte sbin byte = Done (Z.of_nat (length old), sbin1)
    ∧ emitting_to sbin1 id b (old ++ [unsigned_char byte])
    ∧ active_block sbin1 = active_block sbin.
Proof. apply emit_data_appends. Qed.

Lemma offset_bytes_length offset : length (offset_bytes offset) = 4%nat.
Proof. reflexivity. Qed.

Lemma emit_offset_appends sbin id b old offset :
  emitting_to sbin id b old →
  ∃ sbin1,
    sieve_binary_emit_offset sbin offset = Done (Z.of_nat (length old), sbin1)
    ∧ emitting_to sbin1 id b (old ++ offset_bytes offset)
    ∧ active_block sbin1 = active_block sbin.
Proof.
  intros He. unfold sieve_binary_emit_offset, sieve_binary_get_code_size.
  pose proof He as (_ & Hd & Hb).
  unfold buffer_get_used_size, buffer_deref. rewrite Hd, Hb. cbn [mbind outcome_bind]. cbn beta.
  cbn [emit_offset_for].
  destruct (emit_data_appends sbin id b old [unsigned_char (Z.shiftr offset (Z.of_nat 3 * 8))] He)
    as (s1 & -> & He1 & Ha1). cbn [mbind outcome_bind]. cbn beta iota.
  destruct (emit_data_appends s1 id b _ [unsigned_char (Z.shiftr offset (Z.of_nat 2 * 8))] He1)
    as (s2 & -> & He2 & Ha2). cbn [mbind outcome_bind]. cbn beta iota.
  destruct (emit_data_appends s2 id b _ [unsigned_char (Z.shiftr offset (Z.of_nat 1 * 8))] He2)
    as (s3 & -> & He3 & Ha3). cbn [mbind outcome_bind]. cbn beta iota.
  destruct (emit_data_appends s3 id b _ [unsigned_char (Z.shiftr offset (Z.of_nat 0 * 8))] He3)
    as (s4 & -> & He4 & Ha4). cbn [mbind outcome_bind]. cbn beta iota.
  exists s4. split; [done|]. split; [|congruence].
  rewrite <- !app_assoc in He4. exact He4.
Qed.

Section EmitFacts.

Variable sizeof_sieve_size_t : Z.

Local Abbreviation size_t := (to_sieve_size_t sizeof_sieve_size_t).
Local Abbreviation width := (sieve_size_bits sizeof_sieve_size_t).

(** Making the block active again brings [code] and [code_size] up to
    date with what was emitted. *)
Lemma set_active_views sbin id b bytes :
  emitting_to sbin id b bytes → Z.of_nat (length bytes) < 2 ^ width →
  ∃ sbin1,
    sieve_binary_block_set_active sbin id = Done (active_block sbin, sbin1)
    ∧ code_view sizeof_sieve_size_t sbin1 bytes
    ∧ code_size sbin1 = Z.of_nat (length bytes)
    ∧ emitting_to sbin1 id b bytes.
Proof.
  intros ((block & Hblk & Hbuf) & Hd & Hb) Hfit.
  exists (set_active_view sbin id (Some b) (Z.of_nat (length bytes))).
  split; [|split; [|split; [done|]]].
  - unfold sieve_binary_block_set_active. rewrite Hblk, Hbuf.
    unfold buffer_get_used_size, buffer_deref. by rewrite Hb.
  - repeat split; simpl; try lia. unfold buffer_deref. simpl. by rewrite Hb.
  - split; [by exists block|]. done.
Qed.

Lemma unsigned_char_idemp c : unsigned_char (unsigned_char c) = unsigned_char c.
Proof. unfold unsigned_char. apply Z.mod_mod. lia. Qed.

(** The four bytes of an [int] decode to it. *)
Lemma decode_offset_bytes pre post offset :
  - 2 ^ 31 ≤ offset < 2 ^ 31 →
  decode_offset (pre ++ offset_bytes offset ++ post) (Z.of_nat (length pre)) = offset.
Proof.
  intros Ho. unfold decode_offset.
  assert (Hnth : ∀ i, 0 ≤ i < 4 →
            nth (Z.to_nat (Z.of_nat (length pre) + i))
              (pre ++ offset_bytes offset ++ post) 0
            = nth (Z.to_nat i) (offset_bytes offset) 0).
  { intros i Hi. replace (Z.to_nat (Z.of_nat (length pre) + i))
      with (length pre + Z.to_nat i)%nat by lia.
    rewrite app_nth2_plus. apply app_nth1. rewrite offset_bytes_length. lia. }
  rewrite (Hnth 0), (Hnth 1), (Hnth 2), (Hnth 3) by lia.
  change (Z.to_nat 0) with 0%nat. change (Z.to_nat 1) with 1%nat.
  change (Z.to_nat 2) with 2%nat. change (Z.to_nat 3) with 3%nat.
  cbn [nth offset_bytes]. rewrite !unsigned_char_idemp.
  unfold unsigned_char. rewrite !Z.shiftr_div_pow2 by lia.
  change (2 ^ 24) with 16777216. change (2 ^ 16) with 65536.
  change (2 ^ 8) with 256. change (2 ^ 31) with 2147483648 in *.
  change (2 ^ 32) with 4294967296.
  destruct (_ <? _) eqn:E; [apply Z.ltb_lt in E | apply Z.ltb_ge in E];
    Z.div_mod_to_equations; lia.
Qed.

(** X2.  An offset that fits an [int] is read back as it was emitted. *)
Theorem emit_offset_read_back (sbin : sieve_binary) (id : Z) (b : nat)
    (old : list Z) (offset : Z) :
  emitting_to sbin id b old →
  Z.of_nat (length old) + 4 < 2 ^ width →
  - 2 ^ 31 ≤ offset < 2 ^ 31 →
  ('(address, sbin1) ← sieve_binary_emit_offset sbin offset;
   '(_, sbin2) ← sieve_binary_block_set_active sbin1 id;
   sieve_binary_read_offset sizeof_sieve_size_t sbin2 address)
  = Done (true, Z.of_nat (length old) + 4, offset).
Proof.
  intros He Hroom Ho.
  destruct (emit_offset_appends sbin id b old offset He) as (s1 & -> & He1 & _).
  cbn [mbind outcome_bind]. cbn beta iota.
  destruct (set_active_views s1 id b _ He1) as (s2 & -> & Hv & Hsz & _).
  { rewrite length_app, offset_bytes_length. lia. }
  cbn [mbind outcome_bind]. cbn beta iota.
  rewrite (sieve_binary_read_offset_decodes _ _ (old ++ offset_bytes offset) _ Hv).
  - rewrite <- (app_nil_r (offset_bytes offset)), decode_offset_bytes by done. done.
  - lia.
  - rewrite Hsz, length_app, offset_bytes_length. lia.
Qed.

Lemma buffer_write_inside sbin id b pre mid post bytes :
  emitting_to sbin id b (pre ++ mid ++ post) → length mid = length bytes →
  ∃ sbin1,
    buffer_write sbin (data sbin) (Z.of_nat (length pre)) bytes = Done sbin1
    ∧ emitting_to sbin1 id b (pre ++ bytes ++ post)
    ∧ active_block sbin1 = active_block sbin.
Proof.
  intros (Hblk & Hd & Hb) Hlen.
  exists (set_buffers sbin (<[b := pre ++ bytes ++ post]> (buffers sbin))).
  split; [|split; [split; [exact Hblk|split; [exact Hd|]]|done]].
  - unfold buffer_write, buffer_deref. rewrite Hd, Hb. cbn [mbind outcome_bind]. cbn beta.
    replace (Z.of_nat (length pre) <? 0) with false by (symmetry; apply Z.ltb_ge; lia).
    do 3 f_equal. rewrite Nat2Z.id.
    replace (length pre + length bytes - length (pre ++ mid ++ post))%nat with 0%nat
      by (rewrite !length_app; lia).
    simpl replicate. rewrite app_nil_r.
    rewrite take_app_length. f_equal. f_equal.
    rewrite drop_app_add'; [|done]. rewrite <- Hlen. by rewrite drop_app_length.
  - simpl. rewrite list_lookup_insert_eq; [done|]. by eapply lookup_lt_Some.
Qed.

Lemma resolve_offset_for_writes sbin id b old four body o :
  emitting_to sbin id b (old ++ four ++ body) → length four = 4%nat →
  Z.of_nat (length old) + 4 < 2 ^ width →
  ∃ sbin1,
    resolve_offset_for sizeof_sieve_size_t 4 sbin (Z.of_nat (length old)) o
      = Done sbin1
    ∧ emitting_to sbin1 id b (old ++ offset_bytes o ++ body)
    ∧ active_block sbin1 = active_block sbin.
Proof.
  intros He H4 Hroom.
  destruct four as [|c0 [|c1 [|c2 [|c3 [|]]]]]; try discriminate H4. clear H4.
  cbn [resolve_offset_for]. unfold sieve_binary_update_data.
  rewrite !(to_sieve_size_t_small sizeof_sieve_size_t) by lia.
  replace (Z.of_nat (length old) + 3 - Z.of_nat 3) with (Z.of_nat (length old)) by lia.
  destruct (buffer_write_inside sbin id b old [c0] ([c1; c2; c3] ++ body)
              [unsigned_char (Z.shiftr o (Z.of_nat 3 * 8))] He eq_refl)
    as (s1 & -> & He1 & Ha1).
  cbn [mbind outcome_bind].
  replace (Z.of_nat (length old) + 3 - Z.of_nat 2)
    with (Z.of_nat (length (old ++ [unsigned_char (Z.shiftr o (Z.of_nat 3 * 8))])))
    by (rewrite length_app; simpl length; lia).
  destruct (buffer_write_inside s1 id b (old ++ [unsigned_char (Z.shiftr o (Z.of_nat 3 * 8))])
              [c1] ([c2; c3] ++ body)
              [unsigned_char (Z.shiftr o (Z.of_nat 2 * 8))]
              ltac:(by rewrite <- app_assoc) eq_refl)
    as (s2 & -> & He2 & Ha2).
  cbn [mbind outcome_bind].
  replace (Z.of_nat (length old) + 3 - Z.of_nat 1)
    with (Z.of_nat (length ((old ++ [unsigned_char (Z.shiftr o (Z.of_nat 3 * 8))])
                            ++ [unsigned_char (Z.shiftr o (Z.of_nat 2 * 8))])))
    by (rewrite !length_app; simpl length; lia).
  destruct (buffer_write_inside s2 id b _ [c2] ([c3] ++ body)
              [unsigned_char (Z.shiftr o (Z.of_nat 1 * 8))]
              ltac:(by rewrite <- app_assoc) eq_refl)
    as (s3 & -> & He3 & Ha3).
  cbn [mbind outcome_bind].
  replace (Z.of_nat (length old) + 3 - Z.of_nat 0)
    with (Z.of_nat (length (((old ++ [unsigned_char (Z.shiftr o (Z.of_nat 3 * 8))])
                            ++ [unsigned_char (Z.shiftr o (Z.of_nat 2 * 8))])
                            ++ [unsigned_char (Z.shiftr o (Z.of_nat 1 * 8))])))
    by (rewrite !length_app; simpl length; lia).
  destruct (buffer_write_inside s3 id b _ [c3] body
              [unsigned_char (Z.shiftr o (Z.of_nat 0 * 8))]
              ltac:(by rewrite <- app_assoc) eq_refl)
    as (s4 & -> & He4 & Ha4).
  exists s4. split; [done|]. split; [|congruence].
  rewrite <- !app_assoc in He4. exact He4.
Qed.

Lemma resolve_offset_writes sbin id b old four body :
  emitting_to sbin id b (old ++ four ++ body) → length four = 4%nat →
  Z.of_nat (length old) + 4 + Z.of_nat (length body) < 2 ^ width →
  4 + Z.of_nat (length body) < 2 ^ 31 →
  ∃ sbin1,
    sieve_binary_resolve_offset sizeof_sieve_size_t sbin (Z.of_nat (length old))
      = Done sbin1
    ∧ emitting_to sbin1 id b (old ++ offset_bytes (4 + Z.of_nat (length body)) ++ body)
    ∧ active_block sbin1 = active_block sbin.
Proof.
  intros He H4 Hroom Hint.
  pose proof He as (_ & Hd & Hb).
  unfold sieve_binary_resolve_offset, sieve_binary_get_code_size,
    buffer_get_used_size, buffer_deref.
  rewrite Hd, Hb. cbn [mbind outcome_bind].
  replace (Z.of_nat (length (old ++ four ++ body)) - Z.of_nat (length old))
    with (4 + Z.of_nat (length body)) by (rewrite !length_app, H4; lia).
  rewrite (to_sieve_size_t_small sizeof_sieve_size_t) by lia.
  rewrite Z.mod_small by lia.
  unfold int_of_uint32.
  replace (4 + Z.of_nat (length body) <? 2 ^ 31) with true
    by (symmetry; apply Z.ltb_lt; lia).
  apply (resolve_offset_for_writes sbin id b old four body); [done|done|lia].
Qed.

(** X3.  Back-patching a jump: an offset is emitted as a placeholder, code
    follows, and [sieve_binary_resolve_offset] at the placeholder's
    address overwrites exactly its four bytes with the distance to the end
    of the code, so that the offset read back there leads to the end. *)
Theorem resolve_offset_leads_to_end (sbin : sieve_binary) (id : Z) (b : nat)
    (old body : list Z) (placeholder : Z) :
  emitting_to sbin id b old →
  Z.of_nat (length old) + 4 + Z.of_nat (length body) < 2 ^ width →
  4 + Z.of_nat (length body) < 2 ^ 31 →
  ∃ sbin4,
    ('(address, sbin1) ← sieve_binary_emit_offset sbin placeholder;
     '(_, sbin2) ← sieve_binary_emit_data sbin1 body;
     sbin3 ← sieve_binary_resolve_offset sizeof_sieve_size_t sbin2 address;
     '(_, sbin4) ← sieve_binary_block_set_active sbin3 id;
     '(ok, next, offset) ← sieve_binary_read_offset sizeof_sieve_size_t sbin4 address;
     Done (ok, next, address + offset, sbin4))
    = Done (true, Z.of_nat (length old) + 4,
            Z.of_nat (length old) + 4 + Z.of_nat (length body), sbin4)
    ∧ code_size sbin4 = Z.of_nat (length old) + 4 + Z.of_nat (length body)
    ∧ buffers sbin4 !! b
      = Some (old ++ offset_bytes (4 + Z.of_nat (length body)) ++ body).
Proof.
  intros He Hroom Hint.
  destruct (emit_offset_appends sbin id b old placeholder He) as (s1 & -> & He1 & _).
  cbn [mbind outcome_bind]. cbn beta iota.
  destruct (emit_data_appends s1 id b _ body He1) as (s2 & -> & He2 & _).
  cbn [mbind outcome_bind]. cbn beta iota.
  rewrite <- app_assoc in He2.
  destruct (resolve_offset_writes s2 id b old (offset_bytes placeholder) body He2
              eq_refl Hroom Hint) as (s3 & -> & He3 & _).
  cbn [mbind outcome_bind]. cbn beta iota.
  destruct (set_active_views s3 id b _ He3) as (s4 & -> & Hv & Hsz & He4).
  { rewrite !length_app, offset_bytes_length. lia. }
  cbn [mbind outcome_bind]. cbn beta iota.
  rewrite !length_app, offset_bytes_length in Hsz.
  rewrite (sieve_binary_read_offset_decodes _ _ _ _ Hv) by lia.
  rewrite decode_offset_bytes by lia.
  cbn [mbind outcome_bind]. cbn beta iota.
  exists s4. split; [by rewrite Z.add_assoc|].
  split; [lia|]. by destruct He4 as (_ & _ & ->).
Qed.

End EmitFacts.

Lemma emit_offset_read_back_witness :
  ('(address, sbin1) ← sieve_binary_emit_offset (binary_of_code [1; 2]) (-5);
   '(_, sbin2) ← sieve_binary_block_set_active sbin1 0;
   sieve_binary_read_offset 4 sbin2 address)
  = Done (true, 6, -5).
Proof.
  apply (emit_offset_read_back 4 (binary_of_code [1; 2]) 0 0%nat [1; 2] (-5)).
  - split; [eexists; split; reflexivity | split; reflexivity].
  - vm_compute. reflexivity.
  - lia.
Defined.

Lemma resolve_offset_leads_to_end_witness :
  ∃ sbin4,
    ('(address, sbin1) ← sieve_binary_emit_offset (binary_of_code [7]) 0;
     '(_, sbin2) ← sieve_binary_emit_data sbin1 [1; 2; 3];
     sbin3 ← sieve_binary_resolve_offset 4 sbin2 address;
     '(_, sbin4) ← sieve_binary_block_set_active sbin3 0;
     '(ok, next, offset) ← sieve_binary_read_offset 4 sbin4 address;
     Done (ok, next, address + offset, sbin4))
    = Done (true, 5, 8, sbin4)
    ∧ buffers sbin4 !! 0%nat = Some [7; 0; 0; 0; 7; 1; 2; 3].
Proof.
  destruct (resolve_offset_leads_to_end 4 (binary_of_code [7]) 0 0%nat [7] [1; 2; 3] 0)
    as (sbin4 & Hrun & _ & Hbuf).
  - split; [eexists; split; reflexivity | split; reflexivity].
  - vm_compute. reflexivity.
  - vm_compute. reflexivity.
  - exists sbin4. split; [exact Hrun | exact Hbuf].
Defined.

(** ** Strings *)

Lemma char_of_byte_code c : char_of_byte (char_code c) = c.
Proof.
  unfold char_of_byte, unsigned_char, char_code.
  pose proof (N_ascii_bounded c) as Hb.
  rewrite Z.mod_small by lia. rewrite N2Z.id. apply ascii_N_embedding.
Qed.

Lemma char_code_of_byte c : char_code (char_of_byte c) = unsigned_char c.
Proof.
  unfold char_of_byte, char_code.
  pose proof (unsigned_char_range c) as Hr.
  rewrite N_ascii_embedding by lia. lia.
Qed.

Lemma string_of_bytes_of_string s : string_of_bytes (bytes_of_string s) = s.
Proof. induction s as [|c s IH]; simpl; [done|]. by rewrite char_of_byte_code, IH. Qed.

Lemma length_bytes_of_string s : length (bytes_of_string s) = String.length s.
Proof. induction s as [|c s IH]; simpl; [done|]. by rewrite IH. Qed.

Lemma strlen_c_string s : is_c_string s → strlen s = Z.of_nat (String.length s).
Proof.
  induction s as [|c s IH]; simpl; [done|]. intros [Hc Hs].
  apply Z.eqb_neq in Hc. rewrite Hc, IH by done. lia.
Qed.

Lemma until_nul_c_string s : is_c_string s → until_nul (bytes_of_string s) = bytes_of_string s.
Proof.
  induction s as [|c s IH]; simpl; [done|]. intros [Hc Hs].
  unfold unsigned_char. pose proof (N_ascii_bounded c) as Hb.
  rewrite Z.mod_small by (unfold char_code; lia).
  apply Z.eqb_neq in Hc. rewrite Hc. by rewrite IH.
Qed.

(** [str_append_n] on the cells of a string of [length payload] bytes
    copies them up to the first NUL. *)
Lemma str_append_n_until_nul payload : ∀ rest,
  str_append_n (string_of_bytes (payload ++ rest)) (Z.of_nat (length payload))
  = string_of_bytes (until_nul payload).
Proof.
  induction payload as [|c payload IH]; intros rest.
  - simpl. by destruct (string_of_bytes rest).
  - cbn [app string_of_bytes str_append_n until_nul length].
    rewrite char_code_of_byte.
    replace (Z.of_nat (S (length payload)) >? 0) with true
      by (symmetry; apply Z.gtb_lt; lia).
    destruct (unsigned_char c =? 0); simpl; [done|].
    replace (Z.of_nat (S (length payload)) - 1) with (Z.of_nat (length payload)) by lia.
    by rewrite IH.
Qed.

Section StringFacts.

Variable sizeof_sieve_size_t : Z.
Hypothesis sizeof_positive : 1 ≤ sizeof_sieve_size_t.

Local Abbreviation size_t := (to_sieve_size_t sizeof_sieve_size_t).
Local Abbreviation width := (sieve_size_bits sizeof_sieve_size_t).
Local Abbreviation fuel := (Z.to_nat (sieve_size_bits sizeof_sieve_size_t)).

Lemma emit_integer_appends sbin id b old x :
  emitting_to sbin id b old →
  0 ≤ x < 2 ^ width → x < 2 ^ (7 * (sizeof_sieve_size_t + 1)) →
  ∃ sbin1,
    sieve_binary_emit_integer sizeof_sieve_size_t sbin x
      = Done (Z.of_nat (length old), sbin1)
    ∧ emitting_to sbin1 id b (old ++ varint_bytes fuel x)
    ∧ active_block sbin1 = active_block sbin.
Proof.
  intros (Hblk & Hd & Hb) Hx Hfit.
  rewrite (sieve_binary_emit_integer_bytes _ sizeof_positive sbin b old x Hd Hb Hx Hfit).
  eexists. split; [done|]. split; [|done].
  split; [exact Hblk|]. split; [exact Hd|].
  simpl. rewrite list_lookup_insert_eq; [done|]. by eapply lookup_lt_Some.
Qed.

Lemma varint_bytes_length x :
  0 ≤ x < 2 ^ width →
  1 ≤ Z.of_nat (length (varint_bytes fuel x)) ≤ sizeof_sieve_size_t * 2.
Proof.
  intros Hx. unfold varint_bytes. rewrite length_app, length_map. simpl length.
  pose proof (high_groups_count sizeof_sieve_size_t x width Hx
                ltac:(unfold sieve_size_bits; lia)) as Hc.
  unfold sieve_size_bits in *. lia.
Qed.

(** A varint in the code is read as the value it encodes. *)
Lemma read_integer_varint binary pre post x :
  code_view sizeof_sieve_size_t binary (pre ++ varint_bytes fuel x ++ post) →
  Z.of_nat (length pre + length (varint_bytes fuel x)) ≤ code_size binary →
  0 ≤ x < 2 ^ width →
  sieve_binary_read_integer sizeof_sieve_size_t binary (Z.of_nat (length pre))
    = Done (true, Z.of_nat (length pre + length (varint_bytes fuel x)), x).
Proof.
  intros Hv Hin Hx.
  pose proof (shiftr_7_bounds x ltac:(lia)) as [H0 Hs].
  pose proof (low_group_range x) as Hlow.
  set (groups := varint_high_groups fuel (Z.shiftr x 7)) in *.
  assert (Hbytes : varint_bytes fuel x = map (fun g => g + 0x80) groups ++ [Z.land x 0x7F])
    by done.
  assert (Hcount : 7 * Z.of_nat (length groups) < width)
    by (apply (high_groups_count sizeof_sieve_size_t x width);
        [done | unfold sieve_size_bits; lia]).
  assert (Hlen : length (varint_bytes fuel x) = S (length groups))
    by (rewrite Hbytes, length_app, length_map; simpl; lia).
  rewrite Hlen in *. rewrite Hbytes, <- app_assoc in Hv. cbn [app] in Hv.
  pose proof Hv as (_ & Hs' & Hw).
  unfold sieve_binary_read_integer.
  rewrite (ADDR_BYTES_LEFT_inside _ _ _ _ Hv) by lia.
  replace (code_size binary - Z.of_nat (length pre) =? 0) with false
    by (symmetry; apply Z.eqb_neq; lia).
  pose proof (read_integer_while_groups sizeof_sieve_size_t binary groups pre
                (Z.land x 0x7F) post 0 width fuel Hv) as Hread.
  change (0 * 128) with 0 in Hread.
  pose proof (read_groups_high fuel (Z.shiftr x 7)
                ltac:(apply (fuel_covers _ sizeof_positive); lia)) as Hhigh.
  fold groups in Hhigh. rewrite Hhigh, <- split_low_group in Hread.
  rewrite Hread.
  - do 3 f_equal. lia.
  - lia.
  - apply varint_high_groups_range.
  - done.
  - lia.
  - lia.
  - done.
  - unfold sieve_size_bits in *. lia.
Qed.

(** A string emitted with its length and a closing NUL, and read back. *)
Lemma emit_dynamic_data_read_string sbin id b old payload :
  emitting_to sbin id b old →
  Z.of_nat (length old) + sizeof_sieve_size_t * 2 + Z.of_nat (length payload) + 1
    < 2 ^ width →
  Z.of_nat (length payload) < 2 ^ (7 * (sizeof_sieve_size_t + 1)) →
  ∃ sbin1 sbin2 sbin3,
    sieve_binary_emit_dynamic_data sizeof_sieve_size_t sbin payload
      = Done (Z.of_nat (length old), sbin1)
    ∧ sieve_binary_emit_byte sbin1 0 = Done
        (Z.of_nat (length (old ++ varint_bytes fuel (Z.of_nat (length payload)) ++ payload)),
         sbin2)
    ∧ buffers sbin2 !! b
      = Some (old ++ varint_bytes fuel (Z.of_nat (length payload)) ++ payload ++ [0])
    ∧ sieve_binary_block_set_active sbin2 id = Done (active_block sbin, sbin3)
    ∧ code_size sbin3
      = Z.of_nat (length (old ++ varint_bytes fuel (Z.of_nat (length payload))
                          ++ payload ++ [0]))
    ∧ sieve_binary_read_string sizeof_sieve_size_t sbin3 (Z.of_nat (length old))
      = Done (true, code_size sbin3, string_of_bytes (until_nul payload)).
Proof.
  intros He Hroom Hfit.
  set (n := Z.of_nat (length payload)) in *.
  assert (Hn : 0 ≤ n < 2 ^ width) by lia.
  pose proof (varint_bytes_length n Hn) as Hvl.
  unfold sieve_binary_emit_dynamic_data. fold n.
  destruct (emit_integer_appends sbin id b old n He Hn Hfit) as (s1 & -> & He1 & Ha1).
  cbn [mbind outcome_bind]. cbn beta iota.
  destruct (emit_data_appends s1 id b _ payload He1) as (s2 & -> & He2 & Ha2).
  cbn [mbind outcome_bind]. cbn beta iota.
  destruct (emit_byte_appends s2 id b _ 0 He2) as (s3 & Hbyte & He3 & Ha3).
  change (unsigned_char 0) with 0 in He3.
  rewrite <- !app_assoc in He2. rewrite <- !app_assoc in He3.
  rewrite <- !app_assoc in Hbyte.
  destruct (set_active_views sizeof_sieve_size_t s3 id b _ He3) as (s4 & Hact & Hv & Hsz & _).
  { rewrite !length_app. simpl length. lia. }
  exists s2, s3, s4. split; [done|]. split; [done|].
  split; [by destruct He3 as (_ & _ & ->)|].
  split; [rewrite Hact; do 2 f_equal; congruence|]. split; [done|].
  unfold sieve_binary_read_string.
  rewrite (read_integer_varint s4 old (payload ++ [0]) n Hv) by
    (rewrite ?Hsz, ?length_app; simpl length; lia).
  cbn [mbind outcome_bind]. cbn beta iota. cbn [negb].
  pose proof Hv as (Hderef & _ & _).
  rewrite !length_app in Hsz. simpl length in Hsz.
  rewrite (ADDR_BYTES_LEFT_inside _ _ _ _ Hv) by lia.
  replace (n >? code_size s4 - Z.of_nat (length old + length (varint_bytes fuel n))) with false
    by (symmetry; rewrite Z.gtb_ltb; apply Z.ltb_ge; lia).
  rewrite Hderef. cbn [mbind outcome_bind]. cbn beta.
  replace ((0 <=? Z.of_nat (length old + length (varint_bytes fuel n)))
           && (Z.of_nat (length old + length (varint_bytes fuel n))
               <=? Z.of_nat (length (old ++ (varint_bytes fuel n) ++ payload ++ [0])))) with true
    by (symmetry; apply andb_true_iff; split; apply Z.leb_le;
        rewrite ?length_app; simpl length; lia).
  cbn [mbind outcome_bind]. cbn beta.
  rewrite Nat2Z.id.
  replace (drop (length old + length (varint_bytes fuel n)) (old ++ (varint_bytes fuel n) ++ payload ++ [0]))
    with (payload ++ [0])
    by (rewrite app_assoc, <- length_app; by rewrite drop_app_length).
  subst n. rewrite str_append_n_until_nul.
  set (n := Z.of_nat (length payload)) in *.
  rewrite (to_sieve_size_t_small sizeof_sieve_size_t) by lia.
  unfold ADDR_CODE_AT. rewrite Hderef. cbn [mbind outcome_bind]. cbn beta.
  rewrite (array_at_Done _ _ 0) by (rewrite !length_app; simpl length; lia).
  replace (Z.to_nat (Z.of_nat (length old + length (varint_bytes fuel n)) + n))
    with (length (old ++ (varint_bytes fuel n) ++ payload))
    by (rewrite !length_app; lia).
  replace (old ++ (varint_bytes fuel n) ++ payload ++ [0]) with ((old ++ (varint_bytes fuel n) ++ payload) ++ [0])
    by (by rewrite <- !app_assoc).
  rewrite nth_middle. cbn [Z.eqb negb].
  rewrite (to_sieve_size_t_small sizeof_sieve_size_t) by lia.
  cbn [mbind outcome_bind Z.eqb negb]. do 3 f_equal. lia.
Qed.

(** X4.  A C string is read back as it was emitted, and the address ends
    just past its closing NUL, at the end of the code. *)
Theorem emit_cstring_read_back (sbin : sieve_binary) (id : Z) (b : nat)
    (old : list Z) (str : string) :
  emitting_to sbin id b old → is_c_string str →
  Z.of_nat (length old) + sizeof_sieve_size_t * 2
    + Z.of_nat (String.length str) + 1 < 2 ^ width →
  Z.of_nat (String.length str) < 2 ^ (7 * (sizeof_sieve_size_t + 1)) →
  ∃ sbin1 sbin2,
    sieve_binary_emit_cstring sizeof_sieve_size_t sbin str
      = Done (Z.of_nat (length old), sbin1)
    ∧ sieve_binary_block_set_active sbin1 id = Done (active_block sbin, sbin2)
    ∧ sieve_binary_read_string sizeof_sieve_size_t sbin2 (Z.of_nat (length old))
      = Done (true, code_size sbin2, str).
Proof.
  intros He Hstr Hroom Hfit.
  unfold sieve_binary_emit_cstring.
  rewrite (strlen_c_string str Hstr), Nat2Z.id.
  rewrite <- (length_bytes_of_string str), firstn_all.
  rewrite <- (length_bytes_of_string str) in Hroom, Hfit.
  destruct (emit_dynamic_data_read_string sbin id b old (bytes_of_string str) He Hroom Hfit)
    as (s1 & s2 & s3 & -> & Hbyte & _ & Hact & _ & Hread).
  cbn [mbind outcome_bind]. cbn beta iota. rewrite Hbyte.
  cbn [mbind outcome_bind]. cbn beta iota.
  exists s2, s3. split; [done|]. split; [done|].
  by rewrite Hread, (until_nul_c_string str Hstr), string_of_bytes_of_string.
Qed.

(** X5.  A [string_t] may hold NUL bytes, and [sieve_binary_emit_string]
    emits them all; what [sieve_binary_read_string] gives back is the
    string up to its first NUL, with result TRUE and the address past the
    whole string. *)
Theorem emit_string_read_back_until_nul (sbin : sieve_binary) (id : Z) (b : nat)
    (old str : list Z) :
  emitting_to sbin id b old →
  Z.of_nat (length old) + sizeof_sieve_size_t * 2 + Z.of_nat (length str) + 1
    < 2 ^ width →
  Z.of_nat (length str) < 2 ^ (7 * (sizeof_sieve_size_t + 1)) →
  ∃ sbin1 sbin2,
    sieve_binary_emit_string sizeof_sieve_size_t sbin str
      = Done (Z.of_nat (length old), sbin1)
    ∧ buffers sbin1 !! b
      = Some (old ++ varint_bytes fuel (Z.of_nat (length str)) ++ str ++ [0])
    ∧ sieve_binary_block_set_active sbin1 id = Done (active_block sbin, sbin2)
    ∧ sieve_binary_read_string sizeof_sieve_size_t sbin2 (Z.of_nat (length old))
      = Done (true, code_size sbin2, string_of_bytes (until_nul str))
    ∧ code_size sbin2
      = Z.of_nat (length old + length (varint_bytes fuel (Z.of_nat (length str)))
                  + length str + 1).
Proof.
  intros He Hroom Hfit.
  unfold sieve_binary_emit_string.
  destruct (emit_dynamic_data_read_string sbin id b old str He Hroom Hfit)
    as (s1 & s2 & s3 & -> & Hbyte & Hbuf & Hact & Hsz & Hread).
  cbn [mbind outcome_bind]. cbn beta iota. rewrite Hbyte.
  cbn [mbind outcome_bind]. cbn beta iota.
  exists s2, s3. split; [done|]. split; [done|].
  split; [done|]. split; [done|].
  rewrite Hsz, !length_app. simpl length. f_equal. lia.
Qed.

End StringFacts.

Lemma emit_cstring_read_back_witness :
  ∃ sbin1 sbin2,
    sieve_binary_emit_cstring 4 (binary_of_code [9]) "hi" = Done (1, sbin1)
    ∧ sieve_binary_block_set_active sbin1 0 = Done (0, sbin2)
    ∧ sieve_binary_read_string 4 sbin2 1 = Done (true, code_size sbin2, "hi"%string).
Proof.
  apply (emit_cstring_read_back 4 ltac:(lia) (binary_of_code [9]) 0 0%nat [9] "hi").
  - split; [eexists; split; reflexivity | split; reflexivity].
  - cbn. repeat split; discriminate.
  - vm_compute. reflexivity.
  - vm_compute. reflexivity.
Defined.

Lemma emit_string_read_back_until_nul_witness :
  ∃ sbin1 sbin2,
    sieve_binary_emit_string 4 (binary_of_code []) [104; 0; 105] = Done (0, sbin1)
    ∧ buffers sbin1 !! 0%nat = Some [3; 104; 0; 105; 0]
    ∧ sieve_binary_block_set_active sbin1 0 = Done (0, sbin2)
    ∧ sieve_binary_read_string 4 sbin2 0 = Done (true, code_size sbin2, "h"%string)
    ∧ code_size sbin2 = 5.
Proof.
  apply (emit_string_read_back_until_nul 4 ltac:(lia) (binary_of_code []) 0 0%nat
           [] [104; 0; 105]).
  - split; [eexists; split; reflexivity | split; reflexivity].
  - vm_compute. reflexivity.
  - vm_compute. reflexivity.
Defined.

Lemma emit_integer_read_back_witness :
  ∃ sbin1 sbin2,
    sieve_binary_emit_integer 4 (binary_of_code [9]) 300 = Done (1, sbin1)
    ∧ buffers sbin1 !! 0%nat = Some [9; 0x82; 0x2C]
    ∧ sieve_binary_block_set_active sbin1 0 = Done (0, sbin2)
    ∧ sieve_binary_read_integer 4 sbin2 1 = Done (true, 3, 300).
Proof.
  destruct (emit_integer_read_back 4 ltac:(lia) (binary_of_code [9]) 0
              {| blk_buffer := Some 0%nat; blk_ext_index := 0;
                 blk_ext_id := 0; blk_offset := 0 |} 0%nat [9] 300)
    as (sbin1 & sbin2 & H1 & H2 & H3 & H4).
  - reflexivity.
  - reflexivity.
  - reflexivity.
  - reflexivity.
  - vm_compute. reflexivity.
  - vm_compute. split; congruence.
  - vm_compute. reflexivity.
  - exists sbin1, sbin2. split; [exact H1|]. split; [exact H2|].
    split; [exact H3 | exact H4].
Defined.

(** ** Reads stay inside the block *)

Section ReadFacts.

Variable sizeof_sieve_size_t : Z.

Local Abbreviation size_t := (to_sieve_size_t sizeof_sieve_size_t).
Local Abbreviation width := (sieve_size_bits sizeof_sieve_size_t).




End ReadFacts.


(** ** Blocks of a binary *)

(** X26.  A block made by [sieve_binary_block_create] gets the next id and
    an empty buffer of its own; once it is the active block, what is
    emitted goes to that buffer, from address 0 on, and the other blocks
    and their buffers stay as they are. *)
Theorem block_create_then_emit (sbin : sieve_binary) (bytes : list Z) :
  let id := sieve_binary_block_count sbin in
  let b := length (buffers sbin) in
  ∃ sbin1 sbin2 sbin3,
    sieve_binary_block_create sbin = (id, sbin1)
    ∧ sieve_binary_block_set_active sbin1 id = Done (active_block sbin, sbin2)
    ∧ code_size sbin2 = 0
    ∧ sieve_binary_emit_data sbin2 bytes = Done (0, sbin3)
    ∧ sieve_binary_block_count sbin3 = id + 1
    ∧ (∃ block, sieve_binary_block_get sbin3 id = Some block ∧ blk_buffer block = Some b)
    ∧ buffers sbin3 !! b = Some bytes
    ∧ (∀ other, other ≠ id →
         sieve_binary_block_get sbin3 other = sieve_binary_block_get sbin other)
    ∧ (∀ b', b' ≠ b → buffers sbin3 !! b' = buffers sbin !! b').
Proof.
  intros id b.
  set (block := {| blk_buffer := Some b; blk_ext_index := 0; blk_ext_id := 0;
                   blk_offset := 0 |}).
  set (sbin1 := set_blocks (set_buffers sbin (buffers sbin ++ [[]]))
                  (blocks sbin ++ [Some block])).
  assert (Hget : sieve_binary_block_get sbin1 id = Some block).
  { unfold sieve_binary_block_get, sbin1, id, sieve_binary_block_count.
    cbn [blocks set_blocks set_buffers]. rewrite length_app. simpl length.
    replace (Z.of_nat (length (blocks sbin) + 1) <=? Z.of_nat (length (blocks sbin)))
      with false by (symmetry; apply Z.leb_gt; lia).
    replace (Z.of_nat (length (blocks sbin)) <? 0) with false
      by (symmetry; apply Z.ltb_ge; lia).
    by rewrite Nat2Z.id, list_lookup_middle. }
  assert (Hb : buffers sbin1 !! b = Some []).
  { unfold sbin1, b. cbn [buffers set_blocks set_buffers]. by rewrite list_lookup_middle. }
  set (sbin2 := set_active_view sbin1 id (Some b) 0).
  set (sbin3 := set_buffers sbin2 (<[b := bytes]> (buffers sbin2))).
  exists sbin1, sbin2, sbin3.
  split; [reflexivity|]. split.
  { unfold sieve_binary_block_set_active. rewrite Hget.
    unfold buffer_get_used_size, buffer_deref. cbn [blk_buffer block]. by rewrite Hb. }
  split; [reflexivity|]. split.
  { unfold sieve_binary_emit_data, buffer_get_used_size, buffer_append, buffer_deref.
    cbn [sbin2 set_active_view data buffers]. by rewrite Hb. }
  cbn [sbin3 sbin2 set_buffers set_active_view sbin1 set_blocks blocks buffers].
  split; [|split; [|split; [|split]]].
  - unfold id, sieve_binary_block_count.
    cbn [sbin3 sbin2 set_buffers set_active_view sbin1 set_blocks blocks].
    rewrite length_app. simpl length. lia.
  - exists block. split; [|done]. revert Hget. unfold sieve_binary_block_get.
    by cbn [sbin3 sbin2 set_active_view sbin1 set_blocks set_buffers blocks].
  - apply list_lookup_insert_eq. rewrite length_app. simpl length. unfold b. lia.
  - intros other Ho. unfold sieve_binary_block_get.
    cbn [sbin3 sbin2 set_buffers set_active_view sbin1 set_blocks blocks].
    rewrite length_app. simpl length. unfold id, sieve_binary_block_count in Ho.
    destruct (Z.of_nat (length (blocks sbin)) <=? other) eqn:E1.
    + apply Z.leb_le in E1.
      destruct (Z.of_nat (length (blocks sbin) + 1) <=? other) eqn:E2; [done|].
      apply Z.leb_gt in E2. lia.
    + apply Z.leb_gt in E1.
      replace (Z.of_nat (length (blocks sbin) + 1) <=? other) with false
        by (symmetry; apply Z.leb_gt; lia).
      destruct (other <? 0) eqn:E3; [done|]. apply Z.ltb_ge in E3.
      rewrite lookup_app_l by lia. done.
  - intros b' Hb'. rewrite list_lookup_insert_ne by done.
    destruct (decide (b' < length (buffers sbin))%nat) as [Hlt|Hge].
    + by rewrite lookup_app_l.
    + rewrite !lookup_ge_None_2; [done|lia|]. rewrite length_app. simpl length.
      unfold b in Hb'. lia.
Qed.

(** ** The extensions linked to a binary *)

Lemma array_idx_set_lookup_eq {A : Type} (a : list (option A)) (i : nat) (x : A) :
  array_idx_set a i x !! i = Some (Some x).
Proof.
  unfold array_idx_set. apply list_lookup_insert_eq.
  rewrite length_app, length_replicate. lia.
Qed.

Lemma array_idx_set_lookup_ne {A : Type} (a : list (option A)) (i j : nat) (x y : A) :
  j ≠ i → array_idx_set a i x !! j = Some (Some y) ↔ a !! j = Some (Some y).
Proof.
  intros Hne. unfold array_idx_set. rewrite list_lookup_insert_ne by done.
  destruct (decide (j < length a)%nat) as [Hlt|Hge].
  - by rewrite lookup_app_l by done.
  - rewrite lookup_app_r by lia. rewrite (lookup_ge_None_2 a j) by lia.
    split; [|done]. intros [[=] _]%lookup_replicate_1.
Qed.

Lemma array_idx_set_end {A : Type} (a : list (option A)) (x : A) :
  array_idx_set a (length a) x = a ++ [Some x].
Proof.
  unfold array_idx_set. replace (S (length a) - length a)%nat with 1%nat by lia.
  simpl replicate. replace (length a) with (length a + 0)%nat at 1 by lia.
  by rewrite insert_app_r.
Qed.

Lemma get_reg_lookup sbin ext_id r :
  sieve_binary_extension_get_reg sbin ext_id = Some r
  ↔ 0 ≤ ext_id ∧ extension_index sbin !! Z.to_nat ext_id = Some (Some r).
Proof.
  unfold sieve_binary_extension_get_reg.
  destruct (_ && _) eqn:E.
  - apply andb_true_iff in E as [E1%Z.leb_le E2%Z.ltb_lt].
    destruct (extension_index sbin !! Z.to_nat ext_id) as [c|] eqn:L.
    + split; [by intros ->|]. by intros [_ [= ->]].
    + split; [done|]. by intros [_ ?].
  - apply andb_false_iff in E as [E%Z.leb_gt | E%Z.ltb_ge].
    + split; [done|]. intros [? _]. lia.
    + split; [done|]. intros [_ L]. apply lookup_lt_Some in L. lia.
Qed.

Section RegistryFacts.

Variable sieve_extension_get_by_id : Z -> bool.

Local Abbreviation link := (sieve_binary_extension_link sieve_extension_get_by_id).

(** X7.  Linking an extension that the binary does not know yet gives it
    the next index; afterwards the index of the extension and the
    extension at the index are found, the other extensions keep their
    index, and a second link of the same extension changes nothing and
    answers -1. *)
Theorem extension_link_then_lookup (sbin : sieve_binary) (ext_id : Z) :
  sieve_extension_get_by_id ext_id = true → 0 ≤ ext_id →
  sieve_binary_extension_get_index sbin ext_id = -1 →
  let index := sieve_binary_extensions_count sbin in
  let sbin1 := snd (link sbin ext_id) in
  fst (link sbin ext_id) = index
  ∧ sieve_binary_extension_get_index sbin1 ext_id = index
  ∧ sieve_binary_extension_get_by_index sbin1 index = Done (Some ext_id, ext_id)
  ∧ sieve_binary_extensions_count sbin1 = index + 1
  ∧ linked_extensions sbin1
    = linked_extensions sbin
      ++ [{| reg_index := index; reg_ext_id := ext_id; reg_block_id := 0 |}]
  ∧ (∀ other, other ≠ ext_id →
       sieve_binary_extension_get_index sbin1 other
       = sieve_binary_extension_get_index sbin other)
  ∧ link sbin1 ext_id = (-1, sbin1).
Proof.
  intros Hext Hid Hnew index sbin1.
  set (ereg := {| reg_index := index; reg_ext_id := ext_id; reg_block_id := 0 |}).
  assert (Hlink : link sbin ext_id
                  = (index,
                     set_extensions sbin (extensions sbin ++ [Some ereg])
                       (array_idx_set (extension_index sbin) (Z.to_nat ext_id) ereg)
                       (linked_extensions sbin ++ [ereg]))).
  { unfold sieve_binary_extension_link. rewrite Hext, Hnew. cbn [andb Z.eqb].
    unfold sieve_binary_extension_create_reg. cbn [extensions extension_index
      linked_extensions set_extensions reg_index]. rewrite Nat2Z.id.
    by rewrite array_idx_set_end. }
  subst sbin1. rewrite Hlink. cbn [fst snd].
  set (sbin1 := set_extensions _ _ _ _).
  assert (Hreg : sieve_binary_extension_get_reg sbin1 ext_id = Some ereg).
  { apply get_reg_lookup. split; [done|]. apply array_idx_set_lookup_eq. }
  assert (Hidx : sieve_binary_extension_get_index sbin1 ext_id = index)
    by (unfold sieve_binary_extension_get_index; by rewrite Hreg).
  split; [done|]. split; [done|]. split; [|split; [|split; [done|split]]].
  - unfold sieve_binary_extension_get_by_index, array_idx. subst sbin1 index.
    cbn [extensions set_extensions]. unfold sieve_binary_extensions_count.
    rewrite length_app. simpl length.
    replace (Z.of_nat (length (extensions sbin)) <? Z.of_nat (length (extensions sbin) + 1))
      with true by (symmetry; apply Z.ltb_lt; lia).
    replace (0 <=? Z.of_nat (length (extensions sbin))) with true
      by (symmetry; apply Z.leb_le; lia).
    cbn [andb]. rewrite Nat2Z.id.
    by rewrite list_lookup_middle by done.
  - subst sbin1 index. unfold sieve_binary_extensions_count.
    cbn [extensions set_extensions]. rewrite length_app. simpl length. lia.
  - intros other Hother. unfold sieve_binary_extension_get_index.
    destruct (sieve_binary_extension_get_reg sbin1 other) as [r|] eqn:E1;
      destruct (sieve_binary_extension_get_reg sbin other) as [r'|] eqn:E2; try done.
    + apply get_reg_lookup in E1 as [H0 E1]. apply get_reg_lookup in E2 as [_ E2].
      subst sbin1. cbn [extension_index set_extensions] in E1.
      apply array_idx_set_lookup_ne in E1; [congruence|lia].
    + apply get_reg_lookup in E1 as [H0 E1].
      subst sbin1. cbn [extension_index set_extensions] in E1.
      apply array_idx_set_lookup_ne in E1; [|lia].
      assert (sieve_binary_extension_get_reg sbin other = Some r)
        by (by apply get_reg_lookup). congruence.
    + apply get_reg_lookup in E2 as [H0 E2].
      assert (sieve_binary_extension_get_reg sbin1 other = Some r').
      { apply get_reg_lookup. split; [done|]. subst sbin1.
        cbn [extension_index set_extensions].
        apply array_idx_set_lookup_ne; [lia|done]. }
      congruence.
  - unfold sieve_binary_extension_link. rewrite Hidx, Hext. cbn [andb].
    replace (index =? -1) with false; [done|].
    symmetry. apply Z.eqb_neq. subst index. unfold sieve_binary_extensions_count. lia.
Qed.

Hypothesis extension_ids_not_negative :
  ∀ ext_id, sieve_extension_get_by_id ext_id = true → 0 ≤ ext_id.

Lemma link_keeps_registry_ok sbin ext_id :
  registry_ok sbin → registry_ok (snd (link sbin ext_id)).
Proof.
  intros [Hexts Hidx]. unfold sieve_binary_extension_link.
  destruct (sieve_extension_get_by_id ext_id) eqn:Hext; [|done].
  destruct (_ =? -1) eqn:Hnew; [|done]. apply Z.eqb_eq in Hnew.
  pose proof (extension_ids_not_negative _ Hext) as Hid.
  cbn [andb]. unfold sieve_binary_extension_create_reg.
  cbn [snd extensions extension_index linked_extensions set_extensions reg_index].
  rewrite Nat2Z.id, array_idx_set_end.
  set (ereg := {| reg_index := Z.of_nat (length (extensions sbin));
                  reg_ext_id := ext_id; reg_block_id := 0 |}).
  assert (Hfree : ∀ r, extension_index sbin !! Z.to_nat ext_id ≠ Some (Some r)).
  { intros r Hr. unfold sieve_binary_extension_get_index in Hnew.
    assert (sieve_binary_extension_get_reg sbin ext_id = Some r) as E
      by (by apply get_reg_lookup).
    rewrite E in Hnew. apply Hidx in Hr as (_ & _ & ?). lia. }
  split; cbn [extensions extension_index set_extensions].
  - intros i c Hi. apply lookup_app_Some in Hi as [Hi | [Hlen Hi]].
    + destruct (Hexts i c Hi) as (r & -> & Hri & Hre & Hrl).
      exists r. repeat split; try done.
      apply array_idx_set_lookup_ne; [|done].
      intros Heq. rewrite Heq in Hrl. by apply Hfree in Hrl.
    + apply list_lookup_singleton_Some in Hi as [Hi <-].
      exists ereg. repeat split; try done.
      * simpl. lia.
      * apply array_idx_set_lookup_eq.
  - intros e r He. destruct (decide (e = Z.to_nat ext_id)) as [->|Hne].
    + rewrite array_idx_set_lookup_eq in He. injection He as <-.
      split; [simpl; lia|]. split; [|simpl; lia].
      simpl reg_index. rewrite Nat2Z.id.
      by rewrite list_lookup_middle by done.
    + apply array_idx_set_lookup_ne in He; [|done].
      destruct (Hidx e r He) as (? & Hl & ?). repeat split; try done.
      by apply lookup_app_l_Some.
Qed.

Lemma link_extensions_registry_ok ids : ∀ sbin,
  registry_ok sbin → registry_ok (link_extensions sieve_extension_get_by_id sbin ids).
Proof.
  induction ids as [|e ids IH]; intros sbin Hok; [done|].
  apply IH. by apply link_keeps_registry_ok.
Qed.

(** X8.  Whatever extensions are linked to a binary that starts without
    any, the two maps of the binary are inverse to one another: the
    extension found at the index of an extension is that extension, and
    the index of the extension found at an index is that index. *)
Theorem extension_index_maps_are_inverse (sbin0 : sieve_binary) (ids : list Z) :
  extensions sbin0 = [] → extension_index sbin0 = [] →
  let sbin := link_extensions sieve_extension_get_by_id sbin0 ids in
  (∀ ext_id index,
     sieve_binary_extension_get_index sbin ext_id = index → index ≠ -1 →
     sieve_binary_extension_get_by_index sbin index = Done (Some ext_id, ext_id))
  ∧ (∀ index ext_id out,
       sieve_binary_extension_get_by_index sbin index = Done (Some ext_id, out) →
       out = ext_id ∧ sieve_binary_extension_get_index sbin ext_id = index).
Proof.
  intros He Hi sbin.
  assert (Hok : registry_ok sbin).
  { apply link_extensions_registry_ok. split.
    - intros i c. by rewrite He.
    - intros e r. by rewrite Hi. }
  destruct Hok as [Hexts Hidx]. split.
  - intros ext_id index Hget Hfound. unfold sieve_binary_extension_get_index in Hget.
    destruct (sieve_binary_extension_get_reg sbin ext_id) as [r|] eqn:E; [|congruence].
    apply get_reg_lookup in E as [H0 E]. destruct (Hidx _ _ E) as (Hre & Hl & Hri).
    subst index. pose proof (lookup_lt_Some _ _ _ Hl) as Hlt.
    unfold sieve_binary_extension_get_by_index, array_idx.
    replace (reg_index r <? Z.of_nat (length (extensions sbin))) with true
      by (symmetry; apply Z.ltb_lt; lia).
    replace (0 <=? reg_index r) with true by (symmetry; apply Z.leb_le; lia).
    cbn [andb]. rewrite Hl. cbn [mbind outcome_bind].
    replace (reg_ext_id r) with ext_id by lia. done.
  - intros index ext_id out. unfold sieve_binary_extension_get_by_index, array_idx.
    destruct (index <? _) eqn:E1; [|done].
    destruct (0 <=? index) eqn:E2; cbn [andb]; [|done]. apply Z.leb_le in E2.
    destruct (extensions sbin !! Z.to_nat index) as [c|] eqn:L; [|done].
    cbn [mbind outcome_bind].
    destruct (Hexts _ _ L) as (r & -> & Hri & Hre & Hl).
    intros [= <- <-]. split; [done|].
    unfold sieve_binary_extension_get_index.
    assert (sieve_binary_extension_get_reg sbin (reg_ext_id r) = Some r) as ->
      by (by apply get_reg_lookup).
    lia.
Qed.

End RegistryFacts.

Lemma extension_link_then_lookup_witness :
  let known := fun e => (0 <=? e) && (e <? 10) in
  let sbin1 := snd (sieve_binary_extension_link known (binary_of_code []) 3) in
  sieve_binary_extension_get_index sbin1 3 = 0
  ∧ sieve_binary_extension_get_by_index sbin1 0 = Done (Some 3, 3)
  ∧ sieve_binary_extension_link known sbin1 3 = (-1, sbin1).
Proof.
  intros known sbin1.
  destruct (extension_link_then_lookup known (binary_of_code []) 3)
    as (_ & H1 & H2 & _ & _ & _ & H3).
  - reflexivity.
  - lia.
  - reflexivity.
  - split; [exact H1|]. split; [exact H2 | exact H3].
Defined.

Lemma extension_index_maps_are_inverse_witness :
  let known := fun e => (0 <=? e) && (e <? 10) in
  let sbin := link_extensions known (binary_of_code []) [3; 5; 3] in
  sieve_binary_extension_get_index sbin 5 = 1
  ∧ sieve_binary_extension_get_by_index sbin 1 = Done (Some 5, 5).
Proof.
  intros known sbin. split; [reflexivity|].
  destruct (extension_index_maps_are_inverse known
              ltac:(intros e H; apply andb_true_iff in H as [H _];
                    by apply Z.leb_le in H)
              (binary_of_code []) [3; 5; 3] eq_refl eq_refl) as [H _].
  apply (H 5 1); [reflexivity | discriminate].
Defined.

(** ** Loading a binary: a file without a header *)

Lemma load_rejects_short_file_witness :
  let sbin := {| path := "script.svbin"; memory := [0xde; 0xad; 0xbe]; memory_size := 3;
                 extensions := []; extension_index := []; linked_extensions := [];
                 blocks := []; active_block := 0; buffers := [];
                 data := None; code := None; code_size := 0 |} in
  _sieve_binary_load 8 false (fun _ => -1) (fun _ => false) sbin []
  = Done (false, sbin,
          [I_error "sieve: loaded binary %s is not even large enough to contain a header."
             [ArgS "script.svbin"]]).
Proof.
  intros sbin.
  apply (load_rejects_short_file 8 false (fun _ => -1) (fun _ => false) sbin []).
  vm_compute. reflexivity.
Defined.

(** ** Loading a binary: version and block count *)

Section LoadHeaderFacts.

Variable sizeof_sieve_size_t : Z.
Variable big_endian : bool.
Variable sieve_extension_get_by_name : string -> Z.
Variable sieve_extension_get_by_id : Z -> bool.

(** X27.  A file with the right magic but another version is rejected
    without a message (the caller recompiles), and one of the right
    version that announces no blocks is rejected with an error; the binary
    stays as it is. *)
Theorem load_rejects_other_version (sbin : sieve_binary) (log : list message)
    (major minor blks : Z) :
  sizeof_sieve_binary_header ≤ memory_size sbin ≤ Z.of_nat (length (memory sbin)) →
  load_uint big_endian (memory sbin) 0 4 = Done SIEVE_BINARY_MAGIC →
  load_uint big_endian (memory sbin) 4 2 = Done major →
  load_uint big_endian (memory sbin) 6 2 = Done minor →
  load_uint big_endian (memory sbin) 8 4 = Done blks →
  let result := _sieve_binary_load sizeof_sieve_size_t big_endian
                  sieve_extension_get_by_name sieve_extension_get_by_id sbin log in
  (major ≠ SIEVE_BINARY_VERSION_MAJOR ∨ minor ≠ SIEVE_BINARY_VERSION_MINOR →
   result = Done (false, sbin, log))
  ∧ (major = SIEVE_BINARY_VERSION_MAJOR → minor = SIEVE_BINARY_VERSION_MINOR →
     blks = 0 →
     result = Done (false, sbin,
                    log ++ [I_error "sieve: loaded binary %s contains no blocks"
                              [ArgS (path sbin)]])).
Proof.
  intros Hsize Hmagic Hmajor Hminor Hblks result.
  assert (Hhead : result
            = if negb (major =? SIEVE_BINARY_VERSION_MAJOR)
                 || negb (minor =? SIEVE_BINARY_VERSION_MINOR)
              then Done (false, sbin, log)
              else if blks =? 0
              then Done (false, sbin,
                         log ++ [I_error "sieve: loaded binary %s contains no blocks"
                                   [ArgS (path sbin)]])
              else result).
  { subst result.
    destruct (negb (major =? SIEVE_BINARY_VERSION_MAJOR)
              || negb (minor =? SIEVE_BINARY_VERSION_MINOR)) eqn:Hv;
      [|destruct (blks =? 0) eqn:Hz; [|done]];
      unfold sizeof_sieve_binary_header in Hsize;
      unfold _sieve_binary_load, load_aligned_data;
      change (SIEVE_BINARY_ALIGN 0) with 0; unfold sizeof_sieve_binary_header;
      (replace (0 + 12 <=? memory_size sbin) with true by (symmetry; apply Z.leb_le; lia));
      unfold read_sieve_binary_header;
      change (0 + 4) with 4; change (0 + 6) with 6; change (0 + 8) with 8;
      rewrite Hmagic, Hmajor, Hminor, Hblks;
      cbn [mbind outcome_bind hdr_magic hdr_version_major hdr_version_minor hdr_blocks];
      rewrite Z.eqb_refl; cbn [negb]; rewrite Hv; [done|]; by rewrite Hz. }
  split.
  - intros Hne. rewrite Hhead.
    replace (negb (major =? SIEVE_BINARY_VERSION_MAJOR)
             || negb (minor =? SIEVE_BINARY_VERSION_MINOR)) with true; [done|].
    symmetry. apply orb_true_iff.
    destruct Hne as [Hne|Hne]; [left|right]; apply negb_true_iff; by apply Z.eqb_neq.
  - intros -> -> ->. rewrite Hhead. by rewrite !Z.eqb_refl.
Qed.

End LoadHeaderFacts.

Lemma load_rejects_other_version_witness :
  let file := [0xaf; 0xbe; 0xad; 0xde; 0xff; 0; 0; 0; 1; 0; 0; 0] in
  let sbin := {| path := "script.svbin"; memory := file; memory_size := 12;
                 extensions := []; extension_index := []; linked_extensions := [];
                 blocks := []; active_block := 0; buffers := [];
                 data := None; code := None; code_size := 0 |} in
  _sieve_binary_load 8 false (fun _ => -1) (fun _ => false) sbin
    [Printf "loading" []]
  = Done (false, sbin, [Printf "loading" []]).
Proof.
  intros file sbin.
  refine (proj1 (load_rejects_other_version 8 false (fun _ => -1) (fun _ => false)
                   sbin [Printf "loading" []] 0xff 0 1 _ eq_refl eq_refl eq_refl eq_refl) _).
  - vm_compute. split; congruence.
  - left. vm_compute. congruence.
Defined.

(** ** Loops: starting, finding, iterating and leaving *)

Lemma loop_get_for_finds_innermost loops loop_end ext_def i :
  (i ≤ length loops)%nat →
  ∃ r, loop_get_for i loops loop_end ext_def = Done r
       ∧ match r with
         | Some k =>
             (k < i)%nat
             ∧ (∃ l, loops !! k = Some l ∧ loop_is loop_end ext_def l)
             ∧ ∀ j l, (k < j < i)%nat → loops !! j = Some l →
                      ¬ loop_is loop_end ext_def l
         | None => ∀ j l, (j < i)%nat → loops !! j = Some l →
                          ¬ loop_is loop_end ext_def l
         end.
Proof.
  induction i as [|i IH]; intros Hi.
  - exists None. split; [done|]. intros j l Hj. lia.
  - cbn [loop_get_for].
    destruct (lookup_lt_is_Some_2 loops i ltac:(lia)) as [l Hl].
    rewrite (array_at_Done loops (Z.of_nat i) l) by lia.
    rewrite Nat2Z.id, (nth_lookup_Some _ _ _ _ Hl). cbn [mbind outcome_bind].
    destruct ((lp_end l =? loop_end) && (lp_ext_def l =? ext_def)) eqn:E.
    + apply andb_true_iff in E as [E1%Z.eqb_eq E2%Z.eqb_eq].
      exists (Some i). split; [done|]. split; [lia|].
      split; [by exists l|]. intros j l' Hj. lia.
    + destruct (IH ltac:(lia)) as (r & -> & Hr). exists r. split; [done|].
      assert (Hno : ¬ loop_is loop_end ext_def l).
      { intros [H1 H2]. apply andb_false_iff in E as [E%Z.eqb_neq|E%Z.eqb_neq]; done. }
      destruct r as [k|].
      * destruct Hr as (Hk & Hf & Hn). split; [lia|]. split; [done|].
        intros j l' Hj Hl'. destruct (decide (j = i)) as [->|Hne].
        -- by replace l' with l by congruence.
        -- apply (Hn j l'); [lia|done].
      * intros j l' Hj Hl'. destruct (decide (j = i)) as [->|Hne].
        -- by replace l' with l by congruence.
        -- apply (Hr j l'); [lia|done].
Qed.

(** X10.  [sieve_interpreter_loop_get] answers with the innermost frame
    that has the given end and extension, and with NULL exactly when no
    frame has them. *)
Theorem loop_get_finds_innermost (interp : sieve_interpreter) (loop_end ext_def : Z) :
  ∃ r, sieve_interpreter_loop_get interp loop_end ext_def = Done r
       ∧ match r with
         | Some k =>
             (∃ l, loops_of interp !! k = Some l ∧ loop_is loop_end ext_def l)
             ∧ ∀ j l, (k < j)%nat → loops_of interp !! j = Some l →
                      ¬ loop_is loop_end ext_def l
         | None => ∀ j l, loops_of interp !! j = Some l →
                          ¬ loop_is loop_end ext_def l
         end.
Proof.
  unfold sieve_interpreter_loop_get, array_is_created, loops_of.
  destruct (loop_stack interp) as [loops|]; cbn [negb].
  - destruct (loop_get_for_finds_innermost loops loop_end ext_def (length loops) (le_n _))
      as (r & -> & Hr).
    exists r. split; [done|]. destruct r as [k|].
    + destruct Hr as (_ & Hf & Hn). split; [done|]. intros j l Hj Hl.
      apply (Hn j l); [|done]. apply lookup_lt_Some in Hl. lia.
    + intros j l Hl. apply (Hr j l); [|done]. by apply lookup_lt_Some in Hl.
  - exists None. split; [done|]. intros j l Hl. by rewrite lookup_nil in Hl.
Qed.

Lemma loops_of_set_loops interp loops limit live next :
  loops_of (set_loops interp (Some loops) limit live next) = loops.
Proof. reflexivity. Qed.

Lemma pool_unref_fresh live p : p ∉ live → pool_unref (live ++ [p]) p = live.
Proof.
  unfold pool_unref. induction live as [|q live IH]; intros Hp.
  - cbn [app]. by rewrite filter_cons_False by (intros ?; done).
  - apply not_elem_of_cons in Hp as [Hq Hp]. cbn [app].
    rewrite filter_cons_True by done. by rewrite IH.
Qed.

Section LoopFacts.

Variable SIEVE_EXEC_OK : Z.
Variable SIEVE_EXEC_FAILURE : Z.
Variable SIEVE_EXEC_BIN_CORRUPT : Z.
Variable SIEVE_MAX_LOOP_DEPTH : Z.

Local Abbreviation loop_start :=
  (sieve_interpreter_loop_start SIEVE_EXEC_OK SIEVE_EXEC_FAILURE
     SIEVE_EXEC_BIN_CORRUPT SIEVE_MAX_LOOP_DEPTH).

(** The ways [sieve_interpreter_loop_start] ends. *)
Lemma loop_start_cases interp loop_end ext_def :
  let loops := loops_of interp in
  let depth := (parent_loop_level interp + Z.of_nat (length loops)) mod 2 ^ 32 in
  loop_start interp loop_end ext_def
  = if loop_end >? pc interp then
      if loop_end >? sieve_binary_block_get_size (sblock interp)
      then Done (SIEVE_EXEC_BIN_CORRUPT, None, interp)
      else if depth >=? SIEVE_MAX_LOOP_DEPTH
      then Done (SIEVE_EXEC_FAILURE, None,
                 set_loops interp (Some loops) (loop_limit interp)
                   (pools interp) (next_pool interp))
      else Done (SIEVE_EXEC_OK, Some (length loops),
                 set_loops interp
                   (Some (loops ++ [{| lp_level := Z.of_nat (length loops);
                                       lp_begin := pc interp; lp_end := loop_end;
                                       lp_ext_def := ext_def;
                                       lp_pool := next_pool interp |}]))
                   loop_end (pools interp ++ [next_pool interp])
                   (S (next_pool interp)))
    else Panic.
Proof.
  intros loops depth. unfold sieve_interpreter_loop_start, i_assert.
  destruct (loop_end >? pc interp); [|done]. cbn [mbind outcome_bind].
  destruct (loop_end >? _); [done|]. fold loops. cbn [parent_loop_level set_loops].
  fold depth. by destruct (depth >=? _).
Qed.

(** X11.  The loop stack never grows beyond [SIEVE_MAX_LOOP_DEPTH]: a loop
    started at the limit is refused with SIEVE_EXEC_FAILURE and the frames
    stay as they are, and below the limit one frame is added, which
    records its depth. *)
Theorem loop_start_respects_depth_limit (interp : sieve_interpreter)
    (loop_end ext_def ret : Z) (loop : option nat) (interp' : sieve_interpreter) :
  0 ≤ parent_loop_level interp →
  parent_loop_level interp + Z.of_nat (length (loops_of interp)) ≤ SIEVE_MAX_LOOP_DEPTH →
  SIEVE_MAX_LOOP_DEPTH < 2 ^ 32 →
  levels_ok (loops_of interp) →
  loop_start interp loop_end ext_def = Done (ret, loop, interp') →
  parent_loop_level interp' + Z.of_nat (length (loops_of interp')) ≤ SIEVE_MAX_LOOP_DEPTH
  ∧ levels_ok (loops_of interp')
  ∧ (parent_loop_level interp + Z.of_nat (length (loops_of interp)) = SIEVE_MAX_LOOP_DEPTH →
     loop_end ≤ sieve_binary_block_get_size (sblock interp) →
     ret = SIEVE_EXEC_FAILURE ∧ loop = None ∧ loops_of interp' = loops_of interp)
  ∧ (loop = None → loops_of interp' = loops_of interp)
  ∧ (∀ k, loop = Some k →
       ret = SIEVE_EXEC_OK ∧ k = length (loops_of interp)
       ∧ ∃ l, loops_of interp' = loops_of interp ++ [l]
              ∧ lp_level l = Z.of_nat k ∧ lp_begin l = pc interp
              ∧ lp_end l = loop_end ∧ lp_ext_def l = ext_def).
Proof.
  intros Hp Hd Hmax Hlv. rewrite loop_start_cases.
  rewrite Z.mod_small by lia.
  destruct (loop_end >? pc interp); [|done].
  destruct (loop_end >? _) eqn:E1.
  - intros [= <- <- <-]. repeat split; try done.
    apply Z.gtb_lt in E1. lia.
  - destruct (_ >=? SIEVE_MAX_LOOP_DEPTH) eqn:E2.
    + intros [= <- <- <-]. apply Z.geb_le in E2.
      assert (Hl : loops_of (set_loops interp (Some (loops_of interp)) (loop_limit interp)
                               (pools interp) (next_pool interp)) = loops_of interp) by done.
      rewrite Hl. repeat split; done.
    + intros [= <- <- <-]. rewrite Z.geb_leb in E2. apply Z.leb_gt in E2.
      set (l := {| lp_level := _ |}).
      assert (Hl : loops_of (set_loops interp (Some (loops_of interp ++ [l])) loop_end
                               (pools interp ++ [next_pool interp]) (S (next_pool interp)))
                   = loops_of interp ++ [l]) by done.
      rewrite Hl. split; [|split; [|split; [|split]]].
      * cbn [parent_loop_level set_loops]. rewrite length_app. simpl length. lia.
      * intros i l' Hi. apply lookup_app_Some in Hi as [Hi | [Hlen Hi]].
        -- by apply Hlv.
        -- apply list_lookup_singleton_Some in Hi as [Hi <-]. simpl. lia.
      * intros Heq. lia.
      * done.
      * intros k [= <-]. split; [done|]. split; [done|]. by exists l.
Qed.

(** X12.  The loop that [sieve_interpreter_loop_start] has started is the
    one [sieve_interpreter_loop_get] finds for its end and extension. *)
Theorem loop_get_finds_started_loop (interp : sieve_interpreter)
    (loop_end ext_def : Z) (k : nat) (interp' : sieve_interpreter) :
  loop_start interp loop_end ext_def = Done (SIEVE_EXEC_OK, Some k, interp') →
  sieve_interpreter_loop_get interp' loop_end ext_def = Done (Some k)
  ∧ loops_of interp' !! k
    = Some {| lp_level := Z.of_nat k; lp_begin := pc interp; lp_end := loop_end;
              lp_ext_def := ext_def; lp_pool := next_pool interp |}.
Proof.
  rewrite loop_start_cases.
  destruct (loop_end >? pc interp); [|done].
  destruct (loop_end >? _); [done|].
  destruct (_ >=? SIEVE_MAX_LOOP_DEPTH); [done|].
  intros [= <- <-].
  unfold sieve_interpreter_loop_get, array_is_created.
  rewrite !loops_of_set_loops. cbn [loop_stack set_loops negb].
  rewrite length_app. simpl length. rewrite Nat.add_1_r. cbn [loop_get_for].
  rewrite (array_at_Done _ _ {| lp_level := 0; lp_begin := 0; lp_end := 0;
                                lp_ext_def := 0; lp_pool := 0%nat |})
    by (rewrite length_app; simpl length; lia).
  rewrite Nat2Z.id, nth_middle. cbn [mbind outcome_bind lp_end lp_ext_def].
  rewrite !Z.eqb_refl. cbn [andb]. split; [done|].
  by rewrite list_lookup_middle.
Qed.

(** X13.  A loop that was started can iterate: as long as it is the
    innermost one, [sieve_interpreter_loop_next] with the address the loop
    was started at sets [pc] back to that address, wherever [pc] has moved
    to; any other begin address is reported as a corrupt binary, with [pc]
    left alone. *)
Theorem loop_next_returns_to_start (interp : sieve_interpreter)
    (loop_end ext_def : Z) (k : nat) (interp1 interp2 : sieve_interpreter)
    (loop_begin : Z) :
  loop_start interp loop_end ext_def = Done (SIEVE_EXEC_OK, Some k, interp1) →
  loop_stack interp2 = loop_stack interp1 →
  sieve_interpreter_loop_next SIEVE_EXEC_OK SIEVE_EXEC_BIN_CORRUPT interp2 k loop_begin
  = if loop_begin =? pc interp
    then Done (SIEVE_EXEC_OK, set_pc interp2 (pc interp))
    else Done (SIEVE_EXEC_BIN_CORRUPT, interp2).
Proof.
  rewrite loop_start_cases.
  destruct (loop_end >? pc interp); [|done].
  destruct (loop_end >? _); [done|].
  destruct (_ >=? SIEVE_MAX_LOOP_DEPTH); [done|].
  intros [= <- <-] Hst. cbn [loop_stack set_loops] in Hst.
  unfold sieve_interpreter_loop_next, array_is_created, loops_of. rewrite Hst.
  fold (loops_of interp).
  rewrite (array_at_Done _ _ {| lp_level := 0; lp_begin := 0; lp_end := 0;
                                lp_ext_def := 0; lp_pool := 0%nat |})
    by (rewrite length_app; simpl length; lia).
  rewrite Nat2Z.id, nth_middle. cbn [mbind outcome_bind lp_begin].
  rewrite (Z.eqb_sym (pc interp)).
  destruct (loop_begin =? pc interp) eqn:E; cbn [negb]; [|done].
  apply Z.eqb_eq in E. subst loop_begin.
  unfold i_assert. cbn [mbind outcome_bind].
  rewrite bool_decide_eq_true_2; [done|].
  rewrite length_app. simpl length. lia.
Qed.

(** X14.  Leaving a loop right after it was started puts the loop stack and
    the pools back as they were, with [pc] at the end of the loop. *)
Theorem loop_break_undoes_loop_start (interp : sieve_interpreter)
    (loop_end ext_def : Z) (k : nat) (interp1 : sieve_interpreter) :
  loop_start interp loop_end ext_def = Done (SIEVE_EXEC_OK, Some k, interp1) →
  next_pool interp ∉ pools interp →
  ∃ interp2,
    sieve_interpreter_loop_break SIEVE_EXEC_OK interp1 k = Done (SIEVE_EXEC_OK, interp2)
    ∧ loop_stack interp2 = Some (loops_of interp)
    ∧ pools interp2 = pools interp
    ∧ pc interp2 = loop_end
    ∧ sblock interp2 = sblock interp.
Proof.
  rewrite loop_start_cases.
  destruct (loop_end >? pc interp); [|done].
  destruct (loop_end >? _); [done|].
  destruct (_ >=? SIEVE_MAX_LOOP_DEPTH); [done|].
  intros [= <- <-] Hfresh.
  set (l := {| lp_level := _ |}).
  destruct (sieve_interpreter_loop_break_ok SIEVE_EXEC_OK
              (set_loops interp (Some (loops_of interp ++ [l])) loop_end
                 (pools interp ++ [next_pool interp]) (S (next_pool interp)))
              (loops_of interp ++ [l]) (length (loops_of interp)) l eq_refl
              ltac:(by apply list_lookup_middle))
    as (interp2 & -> & Hst & Hpc & Hsb & _ & Hpools).
  exists interp2. split; [done|]. split; [|split; [|split; [done|done]]].
  - by rewrite Hst, take_app_length.
  - rewrite Hpools, drop_app_length. change (reverse [l]) with [l].
    cbn [map fold_left pools set_loops lp_pool l].
    by apply pool_unref_fresh.
Qed.

End LoopFacts.

Lemma loop_start_respects_depth_limit_witness :
  let interp := interpreter_at [0; 0; 0; 0; 0; 0; 0; 0] 0
                  (Some [{| lp_level := 0; lp_begin := 0; lp_end := 8;
                            lp_ext_def := 0; lp_pool := 0%nat |}]) 8 in
  ∃ interp',
    sieve_interpreter_loop_start 1 0 (-2) 1 interp 4 0 = Done (0, None, interp')
    ∧ loops_of interp' = loops_of interp.
Proof.
  intros interp. eexists. split; [vm_compute; reflexivity|].
  refine (proj1 (proj2 (proj2 (proj2
            (loop_start_respects_depth_limit 1 0 (-2) 1 interp 4 0 0 None _
               _ _ _ _ eq_refl)))) eq_refl).
  - vm_compute. congruence.
  - vm_compute. congruence.
  - reflexivity.
  - intros [|[|i]] l; [by intros [= <-] | done | done].
Defined.

Lemma loop_get_finds_started_loop_witness :
  let interp := interpreter_at [0; 0; 0; 0; 0; 0; 0; 0] 0 None 0 in
  ∃ interp',
    sieve_interpreter_loop_start 1 0 (-2) 4 interp 6 7 = Done (1, Some 0%nat, interp')
    ∧ sieve_interpreter_loop_get interp' 6 7 = Done (Some 0%nat).
Proof.
  intros interp. eexists. split; [vm_compute; reflexivity|].
  exact (proj1 (loop_get_finds_started_loop 1 0 (-2) 4 interp 6 7 0%nat _ eq_refl)).
Defined.

Lemma loop_next_returns_to_start_witness :
  let interp := interpreter_at [0; 0; 0; 0; 0; 0; 0; 0] 2 None 0 in
  let interp1 := set_loops interp
                   (Some [{| lp_level := 0; lp_begin := 2; lp_end := 6;
                             lp_ext_def := 7; lp_pool := 0%nat |}])
                   6 [0%nat] 1%nat in
  sieve_interpreter_loop_start 1 0 (-2) 4 interp 6 7 = Done (1, Some 0%nat, interp1)
  ∧ sieve_interpreter_loop_next 1 (-2) (set_pc interp1 5) 0%nat 2
    = Done (1, set_pc (set_pc interp1 5) 2)
  ∧ sieve_interpreter_loop_next 1 (-2) (set_pc interp1 5) 0%nat 3
    = Done (-2, set_pc interp1 5).
Proof.
  intros interp interp1. split; [reflexivity|]. split.
  - exact (loop_next_returns_to_start 1 0 (-2) 4 interp 6 7 0%nat interp1
             (set_pc interp1 5) 2 eq_refl eq_refl).
  - exact (loop_next_returns_to_start 1 0 (-2) 4 interp 6 7 0%nat interp1
             (set_pc interp1 5) 3 eq_refl eq_refl).
Defined.

Lemma loop_break_undoes_loop_start_witness :
  let interp := interpreter_at [0; 0; 0; 0; 0; 0; 0; 0] 2 None 0 in
  ∃ interp1 interp2,
    sieve_interpreter_loop_start 1 0 (-2) 4 interp 6 7 = Done (1, Some 0%nat, interp1)
    ∧ sieve_interpreter_loop_break 1 interp1 0%nat = Done (1, interp2)
    ∧ loop_stack interp2 = Some []
    ∧ pools interp2 = []
    ∧ pc interp2 = 6.
Proof.
  intros interp. eexists.
  destruct (loop_break_undoes_loop_start 1 0 (-2) 4 interp 6 7 0%nat _ eq_refl)
    as (interp2 & Hb & Hs & Hp & Hpc & _).
  - apply not_elem_of_nil.
  - exists interp2. split; [vm_compute; reflexivity|].
    split; [exact Hb|]. split; [exact Hs|]. split; [exact Hp | exact Hpc].
Defined.

Lemma loop_get_local_for_finds loops ext_def i :
  (i ≤ length loops)%nat →
  ∃ r, loop_get_local_for i loops ext_def = Done r
       ∧ match r with
         | Some j =>
             (j < i)%nat
             ∧ (∃ l, loops !! j = Some l ∧ (ext_def = 0 ∨ lp_ext_def l = ext_def))
             ∧ ∀ j' l, (j < j' < i)%nat → loops !! j' = Some l →
                       ext_def ≠ 0 ∧ lp_ext_def l ≠ ext_def
         | None => ∀ j l, (j < i)%nat → loops !! j = Some l →
                          ext_def ≠ 0 ∧ lp_ext_def l ≠ ext_def
         end.
Proof.
  induction i as [|i IH]; intros Hi.
  - exists None. split; [done|]. intros j l Hj. lia.
  - cbn [loop_get_local_for].
    destruct (lookup_lt_is_Some_2 loops i ltac:(lia)) as [l Hl].
    destruct (ext_def =? 0) eqn:E0.
    + apply Z.eqb_eq in E0. exists (Some i). split; [done|]. split; [lia|].
      split; [exists l; by split; [|left]|]. intros j' l' Hj. lia.
    + apply Z.eqb_neq in E0.
      rewrite (array_at_Done loops (Z.of_nat i) l) by lia.
      rewrite Nat2Z.id, (nth_lookup_Some _ _ _ _ Hl). cbn [mbind outcome_bind].
      destruct (lp_ext_def l =? ext_def) eqn:E.
      * apply Z.eqb_eq in E. exists (Some i). split; [done|]. split; [lia|].
        split; [exists l; by split; [|right]|]. intros j' l' Hj. lia.
      * apply Z.eqb_neq in E.
        destruct (IH ltac:(lia)) as (r & -> & Hr). exists r. split; [done|].
        destruct r as [k|].
        -- destruct Hr as (Hk & Hf & Hn). split; [lia|]. split; [done|].
           intros j l' Hj Hl'. destruct (decide (j = i)) as [->|Hne].
           ++ by replace l' with l by congruence.
           ++ apply (Hn j l'); [lia|done].
        -- intros j l' Hj Hl'. destruct (decide (j = i)) as [->|Hne].
           ++ by replace l' with l by congruence.
           ++ apply (Hr j l'); [lia|done].
Qed.

(** X16.  [sieve_interpreter_loop_get_local] looks outwards from a loop:
    it answers with the innermost frame, strictly outside the given one
    (or of the whole stack for NULL), that belongs to the extension (or
    any frame for NULL), and with NULL when there is none. *)
Theorem loop_get_local_finds_enclosing (interp : sieve_interpreter)
    (loop : option nat) (ext_def : Z) :
  levels_ok (loops_of interp) →
  (∀ k, loop = Some k → is_Some (loops_of interp !! k)) →
  let bound := match loop with
               | Some k => k
               | None => length (loops_of interp)
               end in
  ∃ r, sieve_interpreter_loop_get_local interp loop ext_def = Done r
       ∧ match r with
         | Some j =>
             (j < bound)%nat
             ∧ (∃ l, loops_of interp !! j = Some l
                     ∧ (ext_def = 0 ∨ lp_ext_def l = ext_def))
             ∧ ∀ j' l, (j < j' < bound)%nat → loops_of interp !! j' = Some l →
                       ext_def ≠ 0 ∧ lp_ext_def l ≠ ext_def
         | None => ∀ j l, (j < bound)%nat → loops_of interp !! j = Some l →
                          ext_def ≠ 0 ∧ lp_ext_def l ≠ ext_def
         end.
Proof.
  intros Hlv Hloop bound. unfold sieve_interpreter_loop_get_local, array_is_created.
  destruct (loop_stack interp) as [loops|] eqn:Hs; cbn [negb].
  - assert (Hlo : loops_of interp = loops) by (unfold loops_of; by rewrite Hs).
    unfold bound. clear bound. rewrite Hlo in *.
    set (bound := match loop with Some k => k | None => length loops end).
    assert (Hstart : match loop with
                     | Some k =>
                         l ← array_at loops (Z.of_nat k);
                         _ ← i_assert (lp_level l <? Z.of_nat (length loops));
                         Done (lp_level l)
                     | None => Done (Z.of_nat (length loops))
                     end = Done (Z.of_nat bound) ∧ (bound ≤ length loops)%nat).
    { subst bound. destruct loop as [k|]; [|done].
      destruct (Hloop k eq_refl) as [l Hl].
      pose proof (lookup_lt_Some _ _ _ Hl) as Hlt.
      rewrite (array_at_Done loops (Z.of_nat k) l) by lia.
      rewrite Nat2Z.id, (nth_lookup_Some _ _ _ _ Hl). cbn [mbind outcome_bind].
      rewrite (Hlv k l Hl).
      replace (Z.of_nat k <? Z.of_nat (length loops)) with true
        by (symmetry; apply Z.ltb_lt; lia).
      split; [done|lia]. }
    destruct Hstart as [-> Hb]. cbn [mbind outcome_bind]. rewrite Nat2Z.id.
    apply loop_get_local_for_finds. done.
  - exists None. split; [done|]. intros j l _ Hl.
    unfold loops_of in Hl. rewrite Hs in Hl. by rewrite lookup_nil in Hl.
Qed.

Lemma loop_get_local_finds_enclosing_witness :
  let inner := {| lp_level := 1; lp_begin := 0; lp_end := 6;
                  lp_ext_def := 5; lp_pool := 1%nat |} in
  let outer := {| lp_level := 0; lp_begin := 0; lp_end := 10;
                  lp_ext_def := 5; lp_pool := 0%nat |} in
  let interp := interpreter_at [0; 0; 0; 0; 0; 0; 0; 0; 0; 0] 0
                  (Some [outer; inner]) 6 in
  sieve_interpreter_loop_get_local interp (Some 1%nat) 5 = Done (Some 0%nat)
  ∧ sieve_interpreter_loop_get_local interp (Some 0%nat) 5 = Done None.
Proof.
  intros inner outer interp.
  assert (Hlev : levels_ok (loops_of interp)).
  { intros [|[|i]] l; [by intros [= <-] | by intros [= <-] | done]. }
  split.
  - destruct (loop_get_local_finds_enclosing interp (Some 1%nat) 5 Hlev)
      as (r & Hr & Hspec).
    + intros k [= <-]. by eexists.
    + rewrite Hr. destruct r as [[|j]|]; [done| |].
      * destruct Hspec as [Hlt _]. simpl in Hlt. lia.
      * destruct (Hspec 0%nat outer ltac:(simpl; lia) eq_refl) as [_ Hne]. by destruct Hne.
  - destruct (loop_get_local_finds_enclosing interp (Some 0%nat) 5 Hlev)
      as (r & Hr & Hspec).
    + intros k [= <-]. by eexists.
    + rewrite Hr. destruct r as [j|]; [|done].
      destruct Hspec as [Hlt _]. simpl in Hlt. lia.
Defined.

(** ** Jumps that leave loops *)

Lemma loop_break_out_for_spec loops target i :
  (i ≤ length loops)%nat →
  ∃ j, loop_break_out_for i loops target = Done j
       ∧ (j ≤ i)%nat
       ∧ (∀ k l, (j ≤ k < i)%nat → loops !! k = Some l → lp_end l ≤ target)
       ∧ (∀ l, (0 < j)%nat → loops !! (j - 1)%nat = Some l → target < lp_end l).
Proof.
  induction i as [|i IH]; intros Hi.
  - exists O. split; [done|]. split; [done|]. split; intros; lia.
  - cbn [loop_break_out_for].
    destruct (lookup_lt_is_Some_2 loops i ltac:(lia)) as [l Hl].
    rewrite (array_at_Done loops (Z.of_nat i) l) by lia.
    rewrite Nat2Z.id, (nth_lookup_Some _ _ _ _ Hl). cbn [mbind outcome_bind].
    destruct (lp_end l >? target) eqn:E.
    + apply Z.gtb_lt in E. exists (S i). split; [done|]. split; [done|].
      split; [intros; lia|]. intros l' _ Hl'.
      replace (S i - 1)%nat with i in Hl' by lia. congruence.
    + rewrite Z.gtb_ltb in E. apply Z.ltb_ge in E.
      destruct (IH ltac:(lia)) as (j & -> & Hj & Hleft & Hkept).
      exists j. split; [done|]. split; [lia|]. split; [|done].
      intros k l' Hk Hl'. destruct (decide (k = i)) as [->|Hne].
      * congruence.
      * apply (Hleft k l'); [lia|done].
Qed.

Lemma loop_break_out_unwinds (SIEVE_EXEC_OK : Z) (interp : sieve_interpreter)
    (target : Z) :
  ∃ interp' kept left,
    sieve_interpreter_loop_break_out SIEVE_EXEC_OK interp target
      = Done (SIEVE_EXEC_OK, interp')
    ∧ loops_of interp = kept ++ left
    ∧ loops_of interp' = kept
    ∧ Forall (fun l => lp_end l ≤ target) left
    ∧ (∀ l, last kept = Some l → target < lp_end l)
    ∧ sblock interp' = sblock interp.
Proof.
  unfold sieve_interpreter_loop_break_out, array_is_created.
  destruct (loop_stack interp) as [loops|] eqn:Hs; cbn [negb].
  - assert (Hlo : loops_of interp = loops) by (unfold loops_of; by rewrite Hs).
    rewrite Hlo.
    destruct (loop_break_out_for_spec loops target (length loops) (le_n _))
      as (j & -> & Hj & Hleft & Hkept).
    cbn [mbind outcome_bind].
    assert (Hall : Forall (fun l => lp_end l ≤ target) (drop j loops)).
    { apply Forall_lookup. intros k l Hk. rewrite lookup_drop in Hk.
      apply (Hleft (j + k)%nat l); [|done]. apply lookup_lt_Some in Hk. lia. }
    assert (Hlast : ∀ l, last (take j loops) = Some l → target < lp_end l).
    { intros l Hl. rewrite last_lookup in Hl.
      rewrite length_take, Nat.min_l in Hl by done.
      destruct j as [|j]; [done|]. simpl pred in Hl.
      rewrite lookup_take_lt in Hl by lia.
      apply (Hkept l); [lia|]. by replace (S j - 1)%nat with j by lia. }
    destruct (bool_decide (j = length loops)) eqn:E.
    + apply bool_decide_eq_true in E. subst j.
      exists interp, loops, []. rewrite Hlo, app_nil_r.
      rewrite firstn_all in Hlast. repeat split; done.
    + apply bool_decide_eq_false in E.
      destruct (lookup_lt_is_Some_2 loops j ltac:(lia)) as [l Hl].
      destruct (sieve_interpreter_loop_break_ok SIEVE_EXEC_OK interp loops j l Hs Hl)
        as (interp' & -> & Hst & _ & Hsb & _).
      exists interp', (take j loops), (drop j loops).
      split; [done|]. split; [by rewrite take_drop|].
      split; [unfold loops_of; by rewrite Hst|]. done.
  - exists interp, [], []. unfold loops_of. rewrite Hs. repeat split; done.
Qed.

Section JumpFacts.

Variable sizeof_sieve_size_t : Z.
Variable SIEVE_EXEC_OK : Z.
Variable SIEVE_EXEC_BIN_CORRUPT : Z.

Hypothesis exec_ok_positive : 0 < SIEVE_EXEC_OK.

Local Abbreviation size_t := (to_sieve_size_t sizeof_sieve_size_t).

(** X15.  A jump that may leave loops, to a target inside the block, goes
    to the target and takes off the loop stack exactly the innermost
    frames that end at or before the target: the frame left on top, if
    any, ends after it. *)
Theorem program_jump_unwinds_loops (interp : sieve_interpreter) (bytes : list Z) :
  let block_size := sieve_binary_block_get_size (sblock interp) in
  let target := size_t (pc interp + decode_offset bytes (pc interp)) in
  code_view sizeof_sieve_size_t (sblock interp) bytes →
  0 ≤ pc interp → 4 ≤ block_size - pc interp →
  0 < target ≤ block_size →
  ∃ interp' kept left,
    sieve_interpreter_program_jump sizeof_sieve_size_t SIEVE_EXEC_OK
      SIEVE_EXEC_BIN_CORRUPT interp true true
    = Done (SIEVE_EXEC_OK, interp')
    ∧ pc interp' = target
    ∧ loops_of interp = kept ++ left
    ∧ loops_of interp' = kept
    ∧ Forall (fun l => lp_end l ≤ target) left
    ∧ (∀ l, last kept = Some l → target < lp_end l).
Proof.
  intros block_size target Hv Hpc Hlong Ht.
  unfold sieve_interpreter_program_jump.
  rewrite (sieve_binary_read_offset_decodes _ _ _ (pc interp) Hv Hpc Hlong).
  cbn [mbind outcome_bind]. cbn beta iota. cbn [negb].
  change (sblock (set_pc interp (pc interp + 4))) with (sblock interp).
  fold target. fold block_size.
  replace (target <=? block_size) with true by (symmetry; apply Z.leb_le; lia).
  replace (target >? 0) with true by (symmetry; apply Z.gtb_lt; lia).
  cbn [Z.eqb orb andb].
  destruct (loop_break_out_unwinds SIEVE_EXEC_OK (set_pc interp (pc interp + 4)) target)
    as (interp1 & kept & left & -> & Hsplit & Hkept & Hleft & Hlast & _).
  cbn [mbind outcome_bind]. cbn beta iota.
  replace (SIEVE_EXEC_OK <=? 0) with false by (symmetry; apply Z.leb_gt; lia).
  exists (set_pc interp1 target), kept, left. repeat split; done.
Qed.

End JumpFacts.

Lemma program_jump_unwinds_loops_witness :
  let inner := {| lp_level := 1; lp_begin := 0; lp_end := 6;
                  lp_ext_def := 0; lp_pool := 1%nat |} in
  let outer := {| lp_level := 0; lp_begin := 0; lp_end := 10;
                  lp_ext_def := 0; lp_pool := 0%nat |} in
  let interp := interpreter_at [0; 0; 0; 8; 0; 0; 0; 0; 0; 0] 0
                  (Some [outer; inner]) 6 in
  ∃ interp',
    sieve_interpreter_program_jump 8 1 (-2) interp true true = Done (1, interp')
    ∧ pc interp' = 8
    ∧ loops_of interp' = [outer].
Proof.
  intros inner outer interp.
  destruct (program_jump_unwinds_loops 8 1 (-2) ltac:(lia) interp
              [0; 0; 0; 8; 0; 0; 0; 0; 0; 0])
    as (interp' & kept & left & Hr & Hpc & Happ & Hk & Hl & Hlast).
  - repeat split; vm_compute; congruence.
  - vm_compute. congruence.
  - vm_compute. congruence.
  - vm_compute. split; congruence.
  - exists interp'. split; [exact Hr|]. split; [exact Hpc|].
    rewrite Hk. change (loops_of interp) with [outer; inner] in Happ.
    destruct kept as [|k1 [|k2 [|k3 kept]]]; simpl in Happ.
    + subst left. apply Forall_cons in Hl as [Hl _]. vm_compute in Hl. by destruct Hl.
    + injection Happ as H1 _. by rewrite <- H1.
    + injection Happ as _ H2 _. specialize (Hlast k2 eq_refl).
      rewrite <- H2 in Hlast. vm_compute in Hlast. discriminate.
    + discriminate.
Defined.

(** ** The names of a Sieve instance *)

Lemma strdup_c_string s : is_c_string s → strdup s = s.
Proof.
  induction s as [|c s IH]; [done|]. intros [Hc Hs]. cbn [strdup].
  apply Z.eqb_neq in Hc. rewrite Hc. by rewrite IH.
Qed.

Lemma strchr_first (c : ascii) (pre post : string) :
  is_c_string pre → occurs c pre = false →
  strchr (pre ++ String c post)%string c = Some (String c post).
Proof.
  induction pre as [|c0 pre IH]; cbn [String.append strchr occurs is_c_string].
  - intros _ _. by rewrite Ascii.eqb_refl.
  - intros [Hc Hs] Ho. apply orb_false_iff in Ho as [Hne Ho].
    rewrite Hne. apply Z.eqb_neq in Hc. rewrite Hc. by apply IH.
Qed.

Lemma strchr_none (c : ascii) (s : string) :
  char_code c ≠ 0 → occurs c s = false → strchr s c = None.
Proof.
  intros Hc. apply Z.eqb_neq in Hc.
  induction s as [|c0 s IH]; cbn [strchr occurs].
  - by rewrite Hc.
  - intros Ho. apply orb_false_iff in Ho as [Hne Ho]. rewrite Hne.
    destruct (char_code c0 =? 0); [done|]. by apply IH.
Qed.

Lemma strchr_some_occurs (c : ascii) (s r : string) :
  strchr s c = Some r → char_code c ≠ 0 → occurs c s = true.
Proof.
  intros H Hc. destruct (occurs c s) eqn:E; [done|].
  by rewrite (strchr_none c s Hc E) in H.
Qed.

Lemma is_c_string_app (a b : string) :
  is_c_string (a ++ b)%string ↔ is_c_string a ∧ is_c_string b.
Proof.
  induction a as [|c a IH]; cbn [String.append is_c_string]; [tauto|].
  rewrite IH. tauto.
Qed.

Lemma at_nul_c_string s : is_c_string s → at_nul s = true → s = EmptyString.
Proof.
  destruct s as [|c s]; [done|]. cbn. intros [Hc _] E. by apply Z.eqb_eq in E.
Qed.

(** X17.  With no domain name configured, the domain of the instance is
    what follows the first [@] of the user name, when something follows
    it. *)
Theorem sieve_init_domain_of_username (env : sieve_environment)
    (localpart domain : string) :
  (env_domainname env = None ∨ env_domainname env = Some EmptyString) →
  env_username env = Some (localpart ++ String "@" domain)%string →
  is_c_string localpart → occurs "@" localpart = false →
  is_c_string domain → domain ≠ EmptyString →
  ∃ svinst,
    sieve_init env true = Some svinst
    ∧ svinst_domainname svinst = Some domain
    ∧ svinst_username svinst = env_username env.
Proof.
  intros Hd Hu Hl Hno Hdom Hne. unfold sieve_init. cbn [negb].
  eexists. split; [reflexivity|]. rewrite Hu.
  assert (Hcs : is_c_string (localpart ++ String "@" domain)%string)
    by (apply is_c_string_app; split; [done|]; split; [done|done]).
  assert (Hnn : at_nul (localpart ++ String "@" domain)%string = false).
  { destruct (at_nul _) eqn:E; [|done].
    apply at_nul_c_string in E; [|done]. by destruct localpart. }
  cbn [p_strdup_empty svinst_domainname svinst_username]. rewrite Hnn.
  rewrite (strdup_c_string _ Hcs). split; [|done].
  replace (match env_domainname env with Some d => negb (at_nul d) | None => false end)
    with false by (by destruct Hd as [-> | ->]).
  rewrite (strchr_first "@" localpart domain Hl Hno). cbn [str_next].
  destruct (at_nul domain) eqn:E.
  - by apply at_nul_c_string in E.
  - cbn [option_map str_next p_strdup]. by rewrite strdup_c_string.
Qed.

(** X18.  With no domain name configured and no domain in the user name,
    the domain comes from the host name: what follows its first dot,
    when that has a dot of its own, and the whole host name otherwise. *)
Theorem sieve_init_domain_of_hostname (env : sieve_environment) (hostname : string) :
  (env_domainname env = None ∨ env_domainname env = Some EmptyString) →
  match env_username env with
  | Some u => is_c_string u ∧ occurs "@" u = false
  | None => True
  end →
  env_hostname env = Some hostname → is_c_string hostname →
  ∃ svinst,
    sieve_init env true = Some svinst
    ∧ (∀ host rest, hostname = (host ++ String "." rest)%string →
         occurs "." host = false →
         svinst_domainname svinst = Some (if occurs "." rest then rest else hostname))
    ∧ (occurs "." hostname = false → svinst_domainname svinst = Some hostname).
Proof.
  intros Hd Hu Hh Hcs. unfold sieve_init. cbn [negb].
  eexists. split; [reflexivity|]. cbn [svinst_domainname]. rewrite Hh.
  replace (match env_domainname env with Some d => negb (at_nul d) | None => false end)
    with false by (by destruct Hd as [-> | ->]).
  assert (Huser : match p_strdup_empty (env_username env) with
                  | Some u => strchr u "@"
                  | None => None
                  end = None).
  { destruct (env_username env) as [u|]; [|done]. destruct Hu as [Hu Hno].
    cbn [p_strdup_empty]. destruct (at_nul u); [done|].
    rewrite (strdup_c_string _ Hu). by apply strchr_none. }
  rewrite Huser. split.
  - intros host rest -> Hno.
    apply is_c_string_app in Hcs as [Hhost [_ Hrest]].
    rewrite (strchr_first "." host rest Hhost Hno). cbn [str_next].
    destruct (occurs "." rest) eqn:Ho.
    + assert (Hn : at_nul rest = false).
      { destruct (at_nul rest) eqn:E; [|done].
        apply at_nul_c_string in E; [|done]. by subst rest. }
      rewrite Hn. cbn [orb].
      destruct (strchr rest ".") as [r|] eqn:Hs.
      * cbn [option_map str_next p_strdup]. by rewrite strdup_c_string.
      * destruct rest as [|c rest]; [done|].
        exfalso. clear -Hs Ho Hrest.
        revert Hs Ho Hrest. generalize (String c rest). intros s.
        induction s as [|c0 s IH]; [done|]. cbn [strchr occurs is_c_string].
        destruct (Ascii.eqb c0 "."); [done|]. cbn [orb].
        intros Hs Ho [Hc Hr]. apply Z.eqb_neq in Hc. rewrite Hc in Hs. by apply IH.
    + rewrite (strchr_none "." rest) by done. rewrite orb_true_r.
      cbn [p_strdup]. rewrite strdup_c_string; [done|].
      apply is_c_string_app. split; [done|]. by split.
  - intros Hno. rewrite (strchr_none "." hostname) by done.
    cbn [p_strdup]. by rewrite strdup_c_string.
Qed.

Lemma sieve_init_domain_of_username_witness :
  let env := {| env_hostname := Some "mail.example.org"%string;
                env_domainname := None;
                env_username := Some "frank@example.com"%string |} in
  ∃ svinst,
    sieve_init env true = Some svinst
    ∧ svinst_domainname svinst = Some "example.com"%string.
Proof.
  intros env.
  destruct (sieve_init_domain_of_username env "frank" "example.com")
    as (svinst & Hi & Hd & _).
  - by left.
  - reflexivity.
  - cbn. repeat split; discriminate.
  - reflexivity.
  - cbn. repeat split; discriminate.
  - discriminate.
  - by exists svinst.
Defined.

Lemma sieve_init_domain_of_hostname_witness :
  let env := {| env_hostname := Some "mail.example.org"%string;
                env_domainname := Some EmptyString;
                env_username := Some "frank"%string |} in
  ∃ svinst,
    sieve_init env true = Some svinst
    ∧ svinst_domainname svinst = Some "example.org"%string.
Proof.
  intros env.
  destruct (sieve_init_domain_of_hostname env "mail.example.org")
    as (svinst & Hi & Hd & _).
  - by right.
  - cbn. repeat split; discriminate.
  - reflexivity.
  - cbn. repeat split; discriminate.
  - exists svinst. split; [exact Hi|].
    exact (Hd "mail"%string "example.org"%string eq_refl eq_refl).
Defined.

(** ** The [:regex] match type: compiling once, matching without values *)

Section RegexCacheFacts.

Variable regex_t : Type.
Variable regcomp : string -> list regex_cflag -> option regex_t.

(** X19.  The expressions are compiled while the first value is matched and
    kept by key index: an expression compiled for a key is what
    [mcht_regex_get] gives for that index with any later value, without
    compiling again, whatever key and comparator it is asked with; and
    compiling for one key leaves the expressions of the other keys in
    place. *)
Theorem regex_compiled_for_first_value_is_reused (ctx : mcht_regex_context regex_t)
    (cmp : sieve_comparator) (key : string) (key_index : Z) (regexp : regex_t)
    (ctx1 : mcht_regex_context regex_t) :
  0 ≤ key_index → value_index ctx ≤ 0 →
  mcht_regex_get regcomp ctx cmp key key_index = Done (Some regexp, ctx1) →
  (∃ cflags, regcomp key cflags = Some regexp
             ∧ (In REG_ICASE cflags ↔ cmp = i_ascii_casemap_comparator)
             ∧ (In REG_NOSUB cflags ↔ nmatch ctx = 0))
  ∧ reg_expressions ctx1 !! Z.to_nat key_index = Some (Some regexp)
  ∧ (∀ j, j ≠ Z.to_nat key_index → (j < length (reg_expressions ctx))%nat →
          reg_expressions ctx1 !! j = reg_expressions ctx !! j)
  ∧ (∀ (regcomp' : string -> list regex_cflag -> option regex_t)
       (ctx2 : mcht_regex_context regex_t) cmp' key',
       reg_expressions ctx2 = reg_expressions ctx1 → 0 < value_index ctx2 →
       mcht_regex_get regcomp' ctx2 cmp' key' key_index = Done (Some regexp, ctx2)).
Proof.
  intros Hk Hfirst. unfold mcht_regex_get.
  replace (value_index ctx <=? 0) with true by (symmetry; apply Z.leb_le; lia).
  set (regs := reg_expressions ctx
               ++ replicate (S (Z.to_nat key_index) - length (reg_expressions ctx)) None).
  assert (Hlen : (Z.to_nat key_index < length regs)%nat)
    by (subst regs; rewrite length_app, length_replicate; lia).
  cbn [nmatch set_reg_expressions reg_expressions].
  assert (Hflags : ∀ base, ¬ In REG_NOSUB base →
            In REG_NOSUB (if nmatch ctx =? 0 then base ++ [REG_NOSUB] else base)
            ↔ nmatch ctx = 0).
  { intros base Hbase. destruct (nmatch ctx =? 0) eqn:E.
    - apply Z.eqb_eq in E. split; [done|]. intros _. apply in_or_app. right. by left.
    - apply Z.eqb_neq in E. split; [by intros ?%Hbase|done]. }
  assert (Hres : ∀ cflags,
            regcomp key cflags = Some regexp →
            ctx1 = set_reg_expressions regex_t
                     (set_reg_expressions regex_t ctx (<[Z.to_nat key_index := None]> regs))
                     (<[Z.to_nat key_index := Some regexp]>
                        (<[Z.to_nat key_index := None]> regs)) →
            reg_expressions ctx1 !! Z.to_nat key_index = Some (Some regexp)
            ∧ (∀ j, j ≠ Z.to_nat key_index → (j < length (reg_expressions ctx))%nat →
                    reg_expressions ctx1 !! j = reg_expressions ctx !! j)
            ∧ (∀ (regcomp' : string -> list regex_cflag -> option regex_t)
                 (ctx2 : mcht_regex_context regex_t) cmp' key',
                 reg_expressions ctx2 = reg_expressions ctx1 → 0 < value_index ctx2 →
                 mcht_regex_get regcomp' ctx2 cmp' key' key_index
                   = Done (Some regexp, ctx2))).
  { intros cflags _ ->. cbn [reg_expressions set_reg_expressions].
    assert (Hl : <[Z.to_nat key_index := Some regexp]>
                   (<[Z.to_nat key_index := None]> regs) !! Z.to_nat key_index
                 = Some (Some regexp))
      by (apply list_lookup_insert_eq; by rewrite length_insert).
    split; [done|]. split.
    - intros j Hj Hjl. rewrite !list_lookup_insert_ne by done.
      subst regs. by rewrite lookup_app_l.
    - intros regcomp' ctx2 cmp' key' Hregs Hlater. unfold mcht_regex_get.
      replace (value_index ctx2 <=? 0) with false by (symmetry; apply Z.leb_gt; lia).
      rewrite Hregs. cbn [reg_expressions set_reg_expressions].
      rewrite (array_at_Done _ _ None) by (rewrite !length_insert; lia).
      by rewrite (nth_lookup_Some _ _ _ _ Hl). }
  destruct cmp as [| |other]; [| |done].
  - destruct (regcomp key _) as [re|] eqn:Hc; [|done]. intros [= <- <-].
    split; [|by apply (Hres _ Hc)].
    eexists. split; [exact Hc|]. split.
    + split; [|done]. intros Hin. destruct (nmatch ctx =? 0); simpl in Hin;
        intuition discriminate.
    + apply Hflags. simpl. intuition discriminate.
  - destruct (regcomp key _) as [re|] eqn:Hc; [|done]. intros [= <- <-].
    split; [|by apply (Hres _ Hc)].
    eexists. split; [exact Hc|]. split.
    + split; [done|]. intros _. destruct (nmatch ctx =? 0); simpl; auto.
    + apply Hflags. simpl. intuition discriminate.
Qed.

Variable regexec : regex_t -> string -> Z -> option (list regmatch_t).

Lemma mcht_regex_get_keeps_nmatch (ctx : mcht_regex_context regex_t) cmp key key_index
    regexp ctx' :
  mcht_regex_get regcomp ctx cmp key key_index = Done (regexp, ctx') →
  nmatch ctx' = nmatch ctx.
Proof.
  unfold mcht_regex_get. destruct (value_index ctx <=? 0).
  - destruct cmp; try (by intros [= <- <-]);
      destruct (regcomp key _); by intros [= <- <-].
  - destruct (array_at _ _) as [[re|]| | |]; cbn [mbind outcome_bind]; try done.
    by intros [= <- <-].
Qed.

(** X20.  When match values are not enabled the context is set up without
    a match array, and then a match never touches the match values of the
    interpreter: the result is TRUE exactly when [regexec], asked for no
    offsets, reports a match of the expression for the key. *)
Theorem regex_match_without_match_values (mctx : sieve_match_context regex_t)
    (val : option string) (key : string) (key_index : Z) :
  let v := match val with Some v => v | None => EmptyString end in
  let ctx := mctx_data mctx in
  let ctx1 := if key_index =? 0
              then {| reg_expressions := reg_expressions ctx;
                      value_index := value_index ctx + 1;
                      pmatch := pmatch ctx; nmatch := nmatch ctx |}
              else ctx in
  let result := mcht_regex_match regcomp regexec mctx val key key_index in
  nmatch (mctx_data mctx) = 0 →
  (∀ r mctx', result = Done (r, mctx') →
     mctx_interp mctx' = mctx_interp mctx ∧ nmatch (mctx_data mctx') = 0)
  ∧ (key_index < 0 → result = Done (false, mctx))
  ∧ (∀ regexp ctx2,
       0 ≤ key_index →
       mcht_regex_get regcomp ctx1 (mctx_comparator mctx) key key_index
         = Done (regexp, ctx2) →
       result = Done (match regexp with
                      | Some re => bool_decide (is_Some (regexec re v 0))
                      | None => false
                      end,
                      {| mctx_interp := mctx_interp mctx;
                         mctx_comparator := mctx_comparator mctx;
                         mctx_data := ctx2 |}))
  ∧ (∀ max interp cmp,
       sieve_match_values_are_enabled interp = false →
       nmatch (mctx_data (mcht_regex_match_init (regex_t := regex_t) max interp cmp)) = 0
       ∧ pmatch (mctx_data (mcht_regex_match_init (regex_t := regex_t) max interp cmp))
         = None).
Proof.
  intros v ctx ctx1 result Hn.
  assert (Hn1 : nmatch ctx1 = 0) by (subst ctx1; by destruct (key_index =? 0)).
  assert (Hgen : ∀ regexp ctx2,
            0 ≤ key_index →
            mcht_regex_get regcomp ctx1 (mctx_comparator mctx) key key_index
              = Done (regexp, ctx2) →
            result = Done (match regexp with
                           | Some re => bool_decide (is_Some (regexec re v 0))
                           | None => false
                           end,
                           {| mctx_interp := mctx_interp mctx;
                              mctx_comparator := mctx_comparator mctx;
                              mctx_data := ctx2 |})).
  { intros regexp ctx2 Hk Hget. subst result. unfold mcht_regex_match.
    replace (key_index <? 0) with false by (symmetry; apply Z.ltb_ge; lia).
    fold ctx. fold ctx1. rewrite Hget. cbn [mbind outcome_bind]. cbn beta iota.
    destruct regexp as [re|]; [|done].
    rewrite (mcht_regex_get_keeps_nmatch _ _ _ _ _ _ Hget), Hn1. fold v.
    destruct (regexec re v 0) as [offsets|]; cbn [Z.gtb Z.compare].
    - by rewrite bool_decide_eq_true_2.
    - rewrite bool_decide_eq_false_2; [done|]. by intros [? ?]. }
  split; [|split; [|split; [exact Hgen|]]].
  - intros r mctx' Hres. destruct (Z_lt_dec key_index 0) as [Hneg|Hk].
    + subst result. unfold mcht_regex_match in Hres.
      replace (key_index <? 0) with true in Hres by (symmetry; apply Z.ltb_lt; lia).
      by injection Hres as <- <-.
    + destruct (mcht_regex_get regcomp ctx1 (mctx_comparator mctx) key key_index)
        as [[regexp ctx2]| | |] eqn:Hget.
      * rewrite (Hgen regexp ctx2 ltac:(lia) eq_refl) in Hres. injection Hres as <- <-.
        cbn [mctx_interp mctx_data]. split; [done|].
        by rewrite (mcht_regex_get_keeps_nmatch _ _ _ _ _ _ Hget).
      * subst result. unfold mcht_regex_match in Hres.
        replace (key_index <? 0) with false in Hres by (symmetry; apply Z.ltb_ge; lia).
        fold ctx in Hres. fold ctx1 in Hres. by rewrite Hget in Hres.
      * subst result. unfold mcht_regex_match in Hres.
        replace (key_index <? 0) with false in Hres by (symmetry; apply Z.ltb_ge; lia).
        fold ctx in Hres. fold ctx1 in Hres. by rewrite Hget in Hres.
      * subst result. unfold mcht_regex_match in Hres.
        replace (key_index <? 0) with false in Hres by (symmetry; apply Z.ltb_ge; lia).
        fold ctx in Hres. fold ctx1 in Hres. by rewrite Hget in Hres.
  - intros Hneg. subst result. unfold mcht_regex_match.
    by replace (key_index <? 0) with true by (symmetry; apply Z.ltb_lt; lia).
  - intros max interp cmp Hoff. unfold mcht_regex_match_init. by rewrite Hoff.
Qed.

End RegexCacheFacts.

Lemma regex_compiled_for_first_value_is_reused_witness :
  let ctx := {| reg_expressions := []; value_index := 0; pmatch := None; nmatch := 0 |} in
  let ctx1 := {| reg_expressions := [Some tt]; value_index := 0;
                 pmatch := None; nmatch := 0 |} in
  let ctx2 := {| reg_expressions := [Some tt]; value_index := 1;
                 pmatch := None; nmatch := 0 |} in
  mcht_regex_get sample_regcomp ctx i_octet_comparator "pattern" 0
    = Done (Some tt, ctx1)
  ∧ mcht_regex_get (fun _ _ => None) ctx2 i_ascii_casemap_comparator "other" 0
    = Done (Some tt, ctx2).
Proof.
  intros ctx ctx1 ctx2. split; [reflexivity|].
  destruct (regex_compiled_for_first_value_is_reused unit sample_regcomp ctx
              i_octet_comparator "pattern" 0 tt ctx1) as (_ & _ & _ & H).
  - lia.
  - simpl. lia.
  - reflexivity.
  - apply H; [reflexivity | simpl; lia].
Defined.

Lemma regex_match_without_match_values_witness :
  let interp := {| match_values_enabled := false; match_values := Some ["old"%string] |} in
  let mctx := mcht_regex_match_init (regex_t := unit) 9 interp i_octet_comparator in
  ∃ mctx',
    mcht_regex_match sample_regcomp sample_regexec mctx (Some "[sieve] hi"%string)
      "pattern" 0 = Done (true, mctx')
    ∧ mctx_interp mctx' = interp.
Proof.
  intros interp mctx. eexists. split; [reflexivity|].
  destruct (regex_match_without_match_values unit sample_regcomp sample_regexec
              mctx (Some "[sieve] hi"%string) "pattern" 0 eq_refl) as [H _].
  exact (proj1 (H _ _ eq_refl)).
Defined.

(** ** The store action: what it does to the mail storage *)

Section StoreFacts.

Variable respond : list call -> call -> reply.
Variable str_sanitize : string -> Z -> string.
Variable MAIL_ERROR_NOTFOUND : Z.
Variable ns_storage : Z -> Z.
Variable ns_list : Z -> Z.

(** The calls made from [w] on are all harmless in the sense of [harmful]. *)
Lemma harmless_refl (harmful : call → Prop) w :
  ∃ new, calls_since w w new ∧ Forall (fun c => ¬ harmful c) new.
Proof. exists []. split; [unfold calls_since; by rewrite app_nil_r|done]. Qed.

Lemma harmless_call (harmful : call → Prop) w0 w c r w' :
  do_call respond w c = (r, w') →
  (∃ new, calls_since w0 w new ∧ Forall (fun c => ¬ harmful c) new) →
  ¬ harmful c →
  ∃ new, calls_since w0 w' new ∧ Forall (fun c => ¬ harmful c) new.
Proof.
  intros [= _ <-] (new & Hnew & Hall) Hc. exists (new ++ [c]). split.
  - unfold calls_since in *. cbn [calls]. by rewrite Hnew, app_assoc.
  - apply Forall_app. split; [done|]. by apply Forall_cons.
Qed.

Lemma harmless_snd_call (harmful : call → Prop) w0 w c :
  (∃ new, calls_since w0 w new ∧ Forall (fun c => ¬ harmful c) new) →
  ¬ harmful c →
  ∃ new, calls_since w0 (snd (do_call respond w c)) new
         ∧ Forall (fun c => ¬ harmful c) new.
Proof.
  destruct (do_call respond w c) as [r w'] eqn:E. intros. by eapply harmless_call.
Qed.

Lemma harmless_status (harmful : call → Prop) w0 w storage :
  (∃ new, calls_since w0 w new ∧ Forall (fun c => ¬ harmful c) new) →
  ∃ new, calls_since w0 (set_last_storage w storage) new
         ∧ Forall (fun c => ¬ harmful c) new.
Proof. done. Qed.

Ltac store_cases :=
  repeat match goal with
         | |- context [if ?b then _ else _] => destruct b eqn:?
         | |- context [match ?s with EmptyString => _ | String _ _ => _ end] =>
             destruct s eqn:?
         end.

Ltac store_steps :=
  repeat match goal with
         | |- context [if ?b then _ else _] => destruct b eqn:?
         | |- context [match ?s with EmptyString => _ | String _ _ => _ end] =>
             destruct s eqn:?
         | |- context [do_call ?rsp ?w ?c] =>
             let r := fresh "r" in
             let w' := fresh "w" in
             let E := fresh "E" in
             destruct (do_call rsp w c) as [r w'] eqn:E
         end.

Ltac harmless_by tac :=
  cbn [snd];
  repeat first [ apply harmless_refl
               | apply harmless_status
               | apply harmless_snd_call; [|tac]
               | eapply harmless_call; [eassumption | | tac] ].

Ltac ignores_acls :=
  first [ by intros []
        | let H := fresh in
          intros H; apply H; cbn [app In];
          repeat first [left; reflexivity | right] ].

Ltac calls_listed_eq :=
  unfold calls_since; cbn;
  rewrite <- ?app_assoc; cbn [app]; reflexivity.

Ltac calls_listed :=
  unfold calls_since; cbn;
  rewrite <- ?app_assoc; cbn [app];
  eexists; split; [reflexivity|].

(** X21.  The store action creates a mailbox only when the script
    environment allows it: with [mailbox_autocreate] off, opening the
    target mailbox makes no call to [mailbox_create], whatever the
    storage answers. *)
Theorem store_open_creates_only_with_autocreate (aenv : sieve_action_exec_env)
    (w : world) (mailbox : string) :
  mailbox_autocreate (scriptenv aenv) = false →
  ∃ new,
    calls_since w
      (snd (act_store_mailbox_open respond MAIL_ERROR_NOTFOUND ns_storage ns_list
              aenv w mailbox)) new
    ∧ Forall (fun c => ¬ creates_mailbox c) new.
Proof.
  intros Hauto. unfold act_store_mailbox_open. rewrite Hauto. cbn [negb orb].
  cbv zeta. store_steps; harmless_by ltac:(by intros []).
Qed.

(** X22.  A delivery to INBOX, in whatever case the name is written, and a
    delivery to a namespace prefix, which goes to INBOX instead, are made
    regardless of ACLs: every mailbox the store action allocates for them
    is allocated with MAILBOX_FLAG_IGNORE_ACLS. *)
Theorem store_open_inbox_ignores_acls (aenv : sieve_action_exec_env)
    (w : world) (mailbox : string) :
  let found := respond (calls w)
                 (mail_namespace_find (namespaces (scriptenv aenv)) mailbox) in
  strcasecmp mailbox "INBOX" = 0 ∨ r_str found = EmptyString →
  ∃ new,
    calls_since w
      (snd (act_store_mailbox_open respond MAIL_ERROR_NOTFOUND ns_storage ns_list
              aenv w mailbox)) new
    ∧ Forall (fun c => ¬ allocates_under_acls c) new.
Proof.
  intros found Hin. unfold act_store_mailbox_open. cbv zeta.
  destruct (do_call respond w
              (mail_namespace_find (namespaces (scriptenv aenv)) mailbox))
    as [r w1] eqn:E1.
  assert (Hr : r = found) by (by injection E1 as <- _).
  destruct Hin as [Hin|Hin].
  - rewrite Hin. cbn [Z.eqb]. store_steps; harmless_by ignores_acls.
  - rewrite Hr, Hin. store_steps; harmless_by ignores_acls.
Qed.

(** X23.  A store into the mailbox the message is already in copies
    nothing: executing it begins no mail transaction (it only replaces
    the flags and keywords of the message when a side effect altered
    them), and committing it logs that the message was left in the
    mailbox, marks the message as kept and saved, and leaves [*keep] as it
    is. *)
Theorem store_redundant_copies_nothing (aenv : sieve_action_exec_env) (w : world)
    (trans : act_store_transaction) (keep : bool) :
  tr_disabled trans = false → tr_redundant trans = true →
  (∃ trans1 w1 new,
     act_store_execute respond ns_storage aenv w (Some trans) = (true, Some trans1, w1)
     ∧ calls_since w w1 new
     ∧ Forall (fun c => ¬ saves_mail c) new
     ∧ exec_status w1 = exec_status w
     ∧ (tr_flags_altered trans = false → new = [] ∧ trans1 = trans)
     ∧ (tr_flags_altered trans = true →
        last new = Some (mail_update_flags (msg_mail (msgdata aenv)) (tr_flags trans))))
  ∧ (∃ w2,
       act_store_commit respond str_sanitize ns_storage aenv w (Some trans) keep
         = (true, keep, Some trans, w2)
       ∧ calls_since w w2
           [sieve_result_log "left message in mailbox '%s'"
              (str_sanitize (mailbox (tr_ctx trans)) 128)]
       ∧ keep_original (exec_status w2) = true
       ∧ message_saved (exec_status w2) = true
       ∧ last_storage (exec_status w2) = last_storage (exec_status w)).
Proof.
  intros Hd Hr. split.
  - unfold act_store_execute. rewrite Hd, Hr.
    destruct (tr_flags_altered trans) eqn:Hf.
    + unfold act_store_keywords_create.
      destruct (tr_keywords trans) as [[|k ks]|]; cbv zeta; unfold do_call;
        store_cases; cbn [fst snd];
        (eexists _, _, _; split; [reflexivity|]; split; [calls_listed_eq|]);
        (split; [repeat (apply Forall_cons; split; [by intros []|]); apply Forall_nil_2|]);
        (split; [reflexivity|]); (split; [done|]); intros _;
        rewrite ?last_app; reflexivity.
    + eexists _, _, []. split; [reflexivity|]. unfold calls_since.
      rewrite app_nil_r. repeat split; done.
  - unfold act_store_commit, act_store_log_status. rewrite Hd, Hr.
    eexists. split; [reflexivity|]. repeat split.
Qed.

(** X24.  Committing a store that has its mailbox open ends the mail
    transaction and closes the mailbox: the result is TRUE exactly when
    [mailbox_transaction_commit] answers 0; then the message is marked as
    saved and the implicit keep is cancelled, otherwise [*keep] is set and
    an error is logged; either way the last call closes the mailbox and
    the context holds no mailbox and no transaction afterwards. *)
Theorem store_commit_ends_transaction (aenv : sieve_action_exec_env) (w : world)
    (trans : act_store_transaction) (keep : bool) :
  tr_disabled trans = false → tr_redundant trans = false →
  tr_namespace trans ≠ 0 → tr_box trans ≠ 0 →
  ∃ status keep1 trans1 w1 new committed,
    act_store_commit respond str_sanitize ns_storage aenv w (Some trans) keep
      = (status, keep1, Some trans1, w1)
    ∧ keep1 = negb status
    ∧ calls_since w w1 new
    ∧ In (mailbox_transaction_commit (tr_mail_trans trans)) new
    ∧ last new = Some (mailbox_close (tr_box trans))
    ∧ status = (r_val committed =? 0)
    ∧ committed = respond (calls w ++ (if tr_dest_mail trans =? 0 then []
                                       else [mail_free (tr_dest_mail trans)]))
                    (mailbox_transaction_commit (tr_mail_trans trans))
    ∧ message_saved (exec_status w1) = (status || message_saved (exec_status w))
    ∧ last_storage (exec_status w1) = ns_storage (tr_namespace trans)
    ∧ tr_box trans1 = 0 ∧ tr_mail_trans trans1 = 0 ∧ tr_dest_mail trans1 = 0
    ∧ (status = true →
       In (sieve_result_log "stored mail into mailbox '%s'"
             (str_sanitize (mailbox (tr_ctx trans)) 128)) new).
Proof.
  intros Hd Hr Hns Hbox. unfold act_store_commit, act_store_log_status, TRUE, FALSE.
  rewrite Hd, Hr.
  apply Z.eqb_neq in Hns, Hbox. rewrite Hns, Hbox. cbv zeta. unfold do_call.
  destruct (tr_error trans) as [err|] eqn:Herr;
  destruct (tr_dest_mail trans =? 0) eqn:Hdm; cbn [negb];
    cbn [tr_disabled tr_redundant tr_namespace tr_box tr_error tr_ctx tr_dest_mail
         tr_mail_trans set_trans_mail set_trans_box fst snd calls];
    rewrite ?Hd, ?Hr, ?Hns, ?Hbox, ?Herr; cbn [negb];
    match goal with
    | |- context [r_val ?r =? 0] => destruct (r_val r =? 0) eqn:Hst
    end;
    cbn [negb]; store_cases;
    (eexists _, _, _, _, _, _; split; [reflexivity|]; split; [reflexivity|];
     split; [calls_listed_eq|]);
    cbn [tr_box tr_mail_trans tr_dest_mail set_trans_box set_trans_mail];
    rewrite ?app_nil_r;
    repeat split; try done; try (apply Z.eqb_eq in Hdm; done);
    try (rewrite ?last_app; reflexivity);
    try (cbn [In]; auto 10).
Qed.

(** X25.  Rolling a store back releases what the transaction holds: the
    mail object is freed, the mail transaction rolled back and the mailbox
    closed, each if it is there, in this order after the status is logged;
    nothing is copied or committed, the execution status stays as it is,
    and the context holds none of the three afterwards. *)
Theorem store_rollback_releases_transaction (aenv : sieve_action_exec_env)
    (w : world) (trans : act_store_transaction) (success : bool) :
  ∃ trans1 w1 logged,
    act_store_rollback respond str_sanitize ns_storage aenv w (Some trans) success
      = Done (trans1, w1)
    ∧ calls_since w w1
        (logged
         ++ (if tr_dest_mail trans =? 0 then [] else [mail_free (tr_dest_mail trans)])
         ++ (if tr_mail_trans trans =? 0 then []
             else [mailbox_transaction_rollback (tr_mail_trans trans)])
         ++ (if tr_box trans =? 0 then [] else [mailbox_close (tr_box trans)]))
    ∧ calls_since w
        (act_store_log_status respond str_sanitize ns_storage trans w true success)
        logged
    ∧ Forall (fun c => ¬ saves_mail c) logged
    ∧ exec_status w1 = exec_status w
    ∧ tr_dest_mail trans1 = 0 ∧ tr_mail_trans trans1 = 0 ∧ tr_box trans1 = 0.
Proof.
  unfold act_store_rollback, TRUE.
  assert (Hlog : ∃ logged,
            calls_since w
              (act_store_log_status respond str_sanitize ns_storage trans w true success)
              logged
            ∧ Forall (fun c => ¬ saves_mail c) logged
            ∧ exec_status (act_store_log_status respond str_sanitize ns_storage trans w
                             true success) = exec_status w).
  { unfold act_store_log_status, do_call, calls_since.
    destruct (tr_error trans); store_cases; cbn;
      (eexists; split; [rewrite <- ?app_assoc; reflexivity|]);
      (split; [repeat (apply Forall_cons; split; [by intros []|]); apply Forall_nil_2
              |reflexivity]). }
  destruct Hlog as (logged & Hcalls & Hsafe & Hst).
  set (w0 := act_store_log_status respond str_sanitize ns_storage trans w true success) in *.
  unfold calls_since in *. cbv zeta. unfold do_call.
  destruct (tr_dest_mail trans =? 0) eqn:Hdm; cbn [negb];
    cbn [tr_mail_trans tr_box tr_dest_mail set_trans_mail set_trans_box];
    destruct (tr_mail_trans trans =? 0) eqn:Hmt; cbn [negb];
    cbn [tr_mail_trans tr_box tr_dest_mail set_trans_mail set_trans_box];
    destruct (tr_box trans =? 0) eqn:Hbx; cbn [negb];
    (eexists _, _, logged; split; [reflexivity|]);
    cbn [calls exec_status tr_mail_trans tr_box tr_dest_mail set_trans_mail set_trans_box];
    rewrite ?Hcalls, <- ?app_assoc, ?app_nil_r;
    repeat split; try done;
    try (by apply Z.eqb_eq).
Qed.

End StoreFacts.

Lemma store_open_creates_only_with_autocreate_witness :
  let senv := {| namespaces := 1; default_mailbox := None; username := "u";
                 mailbox_autocreate := false; mailbox_autosubscribe := true;
                 has_duplicate_check := false; has_duplicate_mark := false |} in
  let aenv := {| scriptenv := senv;
                 msgdata := {| msg_mail := 1; msg_mail_box := 2 |} |} in
  let w := {| calls := [];
              exec_status := {| last_storage := 0; tried_default_save := false;
                                keep_original := false; message_saved := false |} |} in
  ∃ new,
    calls_since w (snd (act_store_mailbox_open quiet_storage 6 id id aenv w "Work")) new
    ∧ Forall (fun c => ¬ creates_mailbox c) new.
Proof.
  intros senv aenv w.
  exact (store_open_creates_only_with_autocreate quiet_storage 6 id id aenv w "Work"
           eq_refl).
Defined.

Lemma store_open_inbox_ignores_acls_witness :
  let senv := {| namespaces := 1; default_mailbox := None; username := "u";
                 mailbox_autocreate := true; mailbox_autosubscribe := true;
                 has_duplicate_check := false; has_duplicate_mark := false |} in
  let aenv := {| scriptenv := senv;
                 msgdata := {| msg_mail := 1; msg_mail_box := 2 |} |} in
  let w := {| calls := [];
              exec_status := {| last_storage := 0; tried_default_save := false;
                                keep_original := false; message_saved := false |} |} in
  ∃ new,
    calls_since w (snd (act_store_mailbox_open quiet_storage 6 id id aenv w "InBox")) new
    ∧ Forall (fun c => ¬ allocates_under_acls c) new.
Proof.
  intros senv aenv w.
  apply (store_open_inbox_ignores_acls quiet_storage 6 id id aenv w "InBox").
  left. reflexivity.
Defined.

Lemma store_redundant_copies_nothing_witness :
  let senv := {| namespaces := 1; default_mailbox := None; username := "u";
                 mailbox_autocreate := true; mailbox_autosubscribe := true;
                 has_duplicate_check := false; has_duplicate_mark := false |} in
  let aenv := {| scriptenv := senv;
                 msgdata := {| msg_mail := 1; msg_mail_box := 2 |} |} in
  let w := {| calls := [];
              exec_status := {| last_storage := 0; tried_default_save := false;
                                keep_original := false; message_saved := false |} |} in
  let trans := {| tr_ctx := {| mailbox := "Work" |}; tr_namespace := 3;
                  tr_folder := Some "Work"%string; tr_box := 2; tr_flags := 0;
                  tr_flags_altered := false; tr_keywords := None;
                  tr_disabled := false; tr_redundant := true;
                  tr_error := None; tr_error_code := 0;
                  tr_mail_trans := 0; tr_dest_mail := 0 |} in
  act_store_execute quiet_storage id aenv w (Some trans) = (true, Some trans, w)
  ∧ ∃ w2, act_store_commit quiet_storage (fun s _ => s) id aenv w (Some trans) false
          = (true, false, Some trans, w2)
          ∧ calls w2 = [sieve_result_log "left message in mailbox '%s'" "Work"].
Proof.
  intros senv aenv w trans.
  destruct (store_redundant_copies_nothing quiet_storage (fun s _ => s) id aenv w
              trans false eq_refl eq_refl)
    as [(trans1 & w1 & new & He & Hc & _ & Hst & Hsame & _) (w2 & Hcm & Hc2 & _)].
  split.
  - reflexivity.
  - exists w2. split; [exact Hcm | exact Hc2].
Defined.

Lemma store_commit_ends_transaction_witness :
  let senv := {| namespaces := 1; default_mailbox := None; username := "u";
                 mailbox_autocreate := true; mailbox_autosubscribe := true;
                 has_duplicate_check := false; has_duplicate_mark := false |} in
  let aenv := {| scriptenv := senv;
                 msgdata := {| msg_mail := 1; msg_mail_box := 2 |} |} in
  let w := {| calls := [];
              exec_status := {| last_storage := 0; tried_default_save := false;
                                keep_original := false; message_saved := false |} |} in
  let trans := {| tr_ctx := {| mailbox := "Work" |}; tr_namespace := 3;
                  tr_folder := Some "Work"%string; tr_box := 4; tr_flags := 0;
                  tr_flags_altered := false; tr_keywords := None;
                  tr_disabled := false; tr_redundant := false;
                  tr_error := None; tr_error_code := 0;
                  tr_mail_trans := 5; tr_dest_mail := 6 |} in
  ∃ trans1 w1,
    act_store_commit quiet_storage (fun s _ => s) id aenv w (Some trans) true
      = (true, false, Some trans1, w1)
    ∧ calls w1 = [mail_free 6; mailbox_transaction_commit 5;
                  sieve_result_log "stored mail into mailbox '%s'" "Work";
                  mailbox_close 4]
    ∧ tr_box trans1 = 0 ∧ tr_mail_trans trans1 = 0 ∧ tr_dest_mail trans1 = 0.
Proof.
  intros senv aenv w trans.
  destruct (store_commit_ends_transaction quiet_storage (fun s _ => s) id aenv w
              trans true eq_refl eq_refl)
    as (status & keep1 & trans1 & w1 & new & committed & Hc & _ & _ & _ & _ & _ & _
        & _ & _ & Hb & Hm & Hd & _).
  - discriminate.
  - discriminate.
  - exists trans1, w1. injection Hc as _ _ <- <-. repeat split; reflexivity.
Defined.

